(** * Email-Validator: SMTP verification engine and adaptive throttle

    A shallow embedding of the SMTP verification core of the repository:
    the reply interpretation, the handshake engine and the MX probing
    orchestrator of src/validators/smtpValidator.ts, the process-local and
    distributed throttle stores (the module smtpValidator.ts imports as
    [throttleState]) and the Lua acquisition script of [acquireThrottleSlot]
    in src/utils/cache.ts, then the in-memory cache of that file and the
    MX lookup that feeds the orchestrator; followed by the properties the
    specification states about them, and by further properties of the
    same code: the orchestrator as a whole, the command sequence of the
    handshake, the bookkeeping of the two throttle backends, the cache.
    The keys of the distributed backend are followed against the clock
    of the server, on which they lapse; the MX records are followed as
    the array that the cache and its readers share.

    Conventions of the embedding:
    - JavaScript numbers that hold millisecond clocks, counters, SMTP codes
      and MX priorities are integers in the source and are modelled in [Z];
      the retry delay, whose backoff factor is read with a float parser, and
      the values of [Math.random()] are modelled in [Q].
    - JavaScript strings are modelled as [string]; [toLowerCase],
      [toUpperCase] and [trim] act on the ASCII range, the alphabet of SMTP
      reply lines.
    - Promises are modelled by their settlement: a value of a sum type, the
      left injection for a fulfilled promise, the right one for a rejected
      promise.
    - [Date.now()], [Math.random()] and the remote servers are inputs of the
      model: explicit clock arguments, a stream of random draws, and an
      environment answering each connection attempt.
    - Logging is left out. *)

From Stdlib Require Import ZArith QArith Qround Ascii String DecimalString List Permutation Sorted Lia Bool.
From stdpp Require Import base option list gmap strings.

Local Open Scope string_scope.
Local Open Scope Z_scope.

(** ** JavaScript string primitives *)

Module Js.

Definition is_digit (c : ascii) : bool :=
  let n := nat_of_ascii c in ((48 <=? n) && (n <=? 57))%nat.

Definition digit_val (c : ascii) : Z := Z.of_nat (nat_of_ascii c) - 48.

Definition lower_ascii (c : ascii) : ascii :=
  let n := nat_of_ascii c in
  if ((65 <=? n) && (n <=? 90))%nat then ascii_of_nat (n + 32) else c.

Definition upper_ascii (c : ascii) : ascii :=
  let n := nat_of_ascii c in
  if ((97 <=? n) && (n <=? 122))%nat then ascii_of_nat (n - 32) else c.

Fixpoint map_string (f : ascii -> ascii) (s : string) : string :=
  match s with
  | EmptyString => EmptyString
  | String c s' => String (f c) (map_string f s')
  end.

(** [s.toLowerCase()] and [s.toUpperCase()]. *)
Definition toLowerCase (s : string) : string := map_string lower_ascii s.
Definition toUpperCase (s : string) : string := map_string upper_ascii s.

(** [s.startsWith(p)]. *)
Fixpoint startsWith (s p : string) : bool :=
  match p, s with
  | EmptyString, _ => true
  | String a p', String b s' => Ascii.eqb a b && startsWith s' p'
  | String _ _, EmptyString => false
  end.

(** [s.includes(sub)]. *)
Fixpoint includes (s sub : string) : bool :=
  startsWith s sub ||
  match s with
  | EmptyString => false
  | String _ s' => includes s' sub
  end.

(** [s.substring(n)]: the suffix from index [n]. *)
Fixpoint substring_from (n : nat) (s : string) : string :=
  match n, s with
  | O, _ => s
  | S n', String _ s' => substring_from n' s'
  | S _, EmptyString => EmptyString
  end.

(** [s[n]], [None] standing for [undefined]. *)
Definition char_at (n : nat) (s : string) : option ascii := String.get n s.

Definition is_space (c : ascii) : bool :=
  let n := nat_of_ascii c in
  ((n =? 32) || ((9 <=? n) && (n <=? 13)))%nat.

Fixpoint trim_start (s : string) : string :=
  match s with
  | String c s' => if is_space c then trim_start s' else s
  | EmptyString => EmptyString
  end.

Fixpoint trim_end (s : string) : string :=
  match s with
  | EmptyString => EmptyString
  | String c s' =>
      match trim_end s' with
      | EmptyString => if is_space c then EmptyString else String c EmptyString
      | t => String c t
      end
  end.

(** [s.trim()]. *)
Definition trim (s : string) : string := trim_end (trim_start s).

(** [s.split('\r\n')]: the pieces between the separators, never empty as
    a list ([''.split(sep)] is [['']]). [cur] accumulates the current
    piece. *)
Fixpoint split_crlf_aux (cur : string) (s : string) : list string :=
  match s with
  | EmptyString => [cur]
  | String c s' =>
      match s' with
      | String d s'' =>
          if Ascii.eqb c "013" && Ascii.eqb d "010"
          then cur :: split_crlf_aux EmptyString s''
          else split_crlf_aux (cur ++ String c EmptyString)%string s'
      | EmptyString => [(cur ++ String c EmptyString)%string]
      end
  end.

Definition split_crlf (s : string) : list string := split_crlf_aux EmptyString s.

(** [a || b] on strings: the empty string is falsy. *)
Definition or_else (a b : string) : string :=
  match a with EmptyString => b | _ => a end.

(** Truthiness of an optional number: [undefined], and [0], are falsy. *)
Definition truthy (o : option Z) : bool :=
  match o with
  | Some v => negb (v =? 0)
  | None => false
  end.

End Js.

(** ** Result types (src/types/email.ts) *)

Inductive SmtpStatus :=
| not_checked
| valid
| invalid
| unknown
| catch_all
| temporarily_unavailable.

Inductive ValidationReasonCode :=
| no_mx_records
| smtp_valid
| smtp_invalid
| smtp_catch_all
| smtp_temporarily_unavailable
| smtp_connection_failed
| smtp_timeout
| smtp_greylisted
| smtp_rate_limited
| smtp_soft_fails_exceeded
| smtp_hard_block
| smtp_tls_required
| smtp_banner_timeout
| smtp_ehlo_timeout
| smtp_mail_timeout
| smtp_rcpt_timeout
| smtp_conn_refused
| smtp_network_unreachable
| smtp_conn_reset
| smtp_mx_all_failed.

Record SmtpValidationResult := mkResult {
  smtpStatus : SmtpStatus;
  reasonCodes : list ValidationReasonCode;
  rawSmtpResponse : option string
}.

Record MxRecord := mkMx {
  exchange : string;
  priority : Z
}.

(** A JavaScript [Error]: its message and, for socket errors, the system
    error code ([error.code]). *)
Record JsError := mkError {
  message : string;
  code : option string
}.

Definition new_Error (msg : string) : JsError := mkError msg None.

#[global] Instance SmtpStatus_eq_dec : EqDecision SmtpStatus.
Proof. solve_decision. Defined.

#[global] Instance ValidationReasonCode_eq_dec : EqDecision ValidationReasonCode.
Proof. solve_decision. Defined.

(** ** Reply interpretation (smtpValidator.ts) *)

(** [extractSmtpCode]: the number read by [/^(\d{3})/], else 0. *)
Definition extractSmtpCode (response : string) : Z :=
  match response with
  | String a (String b (String c _)) =>
      if Js.is_digit a && Js.is_digit b && Js.is_digit c
      then 100 * Js.digit_val a + 10 * Js.digit_val b + Js.digit_val c
      else 0
  | _ => 0
  end.

Definition catch_all_language (lowerMessage : string) : bool :=
  Js.includes lowerMessage "catch-all" ||
  Js.includes lowerMessage "accept all" ||
  Js.includes lowerMessage "accepts all".

Definition greylisting_indicator (code : Z) (lowerMessage : string) : bool :=
  (code =? 450) || (code =? 451) || (code =? 452) ||
  Js.includes lowerMessage "greylist" ||
  Js.includes lowerMessage "try again" ||
  Js.includes lowerMessage "retry".

Definition rate_limit_indicator (code : Z) (lowerMessage : string) : bool :=
  (code =? 421) || (code =? 452) ||
  Js.includes lowerMessage "rate" ||
  Js.includes lowerMessage "throttle" ||
  Js.includes lowerMessage "too many".

Definition interpretSmtpCode (code : Z) (message rawResponse : string)
  : SmtpValidationResult :=
  let lowerMessage := Js.toLowerCase message in
  if (200 <=? code) && (code <? 300) then
    if catch_all_language lowerMessage
    then mkResult catch_all [smtp_catch_all] (Some rawResponse)
    else mkResult valid [smtp_valid] (Some rawResponse)
  else if (400 <=? code) && (code <? 500) then
    let reasonCodes := [smtp_temporarily_unavailable] in
    let reasonCodes :=
      if greylisting_indicator code lowerMessage
      then (reasonCodes ++ [smtp_greylisted])%list else reasonCodes in
    let reasonCodes :=
      if rate_limit_indicator code lowerMessage
      then (reasonCodes ++ [smtp_rate_limited])%list else reasonCodes in
    mkResult temporarily_unavailable reasonCodes (Some rawResponse)
  else if (500 <=? code) && (code <? 600) then
    mkResult invalid [smtp_invalid] (Some rawResponse)
  else
    mkResult unknown [smtp_connection_failed] (Some rawResponse).

Definition blockIndicators : list string :=
  ["blacklist"; "blocked"; "banned"; "policy"; "abuse"; "spam";
   "reputation"; "rbl"; "dnsbl"].

Definition isHardBlockError (error : JsError) : bool :=
  let message := Js.toLowerCase (message error) in
  existsb (fun indicator => Js.includes message indicator) blockIndicators.

Definition code_is (error : JsError) (c : string) : bool :=
  match code error with
  | Some c' => String.eqb c' c
  | None => false
  end.

Definition mapErrorToResult (error : JsError) : SmtpValidationResult :=
  let message := message error in
  let code := extractSmtpCode message in
  if 0 <? code then interpretSmtpCode code message message
  else if Js.includes message "banner_timeout" then
    mkResult unknown [smtp_banner_timeout; smtp_timeout]
      (Some "Timeout waiting for SMTP banner")
  else if Js.includes message "ehlo_timeout" then
    mkResult unknown [smtp_ehlo_timeout; smtp_timeout]
      (Some "Timeout during EHLO handshake")
  else if Js.includes message "mail_timeout" then
    mkResult unknown [smtp_mail_timeout; smtp_timeout]
      (Some "Timeout during MAIL FROM")
  else if Js.includes message "rcpt_timeout" then
    mkResult unknown [smtp_rcpt_timeout; smtp_timeout]
      (Some "Timeout during RCPT TO")
  else if Js.includes message "ECONNREFUSED" || code_is error "ECONNREFUSED" then
    mkResult unknown [smtp_conn_refused; smtp_connection_failed]
      (Some "Connection refused (port 25 closed/filtered)")
  else if Js.includes message "ENETUNREACH" || code_is error "ENETUNREACH" ||
          Js.includes message "EHOSTUNREACH" || code_is error "EHOSTUNREACH" then
    mkResult unknown [smtp_network_unreachable; smtp_connection_failed]
      (Some "Network or host unreachable (routing issue)")
  else if Js.includes message "ECONNRESET" || code_is error "ECONNRESET" then
    mkResult unknown [smtp_conn_reset; smtp_connection_failed]
      (Some "Connection reset by peer (possibly IP-blocked)")
  else if Js.includes message "timeout" || Js.includes message "ETIMEDOUT" ||
          code_is error "ETIMEDOUT" then
    mkResult unknown [smtp_timeout] (Some (Js.or_else message "Operation timed out"))
  else
    mkResult unknown [smtp_connection_failed]
      (Some (Js.or_else message "Unknown SMTP error")).

(** ** Adaptive throttle, process-local backend (InMemoryThrottleStore) *)

Module Throttle.

Record MxState := mkMxState {
  host : string;
  concurrency : Z;
  maxConcurrency : Z;
  failures : Z;
  successCount : Z;
  penaltyUntil : option Z;
  lastAttemptAt : option Z;
  totalAttempts : Z;
  totalSuccesses : Z
}.

Record ThrottleConfig := mkThrottleConfig {
  maxGlobalConcurrency : Z;
  maxMxConcurrency : Z;
  perDomainMinIntervalMs : Z
}.

(** [InMemoryThrottleStore]: the [mxStates] map and the global counter.
    The map holds its records by reference and no operation below removes
    or replaces a record once created ([clearAll] is not among them), so a
    map from host to record value is the same store. *)
Record InMemoryThrottleStore := mkStore {
  mxStates : gmap string MxState;
  globalConcurrency : Z
}.

Definition empty_store : InMemoryThrottleStore := mkStore ∅ 0.

Definition initial_state (normalizedHost : string) (maxMxConcurrency : Z) : MxState :=
  {| host := normalizedHost;
     concurrency := 0;
     maxConcurrency := Z.min maxMxConcurrency 2;
     failures := 0;
     successCount := 0;
     penaltyUntil := None;
     lastAttemptAt := None;
     totalAttempts := 0;
     totalSuccesses := 0 |}.

Definition getOrCreateState (mxHost : string) (maxMxConcurrency : Z)
    (st : InMemoryThrottleStore) : MxState * InMemoryThrottleStore :=
  let normalizedHost := Js.toLowerCase mxHost in
  match mxStates st !! normalizedHost with
  | Some state => (state, st)
  | None =>
      let state := initial_state normalizedHost maxMxConcurrency in
      (state, mkStore (<[normalizedHost := state]> (mxStates st)) (globalConcurrency st))
  end.

Definition maxWaitTime : Z := 60000.

(** Outcome of one turn of the [while (true)] loop of [acquireSlot]. *)
Inductive AcquireStep :=
| Acquired (state : MxState) (globalConcurrency : Z)
| TimedOut (error : JsError)
| Sleep (ms : Z).

Definition penalty_active (now : Z) (state : MxState) : bool :=
  match penaltyUntil state with
  | Some p => negb (p =? 0) && (now <? p)
  | None => false
  end.

Definition interval_pending (now : Z) (config : ThrottleConfig) (state : MxState) : bool :=
  match lastAttemptAt state with
  | Some l => negb (l =? 0) && (now - l <? perDomainMinIntervalMs config)
  | None => false
  end.

Definition take_slot (now : Z) (state : MxState) : MxState :=
  {| host := host state;
     concurrency := concurrency state + 1;
     maxConcurrency := maxConcurrency state;
     failures := failures state;
     successCount := successCount state;
     penaltyUntil := penaltyUntil state;
     lastAttemptAt := Some now;
     totalAttempts := totalAttempts state + 1;
     totalSuccesses := totalSuccesses state |}.

(** The loop body of [acquireSlot], on the current contents of the record
    [state] it holds and of the global counter, at clock reading [now]. *)
Definition acquireSlot_body (mxHost : string) (config : ThrottleConfig)
    (startTime now : Z) (state : MxState) (global : Z) : AcquireStep :=
  if maxWaitTime <? now - startTime then
    TimedOut (new_Error ("Timeout waiting for slot to " ++ mxHost))
  else if penalty_active now state then
    Sleep (Z.min 1000 (default 0 (penaltyUntil state) - now))
  else if interval_pending now config state then
    Sleep (perDomainMinIntervalMs config - (now - default 0 (lastAttemptAt state)))
  else if maxGlobalConcurrency config <=? global then
    Sleep 500
  else if maxConcurrency state <=? concurrency state then
    Sleep 500
  else
    Acquired (take_slot now state) (global + 1).

(** What the loop sees each time it runs: the clock, and the contents of
    the shared record and counter, which other tasks may have changed
    while it slept. *)
Record Observation := mkObs {
  obs_now : Z;
  obs_state : MxState;
  obs_global : Z
}.

(** The loop of [acquireSlot] from its [k]-th turn: the turn at which it
    stops, and how. [fuel] bounds the number of turns examined. *)
Fixpoint acquireSlot_loop (fuel : nat) (mxHost : string) (config : ThrottleConfig)
    (startTime : Z) (world : nat -> Observation) (k : nat)
    : option (nat * AcquireStep) :=
  match fuel with
  | O => None
  | S fuel' =>
      let o := world k in
      match acquireSlot_body mxHost config startTime (obs_now o) (obs_state o) (obs_global o) with
      | Sleep _ => acquireSlot_loop fuel' mxHost config startTime world (S k)
      | r => Some (k, r)
      end
  end.

Definition set_state (mxHost : string) (state : MxState) (global : Z)
    (st : InMemoryThrottleStore) : InMemoryThrottleStore :=
  mkStore (<[Js.toLowerCase mxHost := state]> (mxStates st)) global.

Definition releaseSlot (mxHost : string) (st : InMemoryThrottleStore)
    : InMemoryThrottleStore :=
  match mxStates st !! Js.toLowerCase mxHost with
  | None => st
  | Some state =>
      let state' :=
        {| host := host state;
           concurrency := Z.max 0 (concurrency state - 1);
           maxConcurrency := maxConcurrency state;
           failures := failures state;
           successCount := successCount state;
           penaltyUntil := penaltyUntil state;
           lastAttemptAt := lastAttemptAt state;
           totalAttempts := totalAttempts state;
           totalSuccesses := totalSuccesses state |} in
      set_state mxHost state' (Z.max 0 (globalConcurrency st - 1)) st
  end.

Definition success_update (state : MxState) : MxState :=
  let successCount' := successCount state + 1 in
  {| host := host state;
     concurrency := concurrency state;
     maxConcurrency :=
       if (10 <? successCount') && (maxConcurrency state <? 5)
       then Z.min (maxConcurrency state + 1) 5
       else maxConcurrency state;
     failures := Z.max 0 (failures state - 1);
     successCount := successCount';
     penaltyUntil := penaltyUntil state;
     lastAttemptAt := lastAttemptAt state;
     totalAttempts := totalAttempts state;
     totalSuccesses := totalSuccesses state + 1 |}.

Definition recordSuccess (mxHost : string) (st : InMemoryThrottleStore)
    : InMemoryThrottleStore :=
  match mxStates st !! Js.toLowerCase mxHost with
  | None => st
  | Some state => set_state mxHost (success_update state) (globalConcurrency st) st
  end.

Definition penaltyMs (failures : Z) : Z := Z.min 300000 (5000 * 2 ^ failures).

Definition failure_update (shouldPenalize : bool) (now : Z) (state : MxState) : MxState :=
  let failures' := failures state + 1 in
  {| host := host state;
     concurrency := concurrency state;
     maxConcurrency :=
       if (3 <? failures') && (1 <? maxConcurrency state)
       then Z.max 1 (maxConcurrency state - 1)
       else maxConcurrency state;
     failures := failures';
     successCount := 0;
     penaltyUntil :=
       if shouldPenalize then Some (now + penaltyMs failures') else penaltyUntil state;
     lastAttemptAt := lastAttemptAt state;
     totalAttempts := totalAttempts state;
     totalSuccesses := totalSuccesses state |}.

(** [recordFailure]; [now] is the reading of [Date.now()] it takes. *)
Definition recordFailure (mxHost : string) (shouldPenalize : bool) (now : Z)
    (st : InMemoryThrottleStore) : InMemoryThrottleStore :=
  match mxStates st !! Js.toLowerCase mxHost with
  | None => st
  | Some state => set_state mxHost (failure_update shouldPenalize now state) (globalConcurrency st) st
  end.

(** The atomic steps tasks take on the store. JavaScript runs each of them
    to completion; an [acquireSlot] call is an [OpEnter] followed by one
    [OpTurn] per turn of its loop, other tasks' steps coming in between. *)
Inductive Op :=
| OpEnter (mxHost : string) (config : ThrottleConfig)
| OpTurn (mxHost : string) (config : ThrottleConfig) (startTime now : Z)
| OpRelease (mxHost : string)
| OpSuccess (mxHost : string)
| OpFailure (mxHost : string) (shouldPenalize : bool) (now : Z).

Definition step (st : InMemoryThrottleStore) (op : Op) : InMemoryThrottleStore :=
  match op with
  | OpEnter mxHost config => snd (getOrCreateState mxHost (maxMxConcurrency config) st)
  | OpTurn mxHost config startTime now =>
      match mxStates st !! Js.toLowerCase mxHost with
      | None => st
      | Some state =>
          match acquireSlot_body mxHost config startTime now state (globalConcurrency st) with
          | Acquired state' global' => set_state mxHost state' global' st
          | _ => st
          end
      end
  | OpRelease mxHost => releaseSlot mxHost st
  | OpSuccess mxHost => recordSuccess mxHost st
  | OpFailure mxHost shouldPenalize now => recordFailure mxHost shouldPenalize now st
  end.

Definition run (ops : list Op) (st : InMemoryThrottleStore) : InMemoryThrottleStore :=
  fold_left step ops st.

(** The bound the adaptation enforces on success-driven increments. *)
Definition hardCeiling : Z := 5.

End Throttle.

(** ** Validation configuration (smtpValidator.ts) *)

Record SmtpValidationConfig := mkConfig {
  maxGlobalConcurrency : Z;
  maxMxConcurrency : Z;
  perDomainMinIntervalMs : Z;
  softRetryLimit : Z;
  initialRetryDelayMs : Z;
  retryBackoffFactor : Q;
  connectTimeoutMs : Z;
  overallTimeoutMs : Z;
  heloDomain : string;
  mailFrom : string;
  bannerTimeoutMs : Z;
  ehloTimeoutMs : Z;
  mailTimeoutMs : Z;
  rcptTimeoutMs : Z;
  requireTls : bool;
  allowTlsDowngrade : bool;
  maxMxAttempts : Z;
  randomizeSamePriority : bool
}.

(** ** The handshake engine (performSmtpHandshake) *)

Module Handshake.

(** State of the promise returned by [performSmtpHandshake]. *)
Inductive Settlement :=
| Pending
| Resolved (result : SmtpValidationResult)
| Rejected (error : JsError).

(** The closure variables of [performSmtpHandshake], the writes made to
    the socket so far, and the state of its promise. [currentTimeout] is
    the armed phase timer, with its phase name and duration. *)
Record State := mkState {
  buffer : string;
  step : Z;
  rawResponse : string;
  ehloCapabilities : list string;
  currentTimeout : option (string * Z);
  written : list string;
  destroyed : bool;
  settled : Settlement
}.

Inductive SocketEvent :=
| OnData (data : string)
| OnError (err : JsError)
| OnTimeout
| OnEnd
| OnPhaseTimer.

Definition CRLF : string := String "013" (String "010" EmptyString).
Definition LF : string := String "010" EmptyString.

Fixpoint join (sep : string) (l : list string) : string :=
  match l with
  | [] => ""
  | [x] => x
  | x :: l' => x ++ sep ++ join sep l'
  end.

Definition string_in (x : string) (l : list string) : bool :=
  existsb (String.eqb x) l.

Definition write (data : string) (st : State) : State :=
  mkState (buffer st) (step st) (rawResponse st) (ehloCapabilities st)
    (currentTimeout st) (written st ++ [data])%list (destroyed st) (settled st).

Definition setPhaseTimeout (phase : string) (timeoutMs : Z) (st : State) : State :=
  mkState (buffer st) (step st) (rawResponse st) (ehloCapabilities st)
    (Some (phase, timeoutMs)) (written st) (destroyed st) (settled st).

Definition clearTimeout (st : State) : State :=
  mkState (buffer st) (step st) (rawResponse st) (ehloCapabilities st)
    None (written st) (destroyed st) (settled st).

Definition set_step (n : Z) (st : State) : State :=
  mkState (buffer st) n (rawResponse st) (ehloCapabilities st)
    (currentTimeout st) (written st) (destroyed st) (settled st).

Definition set_buffer (b : string) (st : State) : State :=
  mkState b (step st) (rawResponse st) (ehloCapabilities st)
    (currentTimeout st) (written st) (destroyed st) (settled st).

Definition append_raw (line : string) (st : State) : State :=
  mkState (buffer st) (step st) (rawResponse st ++ line ++ LF) (ehloCapabilities st)
    (currentTimeout st) (written st) (destroyed st) (settled st).

Definition push_capability (c : string) (st : State) : State :=
  mkState (buffer st) (step st) (rawResponse st) (ehloCapabilities st ++ [c])%list
    (currentTimeout st) (written st) (destroyed st) (settled st).

Definition destroy (st : State) : State :=
  mkState (buffer st) (step st) (rawResponse st) (ehloCapabilities st)
    (currentTimeout st) (written st) true (settled st).

(** [resolve] and [reject] settle a pending promise and do nothing to a
    settled one. *)
Definition settle (s : Settlement) (st : State) : State :=
  match settled st with
  | Pending =>
      mkState (buffer st) (step st) (rawResponse st) (ehloCapabilities st)
        (currentTimeout st) (written st) (destroyed st) s
  | _ => st
  end.

Definition resolve (r : SmtpValidationResult) : State -> State := settle (Resolved r).
Definition reject (e : JsError) : State -> State := settle (Rejected e).

Definition quit : string := "QUIT" ++ CRLF.

Definition tls_required (raw : string) : SmtpValidationResult :=
  mkResult unknown [smtp_tls_required] (Some raw).

(** A continuation line of a multi-line reply: [line[3] === '-']. *)
Definition is_continuation (line : string) : bool :=
  match Js.char_at 3 line with
  | Some c => Ascii.eqb c "-"
  | None => false
  end.

Definition capability_of (line : string) : string :=
  Js.toUpperCase (Js.trim (Js.substring_from 4 line)).

(** The capability bookkeeping done on the last line of a reply. *)
Definition note_final_capability (code : Z) (line : string) (st : State) : State :=
  if (step st =? 1) && (code =? 250) && (4 <? Z.of_nat (String.length line)) then
    let finalCapability := capability_of line in
    if negb (String.eqb finalCapability "") &&
       negb (string_in finalCapability (ehloCapabilities st))
    then push_capability finalCapability st
    else st
  else st.

(** The dispatch on [step] for the last line of a reply, after the phase
    timer was cleared. *)
Definition on_reply (cfg : SmtpValidationConfig) (email : string)
    (code : Z) (line : string) (st : State) : State :=
  if step st =? 0 then
    if negb (code =? 220) then
      reject (new_Error ("Unexpected greeting: " ++ line)) st
    else
      let st := setPhaseTimeout "ehlo" (ehloTimeoutMs cfg) st in
      let st := write ("EHLO " ++ heloDomain cfg ++ CRLF) st in
      set_step 1 st
  else if step st =? 1 then
    if code =? 530 then
      let st := write quit st in
      resolve (tls_required ("530 Must issue STARTTLS first: " ++ line)) st
    else if negb (code =? 250) then
      reject (new_Error ("EHLO rejected: " ++ line)) st
    else
      let hasStartTls := string_in "STARTTLS" (ehloCapabilities st) in
      if requireTls cfg && negb hasStartTls then
        let st := write quit st in
        resolve (tls_required
                   ("TLS required but server lacks STARTTLS capability. Capabilities: "
                    ++ join ", " (ehloCapabilities st))) st
      else if hasStartTls && requireTls cfg then
        let st := write quit st in
        resolve (tls_required "TLS required but STARTTLS upgrade not yet implemented") st
      else
        let st := setPhaseTimeout "mail" (mailTimeoutMs cfg) st in
        let st := write ("MAIL FROM:<" ++ mailFrom cfg ++ ">" ++ CRLF) st in
        set_step 3 st
  else if step st =? 3 then
    if code =? 530 then
      let st := write quit st in
      resolve (tls_required line) st
    else if negb (code =? 250) then
      reject (new_Error ("MAIL FROM rejected: " ++ line)) st
    else
      let st := setPhaseTimeout "rcpt" (rcptTimeoutMs cfg) st in
      let st := write ("RCPT TO:<" ++ email ++ ">" ++ CRLF) st in
      set_step 4 st
  else if step st =? 4 then
    let st := write quit st in
    resolve (interpretSmtpCode code line (rawResponse st)) st
  else st.

(** One turn of [for (const line of lines)]. *)
Definition on_line (cfg : SmtpValidationConfig) (email : string)
    (line : string) (st : State) : State :=
  if String.eqb line "" then st
  else
    let st := append_raw line st in
    let code := extractSmtpCode line in
    if is_continuation line then
      if step st =? 1 then
        let capability := capability_of line in
        if negb (String.eqb capability "") then push_capability capability st else st
      else st
    else
      let st := note_final_capability code line st in
      let st := clearTimeout st in
      on_reply cfg email code line st.

(** The loop over the complete lines; a [return resolve(...)] or
    [return reject(...)] inside it leaves the handler, so the lines after
    the one that settled the promise are not looked at. *)
Fixpoint on_lines (cfg : SmtpValidationConfig) (email : string)
    (lines : list string) (st : State) : State :=
  match lines with
  | [] => st
  | line :: lines' =>
      let st' := on_line cfg email line st in
      match settled st' with
      | Pending => on_lines cfg email lines' st'
      | _ => st'
      end
  end.

(** [socket.on('data', ...)]. *)
Definition on_data (cfg : SmtpValidationConfig) (email : string)
    (data : string) (st : State) : State :=
  let st := set_buffer (buffer st ++ data) st in
  if negb (Js.includes (buffer st) CRLF) then st
  else
    let lines := Js.split_crlf (buffer st) in
    let st := set_buffer (Js.or_else (List.last lines "") "") st in
    on_lines cfg email (removelast lines) st.

(** One socket or timer event, up to the settlement of the promise:
    [validateSmtpSingle] awaits the promise and destroys the socket once
    it has settled, and the engine is followed that far. The handlers
    themselves do not test whether the promise has settled: what they do
    with an event delivered after that is [deliver], below. *)
Definition handle (cfg : SmtpValidationConfig) (email : string)
    (ev : SocketEvent) (st : State) : State :=
  match settled st with
  | Pending =>
      match ev with
      | OnData data => on_data cfg email data st
      | OnError err => reject err (clearTimeout st)
      | OnTimeout => reject (new_Error "Socket timeout") (clearTimeout st)
      | OnEnd =>
          let st := clearTimeout st in
          if step st <? 4 then reject (new_Error "Connection closed prematurely") st
          else st
      | OnPhaseTimer =>
          match currentTimeout st with
          | Some (phase, _) => reject (new_Error (phase ++ "_timeout")) (destroy st)
          | None => st
          end
      end
  | _ => st
  end.

(** The state in which [performSmtpHandshake] leaves its executor: the
    banner timer armed, the connection requested. *)
Definition initial (cfg : SmtpValidationConfig) : State :=
  mkState "" 0 "" [] (Some ("banner", bannerTimeoutMs cfg)) [] false Pending.

Definition performSmtpHandshake (cfg : SmtpValidationConfig) (email : string)
    (events : list SocketEvent) : State :=
  fold_left (fun st ev => handle cfg email ev st) events (initial cfg).

Definition decimal (n : Z) : string :=
  DecimalString.NilZero.string_of_int (Z.to_int n).

(** [Promise.race([performSmtpHandshake(...), timeoutPromise(ms)])], given
    the socket events that arrive before the overall timer fires: a
    handshake still pending by then loses the race. *)
Definition race (cfg : SmtpValidationConfig) (st : State)
    : SmtpValidationResult + JsError :=
  match settled st with
  | Resolved r => inl r
  | Rejected e => inr e
  | Pending =>
      inr (new_Error ("SMTP operation timeout after "
                      ++ decimal (overallTimeoutMs cfg) ++ "ms"))
  end.

(** A write that carries the MAIL FROM command. *)
Definition is_mail_from (data : string) : bool := Js.startsWith data "MAIL FROM:".

(** *** The handlers without their caller

    [handle] above follows the engine up to the settlement of its
    promise. The handlers themselves test nowhere whether the promise
    has settled, and the socket is destroyed by the caller only, in the
    [finally] that follows its [await]. [deliver] is one event handed to
    the handlers in any state: [resolve] and [reject] do nothing to a
    settled promise, the other statements act as before. *)

(** Whether the dispatch on [step] leaves the [data] handler: the
    branches that end in [return resolve(...)] or [return reject(...)]. *)
Definition reply_returns (cfg : SmtpValidationConfig) (code : Z) (st : State) : bool :=
  if step st =? 0 then negb (code =? 220)
  else if step st =? 1 then
    if code =? 530 then true
    else if negb (code =? 250) then true
    else
      let hasStartTls := string_in "STARTTLS" (ehloCapabilities st) in
      if requireTls cfg && negb hasStartTls then true
      else if hasStartTls && requireTls cfg then true
      else false
  else if step st =? 3 then
    if code =? 530 then true
    else if negb (code =? 250) then true
    else false
  else if step st =? 4 then true
  else false.

(** Whether the turn of the loop for [line], taken in state [st], leaves
    the handler; an empty line and a continuation line [continue]. *)
Definition line_returns (cfg : SmtpValidationConfig) (line : string) (st : State) : bool :=
  if String.eqb line "" then false
  else
    let st := append_raw line st in
    let code := extractSmtpCode line in
    if is_continuation line then false
    else
      let st := note_final_capability code line st in
      let st := clearTimeout st in
      reply_returns cfg code st.

(** [for (const line of lines)]: the lines after a [return] are not
    looked at, those after a line that settled nothing are. *)
Fixpoint deliver_lines (cfg : SmtpValidationConfig) (email : string)
    (lines : list string) (st : State) : State :=
  match lines with
  | [] => st
  | line :: lines' =>
      let st' := on_line cfg email line st in
      if line_returns cfg line st then st'
      else deliver_lines cfg email lines' st'
  end.

Definition deliver_data (cfg : SmtpValidationConfig) (email : string)
    (data : string) (st : State) : State :=
  let st := set_buffer (buffer st ++ data) st in
  if negb (Js.includes (buffer st) CRLF) then st
  else
    let lines := Js.split_crlf (buffer st) in
    let st := set_buffer (Js.or_else (List.last lines "") "") st in
    deliver_lines cfg email (removelast lines) st.

(** One event handed to its handler. A phase timer that has fired stays
    recorded in [currentTimeout]: its callback run again would change
    nothing. *)
Definition deliver (cfg : SmtpValidationConfig) (email : string)
    (ev : SocketEvent) (st : State) : State :=
  match ev with
  | OnData data => deliver_data cfg email data st
  | OnError err => reject err (clearTimeout st)
  | OnTimeout => reject (new_Error "Socket timeout") (clearTimeout st)
  | OnEnd =>
      let st := clearTimeout st in
      if step st <? 4 then reject (new_Error "Connection closed prematurely") st
      else st
  | OnPhaseTimer =>
      match currentTimeout st with
      | Some (phase, _) => reject (new_Error (phase ++ "_timeout")) (destroy st)
      | None => st
      end
  end.

(** The closure variables after the events, all handed to the
    handlers. *)
Definition deliver_all (cfg : SmtpValidationConfig) (email : string)
    (events : list SocketEvent) : State :=
  fold_left (fun st ev => deliver cfg email ev st) events (initial cfg).

End Handshake.

(** ** The MX probing orchestrator (validateSmtp and its helpers) *)

Module Orchestrator.

(** What one call of [validateSmtpSingle] meets: whether the throttle
    raises instead of granting a slot, and the socket events delivered to
    the handshake before the overall timer fires. *)
Record Attempt := mkAttempt {
  slot_error : option JsError;
  socket_events : list Handshake.SocketEvent
}.

Record MxValidationResult := mkMxResult {
  domainHasMx : bool;
  mxRecords : option (list MxRecord)
}.

(** The world outside the orchestrator: the settlement of [validateMx],
    the fate of the n-th connection attempt, the local part drawn for a
    probe started when n attempts have been made, and the n-th value of
    [Math.random()] drawn by the shuffle. *)
Record Env := mkEnv {
  mx_lookup : MxValidationResult + JsError;
  attempt : nat -> Attempt;
  randomLocal : nat -> string;
  random : nat -> Q
}.

(** Calls the orchestrator makes on its collaborators, in order. *)
Inductive Event :=
| AcquireSlot (mxHost : string) (config : Throttle.ThrottleConfig)
| Connect (mxHost email : string)
| RecordSuccess (mxHost : string)
| RecordFailure (mxHost : string) (shouldPenalize : bool)
| ReleaseSlot (mxHost : string)
| SleepFor (ms : Q).

Record World := mkWorld {
  calls : nat;
  trace : list Event
}.

(** Asynchronous code that may throw: a reader of the environment and a
    state transformer of the world, returning a value or a thrown error. *)
Definition M (A : Type) : Type := Env -> World -> (A + JsError) * World.

Definition ret {A} (a : A) : M A := fun _ w => (inl a, w).

Definition bind {A B} (m : M A) (f : A -> M B) : M B :=
  fun env w =>
    match m env w with
    | (inl a, w') => f a env w'
    | (inr e, w') => (inr e, w')
    end.

Definition throw {A} (e : JsError) : M A := fun _ w => (inr e, w).

Definition try_catch {A} (m : M A) (handler : JsError -> M A) : M A :=
  fun env w =>
    match m env w with
    | (inl a, w') => (inl a, w')
    | (inr e, w') => handler e env w'
    end.

Definition emit (ev : Event) : M unit :=
  fun _ w => (inl tt, mkWorld (calls w) (trace w ++ [ev])).

Definition next_attempt : M Attempt :=
  fun env w => (inl (attempt env (calls w)), mkWorld (S (calls w)) (trace w)).

Definition draw_random_local : M string :=
  fun env w => (inl (randomLocal env (calls w)), w).

Definition validateMx : M MxValidationResult :=
  fun env w => (mx_lookup env, w).

Definition run {A} (m : M A) (env : Env) : (A + JsError) * World :=
  m env (mkWorld O []).

Declare Scope orch_scope.
Delimit Scope orch_scope with orch.
Notation "'let*' x ':=' m 'in' k" := (bind m (fun x => k))
  (at level 10, x name, m at level 100, k at level 200) : orch_scope.
Local Open Scope orch_scope.

Definition sleep (ms : Q) : M unit := emit (SleepFor ms).

Definition throttle_config (cfg : SmtpValidationConfig) : Throttle.ThrottleConfig :=
  Throttle.mkThrottleConfig (maxGlobalConcurrency cfg) (maxMxConcurrency cfg)
    (perDomainMinIntervalMs cfg).

(** [validateSmtpSingle]. [acquireSlot] is awaited before the [try], so
    its error leaves the function; the [finally] releases the slot after
    the outcome was recorded. *)
Definition validateSmtpSingle (email mxHost : string) (cfg : SmtpValidationConfig)
    : M SmtpValidationResult :=
  let* a := next_attempt in
  let* _ := emit (AcquireSlot mxHost (throttle_config cfg)) in
  match slot_error a with
  | Some e => throw e
  | None =>
      let* _ := emit (Connect mxHost email) in
      match Handshake.race cfg
              (Handshake.performSmtpHandshake cfg email (socket_events a)) with
      | inl result =>
          let* _ := emit (RecordSuccess mxHost) in
          let* _ := emit (ReleaseSlot mxHost) in
          ret result
      | inr error =>
          let isHardBlock := isHardBlockError error in
          let* _ := emit (RecordFailure mxHost isHardBlock) in
          let* _ := emit (ReleaseSlot mxHost) in
          ret (mapErrorToResult error)
      end
  end.

Inductive CatchAll := yes | no | inconclusive.

Definition detectCatchAll (mxHost domain : string) (cfg : SmtpValidationConfig)
    : M CatchAll :=
  try_catch
    (let* randomLocal := draw_random_local in
     let randomEmail := (randomLocal ++ "@" ++ domain)%string in
     let* result := validateSmtpSingle randomEmail mxHost cfg in
     match smtpStatus result with
     | valid => ret yes
     | invalid => ret no
     | temporarily_unavailable | unknown => ret inconclusive
     | _ => ret inconclusive
     end)
    (fun _ => ret inconclusive).

Definition is_definitive (s : SmtpStatus) : bool :=
  match s with
  | valid | invalid | catch_all => true
  | _ => false
  end.

Definition retry_delay (cfg : SmtpValidationConfig) (attempt : Z) : Q :=
  (inject_Z (initialRetryDelayMs cfg) * retryBackoffFactor cfg ^ attempt)%Q.

Definition push_reason (r : SmtpValidationResult) (c : ValidationReasonCode)
    : SmtpValidationResult :=
  mkResult (smtpStatus r) (reasonCodes r ++ [c]) (rawSmtpResponse r).

(** The code after the [while] loop of [validateSmtpWithRetry]. *)
Definition after_retries (lastResult : option SmtpValidationResult)
    : M SmtpValidationResult :=
  match lastResult with
  | Some lastResult => ret (push_reason lastResult smtp_soft_fails_exceeded)
  | None => ret (mkResult unknown [smtp_connection_failed] None)
  end.

(** How one turn of the [while] loop of [validateSmtpWithRetry] ends:
    by [return], by [continue] (with the value [lastResult] then has), or
    by [break]. *)
Inductive Control :=
| Return (result : SmtpValidationResult)
| Continue (lastResult : option SmtpValidationResult)
| Break (lastResult : option SmtpValidationResult).

(** The [try { ... } catch { ... }] inside the loop. *)
Definition retry_turn (email : string) (mx : MxRecord) (cfg : SmtpValidationConfig)
    (attempt : Z) (lastResult : option SmtpValidationResult) : M Control :=
  try_catch
    (let* result := validateSmtpSingle email (exchange mx) cfg in
     if is_definitive (smtpStatus result) then ret (Return result)
     else
       let lastResult := Some result in
       if bool_decide (smtpStatus result = temporarily_unavailable)
          && (attempt <? softRetryLimit cfg)
       then
         let* _ := sleep (retry_delay cfg attempt) in
         ret (Continue lastResult)
       else ret (Break lastResult))
    (fun error =>
       if attempt <? softRetryLimit cfg then
         let* _ := sleep (retry_delay cfg attempt) in
         ret (Continue lastResult)
       else
         ret (Return (mkResult unknown [smtp_connection_failed; smtp_timeout]
                        (Some (message error))))).

(** The [while (attempt <= cfg.softRetryLimit)] loop. [turns] counts the
    turns the condition still allows, [softRetryLimit + 1 - attempt], so
    it reaches zero exactly when the condition fails. *)
Fixpoint retry_loop (turns : nat) (email : string) (mx : MxRecord)
    (cfg : SmtpValidationConfig) (attempt : Z)
    (lastResult : option SmtpValidationResult) : M SmtpValidationResult :=
  match turns with
  | O => after_retries lastResult
  | S turns' =>
      if attempt <=? softRetryLimit cfg then
        let* control := retry_turn email mx cfg attempt lastResult in
        match control with
        | Return result => ret result
        | Continue lastResult =>
            retry_loop turns' email mx cfg (attempt + 1) lastResult
        | Break lastResult => after_retries lastResult
        end
      else after_retries lastResult
  end.

Definition validateSmtpWithRetry (email : string) (mx : MxRecord)
    (cfg : SmtpValidationConfig) : M SmtpValidationResult :=
  retry_loop (Z.to_nat (softRetryLimit cfg + 1)) email mx cfg 0 None.

(** [Array.prototype.sort((a, b) => a.priority - b.priority)]: a stable
    sort by ascending priority. *)
Fixpoint insert_by_priority (x : MxRecord) (l : list MxRecord) : list MxRecord :=
  match l with
  | [] => [x]
  | y :: l' =>
      if priority x <=? priority y then x :: y :: l'
      else y :: insert_by_priority x l'
  end.

Fixpoint sort_by_priority (l : list MxRecord) : list MxRecord :=
  match l with
  | [] => []
  | x :: l' => insert_by_priority x (sort_by_priority l')
  end.

(** [[a[k], a[rand]] = [a[rand], a[k]]] for indices inside the array,
    the only ones the shuffle produces from draws in [0, 1). *)
Definition swap_at (a : list MxRecord) (k rand : nat) : list MxRecord :=
  match a !! k, a !! rand with
  | Some ak, Some arand => <[rand := ak]> (<[k := arand]> a)
  | _, _ => a
  end.

Fixpoint same_priority_run (p : Z) (l : list MxRecord) : nat :=
  match l with
  | r :: l' => if priority r =? p then S (same_priority_run p l') else O
  | [] => O
  end.

(** The index reached by
    [while (j < sortedMx.length && sortedMx[j].priority === currentPriority) j++]
    started at [i]. *)
Definition group_end (a : list MxRecord) (currentPriority : Z) (i : nat) : nat :=
  i + same_priority_run currentPriority (drop i a).

(** [Math.floor(Math.random() * n)] for the draw [u]. *)
Definition random_below (u : Q) (n : nat) : nat :=
  Z.to_nat (Qfloor (u * inject_Z (Z.of_nat n))).

(** [for (let k = j - 1; k > i; k--)], with [n = k - i] turns left; [d]
    counts the draws made so far. *)
Fixpoint shuffle_group (rnd : nat -> Q) (a : list MxRecord) (i n d : nat)
    : list MxRecord * nat :=
  match n with
  | O => (a, d)
  | S n' =>
      let k := (i + n)%nat in
      let rand := (i + random_below (rnd d) (k - i + 1))%nat in
      shuffle_group rnd (swap_at a k rand) i n' (S d)
  end.

(** [while (i < sortedMx.length)]; every turn moves [i] forward, so
    [fuel = length a] turns are enough. *)
Fixpoint shuffle_groups (fuel : nat) (rnd : nat -> Q) (a : list MxRecord) (i d : nat)
    : list MxRecord :=
  match fuel with
  | O => a
  | S fuel' =>
      match a !! i with
      | None => a
      | Some r =>
          let currentPriority := priority r in
          let j := group_end a currentPriority i in
          let '(a', d') := shuffle_group rnd a i (j - 1 - i) d in
          shuffle_groups fuel' rnd a' j d'
      end
  end.

Definition randomize_same_priority (rnd : nat -> Q) (a : list MxRecord)
    : list MxRecord :=
  shuffle_groups (length a) rnd a O O.

(** [array.slice(0, end)]: a negative [end] counts from the end. *)
Definition slice0 {A} (end_ : Z) (l : list A) : list A :=
  if end_ <? 0 then take (Z.to_nat (Z.of_nat (length l) + end_)) l
  else take (Z.to_nat end_) l.

Definition mx_to_try (cfg : SmtpValidationConfig) (rnd : nat -> Q)
    (records : list MxRecord) : list MxRecord :=
  let sortedMx := sort_by_priority records in
  let sortedMx :=
    if randomizeSamePriority cfg then randomize_same_priority rnd sortedMx
    else sortedMx in
  slice0 (maxMxAttempts cfg) sortedMx.

Definition catch_all_verdict : SmtpValidationResult :=
  mkResult catch_all [smtp_catch_all]
    (Some "Domain accepts all email addresses (catch-all)").

(** Step 3 of [validateSmtp]: the loop either returns from the function
    (left) or ends with a value of [catchAllResult] (right). *)
Fixpoint catch_all_loop (domain : string) (cfg : SmtpValidationConfig)
    (mxToTry : list MxRecord) (catchAllResult : CatchAll)
    : M (SmtpValidationResult + CatchAll) :=
  match mxToTry with
  | [] => ret (inr catchAllResult)
  | mx :: rest =>
      if String.eqb (exchange mx) "" then catch_all_loop domain cfg rest catchAllResult
      else
        let* catchAllResult := detectCatchAll (exchange mx) domain cfg in
        match catchAllResult with
        | yes => ret (inl catch_all_verdict)
        | no => ret (inr no)
        | inconclusive => catch_all_loop domain cfg rest catchAllResult
        end
  end.

Definition reason_name (c : ValidationReasonCode) : string :=
  match c with
  | no_mx_records => "no_mx_records"
  | smtp_valid => "smtp_valid"
  | smtp_invalid => "smtp_invalid"
  | smtp_catch_all => "smtp_catch_all"
  | smtp_temporarily_unavailable => "smtp_temporarily_unavailable"
  | smtp_connection_failed => "smtp_connection_failed"
  | smtp_timeout => "smtp_timeout"
  | smtp_greylisted => "smtp_greylisted"
  | smtp_rate_limited => "smtp_rate_limited"
  | smtp_soft_fails_exceeded => "smtp_soft_fails_exceeded"
  | smtp_hard_block => "smtp_hard_block"
  | smtp_tls_required => "smtp_tls_required"
  | smtp_banner_timeout => "smtp_banner_timeout"
  | smtp_ehlo_timeout => "smtp_ehlo_timeout"
  | smtp_mail_timeout => "smtp_mail_timeout"
  | smtp_rcpt_timeout => "smtp_rcpt_timeout"
  | smtp_conn_refused => "smtp_conn_refused"
  | smtp_network_unreachable => "smtp_network_unreachable"
  | smtp_conn_reset => "smtp_conn_reset"
  | smtp_mx_all_failed => "smtp_mx_all_failed"
  end.

(** [failureReasons[key] = value] on an object used as a map: a key
    already present keeps its place. *)
Fixpoint set_reason (key value : string) (o : list (string * string))
    : list (string * string) :=
  match o with
  | [] => [(key, value)]
  | (k, v) :: o' =>
      if String.eqb k key then (k, value) :: o'
      else (k, v) :: set_reason key value o'
  end.

(** Step 4 of [validateSmtp]: the loop returns a definitive result (left)
    or ends with the failure reasons gathered (right). *)
Fixpoint address_loop (email : string) (cfg : SmtpValidationConfig)
    (mxToTry : list MxRecord) (failureReasons : list (string * string))
    : M (SmtpValidationResult + list (string * string)) :=
  match mxToTry with
  | [] => ret (inr failureReasons)
  | mx :: rest =>
      if String.eqb (exchange mx) "" then address_loop email cfg rest failureReasons
      else
        let* outcome :=
          try_catch
            (let* result := validateSmtpWithRetry email mx cfg in
             if is_definitive (smtpStatus result) then ret (inl result)
             else ret (inr (set_reason (exchange mx)
                              (Handshake.join ", " (map reason_name (reasonCodes result)))
                              failureReasons)))
            (fun error =>
               ret (inr (set_reason (exchange mx) (message error) failureReasons))) in
        match outcome with
        | inl result => ret (inl result)
        | inr failureReasons => address_loop email cfg rest failureReasons
        end
  end.

Definition all_failed (mxToTry : list MxRecord) (failureReasons : list (string * string))
    : SmtpValidationResult :=
  mkResult unknown [smtp_mx_all_failed; smtp_connection_failed]
    (Some ("All " ++ Handshake.decimal (Z.of_nat (length mxToTry)) ++ " MX hosts failed: "
           ++ Handshake.join "; "
                (map (fun '(mx, reason) => mx ++ "=" ++ reason) failureReasons))%string).

Definition validateSmtp (email domain : string) (cfg : SmtpValidationConfig)
    : M SmtpValidationResult :=
  try_catch
    (let* mxResult := validateMx in
     match mxRecords mxResult with
     | Some records =>
         if negb (domainHasMx mxResult) || (length records =? 0)%nat then
           ret (mkResult invalid [no_mx_records; smtp_invalid] None)
         else
           fun env =>
             (let mxToTry := mx_to_try cfg (random env) records in
              let* probed := catch_all_loop domain cfg mxToTry inconclusive in
              match probed with
              | inl verdict => ret verdict
              | inr _ =>
                  let* swept := address_loop email cfg mxToTry [] in
                  match swept with
                  | inl result => ret result
                  | inr failureReasons => ret (all_failed mxToTry failureReasons)
                  end
              end) env
     | None => ret (mkResult invalid [no_mx_records; smtp_invalid] None)
     end)
    (fun error =>
       ret (mkResult unknown [smtp_connection_failed] (Some (message error)))).

End Orchestrator.

(** ** Adaptive throttle, distributed backend (acquireThrottleSlot,
    RedisThrottleStore) *)

Module Redis.

(** A key of the store: the number it holds and the time to live set on
    it, if any. The throttle keys hold numbers only. The operations below
    are those of the server between two ticks of its clock: they record
    the time to live they are given and drop no key; [Expiry], further
    down, runs them against the clock. *)
Record Entry := mkEntry {
  value : Z;
  ttl : option Z
}.

Abbreviation Db := (gmap string Entry).

(** [tonumber(redis.call('GET', key)) or 0]. *)
Definition get_number (db : Db) (key : string) : Z :=
  match db !! key with
  | Some e => value e
  | None => 0
  end.

(** [redis.call('INCR', key)]: a missing key counts from 0; the time to
    live of the key is kept. *)
Definition incr (key : string) (db : Db) : Z * Db :=
  let v := get_number db key + 1 in
  (v, <[key := mkEntry v (db !! key ≫= ttl)]> db).

(** [redis.call('DECR', key)]. *)
Definition decr (key : string) (db : Db) : Z * Db :=
  let v := get_number db key - 1 in
  (v, <[key := mkEntry v (db !! key ≫= ttl)]> db).

(** [redis.call('SET', key, v, 'EX', seconds)]. *)
Definition set_ex (key : string) (v seconds : Z) (db : Db) : Db :=
  <[key := mkEntry v (Some seconds)]> db.

(** [redis.call('EXPIRE', key, seconds)]. *)
Definition expire (key : string) (seconds : Z) (db : Db) : Db :=
  match db !! key with
  | Some e => <[key := mkEntry (value e) (Some seconds)]> db
  | None => db
  end.

(** The array the script returns:
    [{acquired, reason_code, globalCount, mxCount, waitMs}]. *)
Record Reply := mkReply {
  acquired : Z;
  reason_code : Z;
  global_count : Z;
  mx_count : Z;
  wait_ms : Z
}.

(** The Lua script of [acquireThrottleSlot], which the server runs as one
    indivisible operation on the store. *)
Definition acquire_script (globalKey mxKey penaltyKey lastAttemptKey : string)
    (maxGlobal maxMx ttl now minInterval : Z) (db : Db) : Reply * Db :=
  let penaltyUntil := get_number db penaltyKey in
  if now <? penaltyUntil then
    let waitMs := penaltyUntil - now in
    (mkReply 0 1 0 0 waitMs, db)
  else
    let lastAttempt := get_number db lastAttemptKey in
    if (0 <? lastAttempt) && (now - lastAttempt <? minInterval) then
      let waitMs := minInterval - (now - lastAttempt) in
      (mkReply 0 2 0 0 waitMs, db)
    else
      let globalCount := get_number db globalKey in
      let mxCount := get_number db mxKey in
      if maxGlobal <=? globalCount then
        (mkReply 0 3 globalCount mxCount 500, db)
      else if maxMx <=? mxCount then
        (mkReply 0 4 globalCount mxCount 500, db)
      else
        let '(globalCount, db) := incr globalKey db in
        let '(mxCount, db) := incr mxKey db in
        let db := set_ex lastAttemptKey now ttl db in
        let db := if globalCount =? 1 then expire globalKey ttl db else db in
        let db := if mxCount =? 1 then expire mxKey ttl db else db in
        (mkReply 1 0 globalCount mxCount 0, db).

Definition globalKey : string := "throttle:global:concurrency".
Definition mxKey (mxHost : string) : string := "throttle:" ++ mxHost ++ ":concurrency".
Definition penaltyKey (mxHost : string) : string := "throttle:" ++ mxHost ++ ":penalty".
Definition lastAttemptKey (mxHost : string) : string :=
  "throttle:" ++ mxHost ++ ":lastAttempt".

Definition stateKey (mxHost : string) : string := "throttle:" ++ mxHost ++ ":state".

(** The server: the number keys above, and the JSON documents kept under
    the [...:state] keys, which no number key can equal. *)
Record Server := mkServer {
  numbers : Db;
  documents : gmap string (Throttle.MxState * option Z)
}.

(** A request sent to the server, answered in one round trip. *)
Inductive Request :=
| Eval (globalKey mxKey penaltyKey lastAttemptKey : string)
       (maxGlobal maxMx ttl now minInterval : Z)
| GetState (key : string)
| SetState (key : string) (state : Throttle.MxState) (ttlSeconds : Z).

Inductive Answer :=
| Replied (reply : Reply)
| Document (state : option Throttle.MxState)
| Stored
| Failed.

(** A client-side computation: it ends, or sends one request and goes on
    with the answer. Other clients' requests may be served between two
    requests of one computation, never inside one. *)
Inductive Program (A : Type) :=
| Done (a : A)
| Send (req : Request) (k : Answer -> Program A).
Arguments Done {A} a.
Arguments Send {A} req k.

Fixpoint and_then {A B} (p : Program A) (f : A -> Program B) : Program B :=
  match p with
  | Done a => f a
  | Send req k => Send req (fun answer => and_then (k answer) f)
  end.

Definition serve (req : Request) (srv : Server) : Answer * Server :=
  match req with
  | Eval g m p l maxGlobal maxMx ttl now minInterval =>
      let '(reply, db) :=
        acquire_script g m p l maxGlobal maxMx ttl now minInterval (numbers srv) in
      (Replied reply, mkServer db (documents srv))
  | GetState key => (Document (fst <$> documents srv !! key), srv)
  | SetState key state ttlSeconds =>
      (Stored, mkServer (numbers srv) (<[key := (state, Some ttlSeconds)]> (documents srv)))
  end.

(** Running a computation alone against the server; the list is that of
    the requests it sent, one round trip each. *)
Fixpoint run_alone {A} (p : Program A) (srv : Server) : A * Server * list Request :=
  match p with
  | Done a => (a, srv, [])
  | Send req k =>
      let '(answer, srv') := serve req srv in
      let '(a, srv'', reqs) := run_alone (k answer) srv' in
      (a, srv'', req :: reqs)
  end.

(** The value [acquireThrottleSlot] resolves to. *)
Record SlotResult := mkSlotResult {
  slot_acquired : bool;
  reason : string;
  globalConcurrency : Z;
  mxConcurrency : Z;
  waitMs : option Z
}.

Definition reasonMap (reasonCode : Z) : string :=
  if reasonCode =? 0 then "success"
  else if reasonCode =? 1 then "penalty_active"
  else if reasonCode =? 2 then "interval_not_met"
  else if reasonCode =? 3 then "global_limit_reached"
  else if reasonCode =? 4 then "mx_limit_reached"
  else "unknown".

Definition decode (r : Reply) : SlotResult :=
  mkSlotResult (acquired r =? 1) (reasonMap (reason_code r))
    (global_count r) (mx_count r)
    (if 0 <? wait_ms r then Some (wait_ms r) else None).

(** [acquireThrottleSlot]; [client] tells whether [getClient()] returned
    a client. *)
Definition acquireThrottleSlot (client : bool) (mxHost : string)
    (maxGlobalConcurrency maxMxConcurrency ttlSeconds currentTime minIntervalMs : Z)
    : Program SlotResult :=
  if negb client then
    Done (mkSlotResult false "redis_unavailable" 0 0 None)
  else
    Send (Eval globalKey (mxKey mxHost) (penaltyKey mxHost) (lastAttemptKey mxHost)
            maxGlobalConcurrency maxMxConcurrency ttlSeconds currentTime minIntervalMs)
         (fun answer =>
            match answer with
            | Replied reply => Done (decode reply)
            | _ => Done (mkSlotResult false "script_error" 0 0 None)
            end).

(** How one turn of the loop of [RedisThrottleStore.acquireSlot] ends. *)
Inductive Turn :=
| SlotTaken
| Backoff (ms : Z).

(** [a || b] on numbers: 0 is falsy. *)
Definition num_or (a : option Z) (b : Z) : Z :=
  match a with
  | Some v => if v =? 0 then b else v
  | None => b
  end.

(** One turn of that loop, with a client at hand, at clock reading [now];
    [ttl] is the configured [throttleTtlSeconds]. *)
Definition acquireSlot_turn (mxHost : string) (config : Throttle.ThrottleConfig)
    (ttl now : Z) : Program Turn :=
  let normalizedHost := Js.toLowerCase mxHost in
  Send (GetState (stateKey normalizedHost))
    (fun answer =>
       let state := match answer with Document s => s | _ => None end in
       let maxMxConcurrency :=
         num_or (Throttle.maxConcurrency <$> state)
                (Z.min (Throttle.maxMxConcurrency config) 2) in
       and_then
         (acquireThrottleSlot true normalizedHost
            (Throttle.maxGlobalConcurrency config) maxMxConcurrency ttl now
            (Throttle.perDomainMinIntervalMs config))
         (fun result =>
            if negb (slot_acquired result) then
              let waitTime := num_or (waitMs result) 500 in
              Done (Backoff (Z.min waitTime 1000))
            else
              let newState :=
                {| Throttle.host := normalizedHost;
                   Throttle.concurrency := mxConcurrency result;
                   Throttle.maxConcurrency := maxMxConcurrency;
                   Throttle.failures := num_or (Throttle.failures <$> state) 0;
                   Throttle.successCount := num_or (Throttle.successCount <$> state) 0;
                   Throttle.penaltyUntil := None;
                   Throttle.lastAttemptAt := Some now;
                   Throttle.totalAttempts :=
                     num_or (Throttle.totalAttempts <$> state) 0 + 1;
                   Throttle.totalSuccesses :=
                     num_or (Throttle.totalSuccesses <$> state) 0 |} in
              Send (SetState (stateKey normalizedHost) newState ttl)
                (fun _ => Done SlotTaken))).

(** What the clients of one host do to its four keys, one server-side
    operation at a time: run the acquisition script, decrement a counter
    ([releaseSlot]), or set the penalty ([recordFailure]). *)
Inductive Operation :=
| Acquire (maxGlobal maxMx ttl now minInterval : Z)
| DecrGlobal
| DecrMx
| SetPenalty (penaltyUntil seconds : Z).

Section OneHost.
Variables g m p l : string.

Definition apply_op (op : Operation) (db : Db) : option Reply * Db :=
  match op with
  | Acquire maxGlobal maxMx ttl now minInterval =>
      let '(r, db') := acquire_script g m p l maxGlobal maxMx ttl now minInterval db in
      (Some r, db')
  | DecrGlobal => (None, snd (decr g db))
  | DecrMx => (None, snd (decr m db))
  | SetPenalty penaltyUntil seconds => (None, set_ex p penaltyUntil seconds db)
  end.

(** The operations served in order; the replies of the script runs. *)
Fixpoint serve_all (ops : list Operation) (db : Db) : list (option Reply) * Db :=
  match ops with
  | [] => ([], db)
  | op :: ops' =>
      let '(r, db') := apply_op op db in
      let '(rs, db'') := serve_all ops' db' in
      (r :: rs, db'')
  end.
End OneHost.

End Redis.

(** ** Adaptive throttle, distributed backend: bookkeeping
    (RedisThrottleStore.releaseSlot, recordSuccess, recordFailure) *)

Module RedisThrottleStore.
Import Redis.

(** [setInRedis(key, value, ttlSeconds)] for a number: [SET key value EX
    ttlSeconds], or a plain [SET] when [ttlSeconds] is falsy. *)
Definition setInRedis_number (key : string) (v ttlSeconds : Z) (db : Db) : Db :=
  <[key := mkEntry v (if ttlSeconds =? 0 then None else Some ttlSeconds)]> db.

(** [setInRedis(key, state, ttlSeconds)] for a state document. *)
Definition setInRedis_state (key : string) (state : Throttle.MxState) (ttlSeconds : Z)
    (docs : gmap string (Throttle.MxState * option Z))
    : gmap string (Throttle.MxState * option Z) :=
  <[key := (state, if ttlSeconds =? 0 then None else Some ttlSeconds)]> docs.

(** [getFromRedis<MxState>(key)]. *)
Definition getFromRedis_state (key : string)
    (docs : gmap string (Throttle.MxState * option Z)) : option Throttle.MxState :=
  fst <$> docs !! key.

(** The record the bookkeeping starts from when the host has no
    document. *)
Definition defaultState (normalizedHost : string) : Throttle.MxState :=
  {| Throttle.host := normalizedHost;
     Throttle.concurrency := 0;
     Throttle.maxConcurrency := 2;
     Throttle.failures := 0;
     Throttle.successCount := 0;
     Throttle.penaltyUntil := None;
     Throttle.lastAttemptAt := None;
     Throttle.totalAttempts := 0;
     Throttle.totalSuccesses := 0 |}.

(** [Math.ceil(ms / 1000)]. *)
Definition ceil_seconds (ms : Z) : Z := - ((- ms) / 1000).

(** The three functions below are the bodies of the fire-and-forget
    tasks the methods start when a client is at hand, run to their end
    with every command answered; [ttl] is the configured
    [throttleTtlSeconds], [now] the reading of [Date.now()]. *)

Definition releaseSlot (mxHost : string) (ttl : Z) (srv : Server) : Server :=
  let normalizedHost := Js.toLowerCase mxHost in
  let db := snd (decr ("throttle:" ++ normalizedHost ++ ":concurrency") (numbers srv)) in
  let db := snd (decr "throttle:global:concurrency" db) in
  let stateKey := "throttle:" ++ normalizedHost ++ ":state" in
  match getFromRedis_state stateKey (documents srv) with
  | Some state =>
      let state' :=
        {| Throttle.host := Throttle.host state;
           Throttle.concurrency := Z.max 0 (Throttle.concurrency state - 1);
           Throttle.maxConcurrency := Throttle.maxConcurrency state;
           Throttle.failures := Throttle.failures state;
           Throttle.successCount := Throttle.successCount state;
           Throttle.penaltyUntil := Throttle.penaltyUntil state;
           Throttle.lastAttemptAt := Throttle.lastAttemptAt state;
           Throttle.totalAttempts := Throttle.totalAttempts state;
           Throttle.totalSuccesses := Throttle.totalSuccesses state |} in
      mkServer db (setInRedis_state stateKey state' ttl (documents srv))
  | None => mkServer db (documents srv)
  end.

Definition recordSuccess (mxHost : string) (ttl : Z) (srv : Server) : Server :=
  let normalizedHost := Js.toLowerCase mxHost in
  let stateKey := "throttle:" ++ normalizedHost ++ ":state" in
  let state :=
    default (defaultState normalizedHost) (getFromRedis_state stateKey (documents srv)) in
  let successCount := Throttle.successCount state + 1 in
  let totalSuccesses := Throttle.totalSuccesses state + 1 in
  let failures := Z.max 0 (Throttle.failures state - 1) in
  let maxConcurrency :=
    if (10 <? successCount) && (Throttle.maxConcurrency state <? 5)
    then Z.min (Throttle.maxConcurrency state + 1) 5
    else Throttle.maxConcurrency state in
  let state' :=
    {| Throttle.host := Throttle.host state;
       Throttle.concurrency := Throttle.concurrency state;
       Throttle.maxConcurrency := maxConcurrency;
       Throttle.failures := failures;
       Throttle.successCount := successCount;
       Throttle.penaltyUntil := Throttle.penaltyUntil state;
       Throttle.lastAttemptAt := Throttle.lastAttemptAt state;
       Throttle.totalAttempts := Throttle.totalAttempts state;
       Throttle.totalSuccesses := totalSuccesses |} in
  mkServer (numbers srv) (setInRedis_state stateKey state' ttl (documents srv)).

Definition recordFailure (mxHost : string) (shouldPenalize : bool) (now ttl : Z)
    (srv : Server) : Server :=
  let normalizedHost := Js.toLowerCase mxHost in
  let stateKey := "throttle:" ++ normalizedHost ++ ":state" in
  let state :=
    default (defaultState normalizedHost) (getFromRedis_state stateKey (documents srv)) in
  let failures := Throttle.failures state + 1 in
  let penaltyMs := Z.min 300000 (5000 * 2 ^ failures) in
  let penaltyUntil := now + penaltyMs in
  let db :=
    if shouldPenalize
    then setInRedis_number ("throttle:" ++ normalizedHost ++ ":penalty") penaltyUntil
           (ceil_seconds penaltyMs) (numbers srv)
    else numbers srv in
  let maxConcurrency :=
    if (3 <? failures) && (1 <? Throttle.maxConcurrency state)
    then Z.max 1 (Throttle.maxConcurrency state - 1)
    else Throttle.maxConcurrency state in
  let state' :=
    {| Throttle.host := Throttle.host state;
       Throttle.concurrency := Throttle.concurrency state;
       Throttle.maxConcurrency := maxConcurrency;
       Throttle.failures := failures;
       Throttle.successCount := 0;
       Throttle.penaltyUntil :=
         if shouldPenalize then Some penaltyUntil else Throttle.penaltyUntil state;
       Throttle.lastAttemptAt := Throttle.lastAttemptAt state;
       Throttle.totalAttempts := Throttle.totalAttempts state;
       Throttle.totalSuccesses := Throttle.totalSuccesses state |} in
  mkServer db (setInRedis_state stateKey state' ttl (documents srv)).

End RedisThrottleStore.

(** ** The server's clock: keys that lapse

    Redis drops a key once the time to live set on it has elapsed. The
    server below runs each operation of [Redis] at an instant [t] of its
    clock, in ms. A time to live of [seconds] set at [t] is kept, in the
    [ttl] field of the entry, as the instant [t + 1000 * seconds] after
    which the key is gone; the keys gone by [t] are dropped before the
    operation reads the store. The script hands its [ttl] to [SET ... EX]
    and [EXPIRE] only, so it is given that instant for it. The times to
    live are positive wherever the throttle sets one: the configured
    [throttleTtlSeconds] is 10 to 3600, a penalty lasts 10 seconds or
    more. *)

Module Expiry.
Import Redis.

Definition deadline (t seconds : Z) : Z := t + 1000 * seconds.

(** Redis holds a key expired once its clock is past the deadline. *)
Definition lapsed (t : Z) (e : Entry) : Prop :=
  match ttl e with
  | Some d => d < t
  | None => False
  end.

#[global] Instance lapsed_dec t e : Decision (lapsed t e).
Proof. unfold lapsed. destruct (ttl e); apply _. Defined.

Definition live_at (t : Z) (db : Db) : Db :=
  filter (fun kv : string * Entry => ~ lapsed t (snd kv)) db.

Section OneHost.
Variables g m p l : string.

(** An operation of a client of the host, served at [t]. *)
Definition apply_op_at (t : Z) (op : Operation) (db : Db) : option Reply * Db :=
  let db := live_at t db in
  match op with
  | Acquire maxGlobal maxMx ttl now minInterval =>
      apply_op g m p l (Acquire maxGlobal maxMx (deadline t ttl) now minInterval) db
  | SetPenalty penaltyUntil seconds =>
      apply_op g m p l (SetPenalty penaltyUntil (deadline t seconds)) db
  | DecrGlobal => apply_op g m p l DecrGlobal db
  | DecrMx => apply_op g m p l DecrMx db
  end.

End OneHost.

End Expiry.

(** ** Process-local backend: inspection (InMemoryThrottleStore.getState) *)

Module InMemoryThrottle.
Import Throttle.

Definition getState (mxHost : string) (st : InMemoryThrottleStore)
    : MxState * InMemoryThrottleStore :=
  getOrCreateState mxHost 2 st.

End InMemoryThrottle.

(** ** The in-memory cache (src/utils/cache.ts) *)

Module Cache.

Record CacheEntry (T : Type) := mkCacheEntry {
  data : T;
  expiresAt : Z
}.
Arguments mkCacheEntry {T} data expiresAt.
Arguments data {T} c.
Arguments expiresAt {T} c.

(** [InMemoryCache]: its [Map]. [now] is the reading of [Date.now()] the
    operation takes; [None] stands for [null]. *)
Abbreviation InMemoryCache T := (gmap string (CacheEntry T)).

Definition get {T} (key : string) (now : Z) (cache : InMemoryCache T)
    : option T * InMemoryCache T :=
  match cache !! key with
  | None => (None, cache)
  | Some entry =>
      if expiresAt entry <? now then (None, delete key cache)
      else (Some (data entry), cache)
  end.

Definition set {T} (key : string) (value : T) (ttlMs now : Z) (cache : InMemoryCache T)
    : InMemoryCache T :=
  <[key := mkCacheEntry value (now + ttlMs)]> cache.

Definition delete_key {T} (key : string) (cache : InMemoryCache T) : InMemoryCache T :=
  delete key cache.

Definition clear {T} (cache : InMemoryCache T) : InMemoryCache T := ∅.

Definition cleanupExpired {T} (now : Z) (cache : InMemoryCache T) : InMemoryCache T :=
  filter (fun kv : string * CacheEntry T => ~ (expiresAt (snd kv) < now)) cache.

(** [DomainCache] over an [InMemoryCache]. *)
Definition DEFAULT_MX_TTL_MS : Z := 10 * 60 * 1000.
Definition DEFAULT_VALIDATION_TTL_MS : Z := 30 * 60 * 1000.

(** [ttlMs || dflt]: a missing TTL, and 0, give the default. *)
Definition ttl_or (ttlMs : option Z) (dflt : Z) : Z :=
  match ttlMs with
  | Some t => if t =? 0 then dflt else t
  | None => dflt
  end.

Definition getMxFromCache {T} (domain : string) (now : Z) (cache : InMemoryCache T)
    : option T * InMemoryCache T :=
  get ("mx:" ++ Js.toLowerCase domain) now cache.

Definition setMxInCache {T} (domain : string) (mxRecords : T) (ttlMs : option Z)
    (now : Z) (cache : InMemoryCache T) : InMemoryCache T :=
  set ("mx:" ++ Js.toLowerCase domain) mxRecords (ttl_or ttlMs DEFAULT_MX_TTL_MS) now cache.

Definition getValidationFromCache {T} (email : string) (now : Z)
    (cache : InMemoryCache T) : option T * InMemoryCache T :=
  get ("validation:" ++ Js.toLowerCase email) now cache.

Definition setValidationInCache {T} (email : string) (result : T) (ttlMs : option Z)
    (now : Z) (cache : InMemoryCache T) : InMemoryCache T :=
  set ("validation:" ++ Js.toLowerCase email) result
    (ttl_or ttlMs DEFAULT_VALIDATION_TTL_MS) now cache.

Definition getStats {T} (cache : InMemoryCache T) : nat := size cache.

End Cache.

(** ** The MX lookup (validateMx of the DNS validator) *)

Module Dns.

Inductive ReasonCode :=
| cache_hit
| cache_miss
| mx_records_found
| domain_valid
| no_mx_records
| domain_invalid
| dns_timeout
| dns_lookup_failed.

Record MxValidationResult := mkMxValidationResult {
  domainHasMx : bool;
  mxRecords : option (list MxRecord);
  reasonCodes : list ReasonCode
}.

(** [records.map(r => ({exchange: r.exchange.toLowerCase(), priority:
    r.priority})).sort((a, b) => a.priority - b.priority)]. *)
Definition normalize (records : list MxRecord) : list MxRecord :=
  Orchestrator.sort_by_priority
    (map (fun record => mkMx (Js.toLowerCase (exchange record)) (priority record))
       records).

Definition error_code_is (error : JsError) (c : string) : bool :=
  match code error with
  | Some c' => String.eqb c' c
  | None => false
  end.

(** [validateMx(domain, ttlMs)] over the in-memory cache. [resolveMx] is
    the settlement of [dns.resolveMx], asked only on a cache miss;
    [now] is the clock reading when the cache is read, [later] the one
    when the answer of the DNS is stored. *)
Definition validateMx (domain : string) (ttlMs : option Z) (now later : Z)
    (resolveMx : list MxRecord + JsError)
    (cache : Cache.InMemoryCache (list MxRecord))
    : MxValidationResult * Cache.InMemoryCache (list MxRecord) :=
  let normalizedDomain := Js.toLowerCase domain in
  match Cache.getMxFromCache normalizedDomain now cache with
  | (Some cachedMx, cache) =>
      if (0 <? length cachedMx)%nat
      then (mkMxValidationResult true (Some cachedMx)
              [cache_hit; mx_records_found; domain_valid], cache)
      else (mkMxValidationResult false (Some [])
              [cache_hit; no_mx_records; domain_invalid], cache)
  | (None, cache) =>
      match resolveMx with
      | inl mxRecords =>
          let sortedRecords := normalize mxRecords in
          let cache := Cache.setMxInCache normalizedDomain sortedRecords ttlMs later cache in
          if (length sortedRecords =? 0)%nat
          then (mkMxValidationResult false (Some [])
                  [cache_miss; no_mx_records; domain_invalid], cache)
          else (mkMxValidationResult true (Some sortedRecords)
                  [cache_miss; mx_records_found; domain_valid], cache)
      | inr error =>
          if error_code_is error "ENOTFOUND" || error_code_is error "ENODATA" then
            let cache := Cache.setMxInCache normalizedDomain [] ttlMs later cache in
            (mkMxValidationResult false (Some [])
               [cache_miss; no_mx_records; domain_invalid], cache)
          else if error_code_is error "ETIMEOUT" || error_code_is error "ETIMEDOUT" then
            (mkMxValidationResult false None
               [cache_miss; dns_timeout; domain_invalid], cache)
          else
            (mkMxValidationResult false None
               [cache_miss; dns_lookup_failed; domain_invalid], cache)
      end
  end.

(** What [validateSmtp] reads of the result. *)
Definition to_lookup (r : MxValidationResult) : Orchestrator.MxValidationResult :=
  Orchestrator.mkMxResult (domainHasMx r) (mxRecords r).

End Dns.

(** ** The arrays behind the MX lookup

    [validateMx] hands out the very array it has put in the cache, and
    [validateSmtp] sorts and shuffles in place the array it is handed.
    Here the arrays live in a heap; the cache and the results hold
    references to them. *)

Module SharedMx.

(** The arrays of MX records allocated so far; a reference is the index
    of its array. *)
Abbreviation Heap := (list (list MxRecord)).

Definition alloc (a : list MxRecord) (h : Heap) : nat * Heap :=
  (length h, (h ++ [a])%list).

Definition contents (h : Heap) (ref : nat) : list MxRecord :=
  default [] (h !! ref).

Record MxValidationResult := mkMxValidationResult {
  domainHasMx : bool;
  mxRecords : option nat;
  reasonCodes : list Dns.ReasonCode
}.

(** [validateMx(domain, ttlMs)] over the in-memory cache, as [Dns.validateMx]
    but with the arrays told apart: on a hit with records the result
    carries the cached array itself; the array [map] builds and [sort]
    sorts is the one stored and, if not empty, the one returned; every
    [[]] is an array of its own. *)
Definition validateMx (domain : string) (ttlMs : option Z) (now later : Z)
    (resolveMx : list MxRecord + JsError) (h : Heap) (cache : Cache.InMemoryCache nat)
    : MxValidationResult * Heap * Cache.InMemoryCache nat :=
  let normalizedDomain := Js.toLowerCase domain in
  match Cache.getMxFromCache normalizedDomain now cache with
  | (Some cachedMx, cache) =>
      if (0 <? length (contents h cachedMx))%nat
      then (mkMxValidationResult true (Some cachedMx)
              [Dns.cache_hit; Dns.mx_records_found; Dns.domain_valid], h, cache)
      else
        let '(empty, h) := alloc [] h in
        (mkMxValidationResult false (Some empty)
           [Dns.cache_hit; Dns.no_mx_records; Dns.domain_invalid], h, cache)
  | (None, cache) =>
      match resolveMx with
      | inl mxRecords =>
          let '(sortedRecords, h) := alloc (Dns.normalize mxRecords) h in
          let cache := Cache.setMxInCache normalizedDomain sortedRecords ttlMs later cache in
          if (length (contents h sortedRecords) =? 0)%nat
          then
            let '(empty, h) := alloc [] h in
            (mkMxValidationResult false (Some empty)
               [Dns.cache_miss; Dns.no_mx_records; Dns.domain_invalid], h, cache)
          else (mkMxValidationResult true (Some sortedRecords)
                  [Dns.cache_miss; Dns.mx_records_found; Dns.domain_valid], h, cache)
      | inr error =>
          if Dns.error_code_is error "ENOTFOUND" || Dns.error_code_is error "ENODATA" then
            let '(stored, h) := alloc [] h in
            let cache := Cache.setMxInCache normalizedDomain stored ttlMs later cache in
            let '(empty, h) := alloc [] h in
            (mkMxValidationResult false (Some empty)
               [Dns.cache_miss; Dns.no_mx_records; Dns.domain_invalid], h, cache)
          else if Dns.error_code_is error "ETIMEOUT" || Dns.error_code_is error "ETIMEDOUT" then
            (mkMxValidationResult false None
               [Dns.cache_miss; Dns.dns_timeout; Dns.domain_invalid], h, cache)
          else
            (mkMxValidationResult false None
               [Dns.cache_miss; Dns.dns_lookup_failed; Dns.domain_invalid], h, cache)
      end
  end.

(** Step 2 of [validateSmtp] on the records of its lookup result:
    [mxResult.mxRecords.sort(...)] and the swaps of the shuffle. *)
Definition mx_order (cfg : SmtpValidationConfig) (rnd : nat -> Q)
    (records : list MxRecord) : list MxRecord :=
  let sortedMx := Orchestrator.sort_by_priority records in
  if randomizeSamePriority cfg then Orchestrator.randomize_same_priority rnd sortedMx
  else sortedMx.


End SharedMx.

(* ===== Properties ===== *)

(** ** Verdict derivation *)

Section VerdictDerivation.

Example interpret_250 :
  smtpStatus (interpretSmtpCode 250 "250 2.1.5 OK" "raw") = valid.
Proof. reflexivity. Qed.

Example interpret_550 :
  interpretSmtpCode (extractSmtpCode "550 5.1.1 No such user")
    "550 5.1.1 No such user" "raw"
  = mkResult invalid [smtp_invalid] (Some "raw").
Proof. reflexivity. Qed.

Example interpret_450 :
  interpretSmtpCode 450 "450 4.2.1 try later" "raw"
  = mkResult temporarily_unavailable
      [smtp_temporarily_unavailable; smtp_greylisted] (Some "raw").
Proof. reflexivity. Qed.

Example interpret_250_accept_all :
  smtpStatus (interpretSmtpCode 250 "250 OK, this server Accepts All mail" "raw")
  = catch_all.
Proof. reflexivity. Qed.

Example mapError_refused :
  mapErrorToResult (mkError "connect ECONNREFUSED 192.0.2.1:25" (Some "ECONNREFUSED"))
  = mkResult unknown [smtp_conn_refused; smtp_connection_failed]
      (Some "Connection refused (port 25 closed/filtered)").
Proof. reflexivity. Qed.

(** The reason codes that name a particular connection fault. *)
Definition fault_tags : list ValidationReasonCode :=
  [smtp_banner_timeout; smtp_ehlo_timeout; smtp_mail_timeout; smtp_rcpt_timeout;
   smtp_conn_refused; smtp_network_unreachable; smtp_conn_reset; smtp_timeout].

Definition specific_fault_reason (r : SmtpValidationResult) : Prop :=
  exists tag, In tag fault_tags /\ In tag (reasonCodes r).

(** The fault patterns [mapErrorToResult] looks for, in the order it
    looks for them. *)
Definition phase_timeout_pattern (error : JsError) : bool :=
  let m := message error in
  Js.includes m "banner_timeout" || Js.includes m "ehlo_timeout" ||
  Js.includes m "mail_timeout" || Js.includes m "rcpt_timeout".

Definition refused_pattern (error : JsError) : bool :=
  Js.includes (message error) "ECONNREFUSED" || code_is error "ECONNREFUSED".

Definition unreachable_pattern (error : JsError) : bool :=
  Js.includes (message error) "ENETUNREACH" || code_is error "ENETUNREACH" ||
  Js.includes (message error) "EHOSTUNREACH" || code_is error "EHOSTUNREACH".

Definition reset_pattern (error : JsError) : bool :=
  Js.includes (message error) "ECONNRESET" || code_is error "ECONNRESET".

Definition timeout_pattern (error : JsError) : bool :=
  Js.includes (message error) "timeout" || Js.includes (message error) "ETIMEDOUT" ||
  code_is error "ETIMEDOUT".

Definition fault_pattern (error : JsError) : bool :=
  phase_timeout_pattern error || refused_pattern error || unreachable_pattern error ||
  reset_pattern error || timeout_pattern error.

Lemma extractSmtpCode_nonneg response : 0 <= extractSmtpCode response.
Proof.
  unfold extractSmtpCode.
  destruct response as [|a [|b [|c r]]]; try lia.
  destruct (Js.is_digit a) eqn:Ea; simpl; [|lia].
  destruct (Js.is_digit b) eqn:Eb; simpl; [|lia].
  destruct (Js.is_digit c) eqn:Ec; simpl; [|lia].
  unfold Js.is_digit, Js.digit_val in *.
  apply andb_prop in Ea as [Ea _]. apply andb_prop in Eb as [Eb _].
  apply andb_prop in Ec as [Ec _].
  apply Nat.leb_le in Ea, Eb, Ec. lia.
Qed.

Lemma in_range (lo hi code : Z) :
  lo <= code < hi -> (lo <=? code) && (code <? hi) = true.
Proof.
  intros H. apply andb_true_intro. split; [apply Z.leb_le|apply Z.ltb_lt]; lia.
Qed.

Lemma out_of_range (lo hi code : Z) :
  ~ lo <= code < hi -> (lo <=? code) && (code <? hi) = false.
Proof.
  intros H. apply andb_false_iff.
  destruct (Z.leb_spec lo code); [right; apply Z.ltb_ge; lia|left; reflexivity].
Qed.

(** The closing of the connection by the server before RCPT, raised by the
    handshake as [Error('Connection closed prematurely')], is a connection
    fault that gets no fault-specific reason. *)
Lemma mapErrorToResult_closed_connection_is_untagged :
  let r := mapErrorToResult (new_Error "Connection closed prematurely") in
  ~ (smtpStatus r = unknown /\ specific_fault_reason r).
Proof.
  intros r [_ (tag & Htag & Hin)]. vm_compute in Hin, Htag.
  destruct Hin as [<-|[]].
  repeat (destruct Htag as [Htag|Htag]; [discriminate|]). exact Htag.
Qed.

Ltac no_reply_code Hz :=
  unfold mapErrorToResult;
  replace (0 <? extractSmtpCode (message _)) with false
    by (symmetry; apply Z.ltb_ge; exact Hz).

(** C1 (amended). [interpretSmtpCode] maps a 2xx code to [valid], or to
    [catch_all] when the lower-cased text has catch-all or accept-all
    language; a 4xx code to [temporarily_unavailable], tagged with
    greylisting and/or rate limiting from the code or keywords; a 5xx code
    to [invalid]; every other code to [unknown]. [mapErrorToResult] maps
    every error whose message carries no leading reply code to [unknown]:
    with the reason of the phase whose timeout the message names, else with
    that of a refused connection, an unreachable network or host, a reset
    connection or a generic timeout, in this order of precedence, and with
    the bare [smtp_connection_failed] when none of these patterns occurs.
    An error whose message starts with a reply code is interpreted as that
    reply. *)
Theorem smtp_verdict_derivation (code : Z) (line rawResponse : string)
    (error : JsError) :
  let r := interpretSmtpCode code line rawResponse in
  let lowerMessage := Js.toLowerCase line in
  let e := mapErrorToResult error in
  let m := message error in
  (200 <= code < 300 ->
     smtpStatus r = (if catch_all_language lowerMessage then catch_all else valid)) /\
  (400 <= code < 500 ->
     smtpStatus r = temporarily_unavailable /\
     reasonCodes r =
       (smtp_temporarily_unavailable ::
         (if greylisting_indicator code lowerMessage then [smtp_greylisted] else []) ++
         (if rate_limit_indicator code lowerMessage then [smtp_rate_limited] else []))%list) /\
  (500 <= code < 600 -> smtpStatus r = invalid) /\
  (~ 200 <= code < 300 -> ~ 400 <= code < 500 -> ~ 500 <= code < 600 ->
     smtpStatus r = unknown) /\
  (extractSmtpCode m <= 0 ->
     smtpStatus e = unknown /\
     (fault_pattern error = true -> specific_fault_reason e) /\
     (fault_pattern error = false -> reasonCodes e = [smtp_connection_failed]) /\
     (Js.includes m "banner_timeout" = true ->
        reasonCodes e = [smtp_banner_timeout; smtp_timeout]) /\
     (Js.includes m "banner_timeout" = false -> Js.includes m "ehlo_timeout" = true ->
        reasonCodes e = [smtp_ehlo_timeout; smtp_timeout]) /\
     (Js.includes m "banner_timeout" = false -> Js.includes m "ehlo_timeout" = false ->
      Js.includes m "mail_timeout" = true ->
        reasonCodes e = [smtp_mail_timeout; smtp_timeout]) /\
     (Js.includes m "banner_timeout" = false -> Js.includes m "ehlo_timeout" = false ->
      Js.includes m "mail_timeout" = false -> Js.includes m "rcpt_timeout" = true ->
        reasonCodes e = [smtp_rcpt_timeout; smtp_timeout]) /\
     (phase_timeout_pattern error = false ->
        (refused_pattern error = true ->
           reasonCodes e = [smtp_conn_refused; smtp_connection_failed]) /\
        (refused_pattern error = false -> unreachable_pattern error = true ->
           reasonCodes e = [smtp_network_unreachable; smtp_connection_failed]) /\
        (refused_pattern error = false -> unreachable_pattern error = false ->
         reset_pattern error = true ->
           reasonCodes e = [smtp_conn_reset; smtp_connection_failed]) /\
        (refused_pattern error = false -> unreachable_pattern error = false ->
         reset_pattern error = false -> timeout_pattern error = true ->
           reasonCodes e = [smtp_timeout]))) /\
  (0 < extractSmtpCode m ->
     e = interpretSmtpCode (extractSmtpCode m) m m).
Proof.
  intros r lowerMessage e m. subst r e m. unfold interpretSmtpCode. fold lowerMessage.
  split; [|split; [|split; [|split; [|split]]]].
  - intros H. rewrite (in_range 200 300 code) by lia.
    destruct (catch_all_language lowerMessage); reflexivity.
  - intros H. rewrite (out_of_range 200 300 code), (in_range 400 500 code) by lia.
    split; [reflexivity|]. simpl.
    destruct (greylisting_indicator code lowerMessage),
             (rate_limit_indicator code lowerMessage); reflexivity.
  - intros H. rewrite (out_of_range 200 300 code), (out_of_range 400 500 code),
      (in_range 500 600 code) by lia.
    reflexivity.
  - intros H2 H4 H5.
    rewrite (out_of_range 200 300 code), (out_of_range 400 500 code),
      (out_of_range 500 600 code) by lia.
    reflexivity.
  - intros Hz.
    split; [|split; [|split; [|split; [|split; [|split; [|split]]]]]].
    + no_reply_code Hz.
      repeat match goal with
             | |- context [if ?c then _ else _] => destruct c
             end; reflexivity.
    + no_reply_code Hz.
      unfold fault_pattern, phase_timeout_pattern, refused_pattern, unreachable_pattern,
        reset_pattern, timeout_pattern, specific_fault_reason, fault_tags.
      destruct (Js.includes (message error) "banner_timeout");
        [intros _; exists smtp_banner_timeout; simpl; tauto|].
      destruct (Js.includes (message error) "ehlo_timeout");
        [intros _; exists smtp_ehlo_timeout; simpl; tauto|].
      destruct (Js.includes (message error) "mail_timeout");
        [intros _; exists smtp_mail_timeout; simpl; tauto|].
      destruct (Js.includes (message error) "rcpt_timeout");
        [intros _; exists smtp_rcpt_timeout; simpl; tauto|].
      destruct (Js.includes (message error) "ECONNREFUSED" || code_is error "ECONNREFUSED");
        [intros _; exists smtp_conn_refused; simpl; tauto|].
      destruct (Js.includes (message error) "ENETUNREACH" || code_is error "ENETUNREACH" ||
                Js.includes (message error) "EHOSTUNREACH" || code_is error "EHOSTUNREACH");
        [intros _; exists smtp_network_unreachable; simpl; tauto|].
      destruct (Js.includes (message error) "ECONNRESET" || code_is error "ECONNRESET");
        [intros _; exists smtp_conn_reset; simpl; tauto|].
      destruct (Js.includes (message error) "timeout" ||
                Js.includes (message error) "ETIMEDOUT" || code_is error "ETIMEDOUT");
        [intros _; exists smtp_timeout; simpl; tauto|].
      simpl. discriminate.
    + no_reply_code Hz.
      unfold fault_pattern, phase_timeout_pattern, refused_pattern, unreachable_pattern,
        reset_pattern, timeout_pattern.
      intros Hp.
      repeat (apply orb_false_elim in Hp as [Hp ?]).
      repeat match goal with
             | H : ?b = false |- _ => rewrite H; clear H
             end.
      reflexivity.
    + no_reply_code Hz. intros ->. reflexivity.
    + no_reply_code Hz. intros -> ->. reflexivity.
    + no_reply_code Hz. intros -> -> ->. reflexivity.
    + no_reply_code Hz. intros -> -> -> ->. reflexivity.
    + no_reply_code Hz. unfold phase_timeout_pattern. intros Hp.
      repeat (apply orb_false_elim in Hp as [Hp ?]).
      repeat match goal with
             | H : Js.includes _ _ = false |- _ => rewrite H; clear H
             end.
      fold (refused_pattern error) (unreachable_pattern error) (reset_pattern error)
        (timeout_pattern error).
      split; [|split; [|split]].
      * intros ->. reflexivity.
      * intros -> ->. reflexivity.
      * intros -> -> ->. reflexivity.
      * intros -> -> -> ->. reflexivity.
  - intros H. unfold mapErrorToResult.
    replace (0 <? extractSmtpCode (message error)) with true
      by (symmetry; apply Z.ltb_lt; assumption).
    reflexivity.
Qed.

Lemma smtp_verdict_derivation_witness :
  (400 <= 450 < 500 /\
   extractSmtpCode (message (new_Error "rcpt_timeout")) <= 0) /\
  interpretSmtpCode 450 "450 4.2.1 try later" "raw"
    = mkResult temporarily_unavailable
        [smtp_temporarily_unavailable; smtp_greylisted] (Some "raw") /\
  smtpStatus (mapErrorToResult (new_Error "rcpt_timeout")) = unknown.
Proof.
  pose proof (smtp_verdict_derivation 450 "450 4.2.1 try later" "raw"
                (new_Error "rcpt_timeout")) as (_ & H4 & _ & _ & He & _).
  assert (Hc : 400 <= 450 < 500) by lia.
  assert (Hz : extractSmtpCode (message (new_Error "rcpt_timeout")) <= 0)
    by (vm_compute; discriminate).
  split; [split; assumption|].
  split; [reflexivity|]. exact (proj1 (He Hz)).
Defined.

End VerdictDerivation.

(** ** The process-local throttle: invariants and adaptation *)

Section ThrottleFacts.
Import Throttle.

Definition state_ok (s : MxState) : Prop :=
  0 <= concurrency s /\ 1 <= maxConcurrency s <= hardCeiling /\ 0 <= failures s.

Definition store_ok (st : InMemoryThrottleStore) : Prop :=
  0 <= globalConcurrency st /\
  forall h s, mxStates st !! h = Some s -> state_ok s.

Definition op_config_ok (op : Op) : Prop :=
  match op with
  | OpEnter _ config => 1 <= maxMxConcurrency config
  | _ => True
  end.

Lemma store_ok_empty : store_ok empty_store.
Proof.
  split; [simpl; lia|]. intros h s Hl. simpl in Hl.
  rewrite lookup_empty in Hl. discriminate.
Qed.

Lemma store_ok_set mxHost state g st :
  store_ok st -> state_ok state -> 0 <= g ->
  store_ok (set_state mxHost state g st).
Proof.
  intros [_ Hst] Hs Hg. split; [exact Hg|].
  intros h s. unfold set_state; simpl.
  rewrite lookup_insert. case_decide; intros Hl.
  - injection Hl as <-. exact Hs.
  - eapply Hst; eauto.
Qed.

Lemma initial_state_ok h m : 1 <= m -> state_ok (initial_state h m).
Proof. unfold state_ok, initial_state, hardCeiling; simpl. lia. Qed.

Lemma take_slot_ok now s : state_ok s -> state_ok (take_slot now s).
Proof. unfold state_ok; simpl. lia. Qed.

Lemma success_update_ok s : state_ok s -> state_ok (success_update s).
Proof.
  unfold state_ok, hardCeiling; simpl. intros (Hc & Hm & Hf).
  destruct ((10 <? successCount s + 1) && (maxConcurrency s <? 5)) eqn:E; lia.
Qed.

Lemma failure_update_ok severe now s : state_ok s -> state_ok (failure_update severe now s).
Proof.
  unfold state_ok, hardCeiling; simpl. intros (Hc & Hm & Hf).
  destruct ((3 <? failures s + 1) && (1 <? maxConcurrency s)) eqn:E; lia.
Qed.

Lemma acquireSlot_body_acquired mxHost config startTime now state global s' g' :
  acquireSlot_body mxHost config startTime now state global = Acquired s' g' ->
  s' = take_slot now state /\ g' = global + 1 /\
  now - startTime <= maxWaitTime /\
  penalty_active now state = false /\
  interval_pending now config state = false /\
  global < maxGlobalConcurrency config /\
  concurrency state < maxConcurrency state.
Proof.
  unfold acquireSlot_body.
  destruct (maxWaitTime <? now - startTime) eqn:E1; [discriminate|].
  destruct (penalty_active now state) eqn:E2; [discriminate|].
  destruct (interval_pending now config state) eqn:E3; [discriminate|].
  destruct (maxGlobalConcurrency config <=? global) eqn:E4; [discriminate|].
  destruct (maxConcurrency state <=? concurrency state) eqn:E5; [discriminate|].
  intros [= <- <-]. repeat split; lia.
Qed.

Lemma step_ok st op : store_ok st -> op_config_ok op -> store_ok (step st op).
Proof.
  intros Hok Hcfg. destruct op as [h c|h c t0 t|h|h|h sv t]; simpl.
  - unfold getOrCreateState.
    destruct (mxStates st !! Js.toLowerCase h) eqn:E; simpl; [exact Hok|].
    apply (store_ok_set h _ _ st Hok); [now apply initial_state_ok|apply Hok].
  - destruct (mxStates st !! Js.toLowerCase h) as [s|] eqn:E; [|exact Hok].
    destruct (acquireSlot_body h c t0 t s (globalConcurrency st)) as [s' g'| |] eqn:B;
      try exact Hok.
    apply acquireSlot_body_acquired in B as (-> & -> & _).
    destruct Hok as [Hg Hst]. apply store_ok_set; [split; auto| |lia].
    apply take_slot_ok. eapply Hst; eauto.
  - unfold releaseSlot.
    destruct (mxStates st !! Js.toLowerCase h) as [s|] eqn:E; [|exact Hok].
    apply store_ok_set; [exact Hok| |lia].
    destruct Hok as [_ Hst]. specialize (Hst _ _ E).
    unfold state_ok in *; simpl. lia.
  - unfold recordSuccess.
    destruct (mxStates st !! Js.toLowerCase h) as [s|] eqn:E; [|exact Hok].
    apply store_ok_set; [exact Hok| |apply Hok].
    apply success_update_ok. destruct Hok as [_ Hst]; eauto.
  - unfold recordFailure.
    destruct (mxStates st !! Js.toLowerCase h) as [s|] eqn:E; [|exact Hok].
    apply store_ok_set; [exact Hok| |apply Hok].
    apply failure_update_ok. destruct Hok as [_ Hst]; eauto.
Qed.

Lemma run_ok ops : forall st,
  store_ok st -> Forall op_config_ok ops -> store_ok (run ops st).
Proof.
  induction ops as [|op ops IH]; intros st Hok Hall; simpl; [exact Hok|].
  inversion Hall; subst. apply IH; [apply step_ok|]; assumption.
Qed.

(** C5. Starting from the empty store, after any sequence of throttle
    steps whose configured per-host ceiling is at least 1, the global
    counter and every host counter are non-negative and every adaptive
    ceiling lies in [1, hardCeiling]; a further [releaseSlot], whether or
    not a slot is held, keeps the counters non-negative, and on a host the
    store does not know it changes nothing. *)
Theorem throttle_counters_invariant (ops : list Op) (mxHost : string) :
  Forall op_config_ok ops ->
  let st := run ops empty_store in
  let st' := releaseSlot mxHost st in
  (0 <= globalConcurrency st /\
   forall h s, mxStates st !! h = Some s ->
     0 <= concurrency s /\ 1 <= maxConcurrency s <= hardCeiling) /\
  (0 <= globalConcurrency st' /\
   forall h s, mxStates st' !! h = Some s ->
     0 <= concurrency s /\ 1 <= maxConcurrency s <= hardCeiling) /\
  (mxStates st !! Js.toLowerCase mxHost = None -> st' = st).
Proof.
  intros Hall st st'.
  assert (Hok : store_ok st) by (apply run_ok; [apply store_ok_empty|exact Hall]).
  assert (Hok' : store_ok st') by (apply (step_ok st (OpRelease mxHost)); simpl; auto).
  split; [|split].
  - destruct Hok as [Hg Hst]. split; [exact Hg|].
    intros h s Hl. destruct (Hst _ _ Hl) as (? & ? & _). auto.
  - destruct Hok' as [Hg Hst]. split; [exact Hg|].
    intros h s Hl. destruct (Hst _ _ Hl) as (? & ? & _). auto.
  - intros Hnone. subst st'. unfold releaseSlot. now rewrite Hnone.
Qed.

End ThrottleFacts.

Section ThrottleAdaptation.
Import Throttle.

Definition ops_example : list Op :=
  [OpEnter "MX1.example.com" (mkThrottleConfig 10 2 2000);
   OpTurn "mx1.example.com" (mkThrottleConfig 10 2 2000) 1000 1000;
   OpSuccess "mx1.example.com";
   OpRelease "mx1.example.com";
   OpRelease "mx1.example.com";
   OpFailure "mx1.example.com" true 5000].

Lemma throttle_counters_invariant_witness :
  Forall op_config_ok ops_example /\
  let st := run ops_example empty_store in
  let st' := releaseSlot "never-seen.example.com" st in
  (0 <= globalConcurrency st /\
   forall h s, mxStates st !! h = Some s ->
     0 <= concurrency s /\ 1 <= maxConcurrency s <= hardCeiling) /\
  (0 <= globalConcurrency st' /\
   forall h s, mxStates st' !! h = Some s ->
     0 <= concurrency s /\ 1 <= maxConcurrency s <= hardCeiling) /\
  (mxStates st !! Js.toLowerCase "never-seen.example.com" = None -> st' = st).
Proof.
  assert (H : Forall op_config_ok ops_example)
    by (repeat constructor; simpl; lia).
  split; [exact H|].
  exact (throttle_counters_invariant ops_example "never-seen.example.com" H).
Defined.

Lemma recordFailure_lookup mxHost severe now st s :
  mxStates st !! Js.toLowerCase mxHost = Some s ->
  mxStates (recordFailure mxHost severe now st) !! Js.toLowerCase mxHost
    = Some (failure_update severe now s).
Proof.
  intros Hl. unfold recordFailure. rewrite Hl. unfold set_state; simpl.
  apply lookup_insert_eq.
Qed.

Lemma recordFailure_unknown_host mxHost severe now st :
  mxStates st !! Js.toLowerCase mxHost = None ->
  recordFailure mxHost severe now st = st.
Proof. intros Hl. unfold recordFailure. now rewrite Hl. Qed.

Definition four_severe_failures (mxHost : string) (config : ThrottleConfig)
    (t1 t2 t3 t4 : Z) : list Op :=
  [OpEnter mxHost config;
   OpFailure mxHost true t1; OpFailure mxHost true t2;
   OpFailure mxHost true t3; OpFailure mxHost true t4].

(** C9. On a host the store tracks, [recordFailure] adds one to the
    failure counter and zeroes the success streak; once the new count
    exceeds 3 the adaptive ceiling drops by one but not below 1; a severe
    failure sets the penalty to expire min(300000, 5000 * 2^failures) ms
    after the current instant, [failures] being the new count. A host
    created with ceiling 2 that then suffers four severe failures in a row
    ends with ceiling 1 and a penalty expiring 80000 ms after the last
    one, active at every instant before that. *)
Theorem recordFailure_adapts (st : InMemoryThrottleStore) (mxHost : string)
    (severe : bool) (now : Z) (s : MxState)
    (config : ThrottleConfig) (t1 t2 t3 t4 : Z) :
  mxStates st !! Js.toLowerCase mxHost = Some s ->
  0 <= failures s ->
  1 <= maxConcurrency s ->
  2 <= maxMxConcurrency config ->
  0 <= t4 ->
  (exists s',
      mxStates (recordFailure mxHost severe now st) !! Js.toLowerCase mxHost = Some s' /\
      failures s' = failures s + 1 /\
      successCount s' = 0 /\
      maxConcurrency s' =
        (if 3 <? failures s + 1 then Z.max 1 (maxConcurrency s - 1)
         else maxConcurrency s) /\
      penaltyUntil s' =
        (if severe then Some (now + Z.min 300000 (5000 * 2 ^ (failures s + 1)))
         else penaltyUntil s)) /\
  (exists s0 s4,
      mxStates (run [OpEnter mxHost config] empty_store) !! Js.toLowerCase mxHost = Some s0 /\
      maxConcurrency s0 = 2 /\ failures s0 = 0 /\
      mxStates (run (four_severe_failures mxHost config t1 t2 t3 t4) empty_store)
        !! Js.toLowerCase mxHost = Some s4 /\
      maxConcurrency s4 = 1 /\ failures s4 = 4 /\
      penaltyUntil s4 = Some (t4 + 80000) /\ t4 < t4 + 80000 /\
      forall t, t4 <= t < t4 + 80000 -> penalty_active t s4 = true).
Proof.
  intros Hl Hf Hm Hc Ht. split.
  - exists (failure_update severe now s). split; [now apply recordFailure_lookup|].
    simpl. repeat split; trivial.
    destruct (3 <? failures s + 1) eqn:E3; simpl.
    + destruct (1 <? maxConcurrency s) eqn:E1; [reflexivity|].
      apply Z.ltb_ge in E1. lia.
    + reflexivity.
  - unfold four_severe_failures, run; simpl.
    unfold getOrCreateState; simpl. rewrite lookup_empty; simpl.
    set (s0 := initial_state (Js.toLowerCase mxHost) (maxMxConcurrency config)).
    set (st0 := mkStore (<[Js.toLowerCase mxHost := s0]> ∅) 0).
    assert (L0 : mxStates st0 !! Js.toLowerCase mxHost = Some s0)
      by (apply lookup_insert_eq).
    pose proof (recordFailure_lookup mxHost true t1 _ _ L0) as L1.
    pose proof (recordFailure_lookup mxHost true t2 _ _ L1) as L2.
    pose proof (recordFailure_lookup mxHost true t3 _ _ L2) as L3.
    pose proof (recordFailure_lookup mxHost true t4 _ _ L3) as L4.
    exists s0, (failure_update true t4 (failure_update true t3
                 (failure_update true t2 (failure_update true t1 s0)))).
    assert (M0 : maxConcurrency s0 = 2) by (subst s0; simpl; lia).
    split; [exact L0|]. split; [exact M0|]. split; [reflexivity|].
    split; [exact L4|].
    simpl. replace (maxMxConcurrency config `min` 2) with 2 by lia. simpl.
    repeat split; try reflexivity; try lia.
    intros t Hr. unfold penalty_active; simpl.
    change (penaltyMs (0 + 1 + 1 + 1 + 1)) with 80000.
    apply andb_true_intro. split.
    + apply negb_true_iff, Z.eqb_neq. lia.
    + apply Z.ltb_lt. lia.
Qed.

Lemma recordFailure_adapts_witness :
  let st := run [OpEnter "mx.example.org" (mkThrottleConfig 10 2 2000)] empty_store in
  let s := initial_state "mx.example.org" 2 in
  (mxStates st !! Js.toLowerCase "MX.example.org" = Some s /\
   0 <= failures s /\ 1 <= maxConcurrency s /\
   2 <= maxMxConcurrency (mkThrottleConfig 10 2 2000) /\ 0 <= 4000) /\
  exists s',
    mxStates (recordFailure "MX.example.org" true 1000 st) !! "mx.example.org" = Some s' /\
    failures s' = 1 /\ penaltyUntil s' = Some 11000.
Proof.
  assert (H1 : mxStates (run [OpEnter "mx.example.org" (mkThrottleConfig 10 2 2000)] empty_store)
                 !! Js.toLowerCase "MX.example.org"
               = Some (initial_state "mx.example.org" 2)) by reflexivity.
  split; [split; [exact H1|simpl; lia]|].
  destruct (recordFailure_adapts _ "MX.example.org" true 1000 _
              (mkThrottleConfig 10 2 2000) 1000 2000 3000 4000 H1)
    as [(s' & L & F & _ & _ & P) _]; try (simpl; lia).
  exists s'. split; [exact L|]. split; [exact F|exact P].
Defined.

End ThrottleAdaptation.

(** ** The acquisition loop of the process-local backend *)

Section AcquireLoop.
Import Throttle.

Variable mxHost : string.
Variable config : ThrottleConfig.
Variable startTime : Z.

Definition body_at (world : nat -> Observation) (k : nat) : AcquireStep :=
  acquireSlot_body mxHost config startTime
    (obs_now (world k)) (obs_state (world k)) (obs_global (world k)).

(** The four gates, read on one observation. *)
Definition gates_open (o : Observation) : Prop :=
  (forall p, penaltyUntil (obs_state o) = Some p -> p <= obs_now o) /\
  (forall l, lastAttemptAt (obs_state o) = Some l ->
     perDomainMinIntervalMs config <= obs_now o - l) /\
  obs_global o < maxGlobalConcurrency config /\
  concurrency (obs_state o) < maxConcurrency (obs_state o).

(** Recorded instants are clock readings, which lie after the epoch. *)
Definition stamps_positive (o : Observation) : Prop :=
  (forall p, penaltyUntil (obs_state o) = Some p -> 0 < p) /\
  (forall l, lastAttemptAt (obs_state o) = Some l -> 0 < l).

(** [sleep(ms)] returns no earlier than [ms] after it was called, and the
    loop starts no earlier than the reading [startTime]. *)
Definition well_timed (world : nat -> Observation) : Prop :=
  startTime <= obs_now (world O) /\
  (forall k ms, body_at world k = Sleep ms ->
     obs_now (world k) + ms <= obs_now (world (S k))) /\
  (forall k, stamps_positive (world k)).

Definition is_sleep (r : AcquireStep) : Prop :=
  match r with Sleep _ => True | _ => False end.

Lemma penalty_active_spec (o : Observation) :
  stamps_positive o ->
  if penalty_active (obs_now o) (obs_state o)
  then exists p, penaltyUntil (obs_state o) = Some p /\ obs_now o < p
  else forall p, penaltyUntil (obs_state o) = Some p -> p <= obs_now o.
Proof.
  intros [Hp _]. unfold penalty_active.
  destruct (penaltyUntil (obs_state o)) as [p|]; [|intros ? [=]].
  specialize (Hp p eq_refl).
  destruct (p =? 0) eqn:Ez; [apply Z.eqb_eq in Ez; lia|]. simpl.
  destruct (obs_now o <? p) eqn:E.
  - apply Z.ltb_lt in E. eauto.
  - apply Z.ltb_ge in E. intros ? [= <-]. exact E.
Qed.

Lemma interval_pending_spec (o : Observation) :
  stamps_positive o ->
  if interval_pending (obs_now o) config (obs_state o)
  then exists l, lastAttemptAt (obs_state o) = Some l /\
                 obs_now o - l < perDomainMinIntervalMs config
  else forall l, lastAttemptAt (obs_state o) = Some l ->
                 perDomainMinIntervalMs config <= obs_now o - l.
Proof.
  intros [_ Hl]. unfold interval_pending.
  destruct (lastAttemptAt (obs_state o)) as [l|]; [|intros ? [=]].
  specialize (Hl l eq_refl).
  destruct (l =? 0) eqn:Ez; [apply Z.eqb_eq in Ez; lia|]. simpl.
  destruct (obs_now o - l <? perDomainMinIntervalMs config) eqn:E.
  - apply Z.ltb_lt in E. eauto.
  - apply Z.ltb_ge in E. intros ? [= <-]. exact E.
Qed.

Lemma body_cases (o : Observation) :
  stamps_positive o ->
  match acquireSlot_body mxHost config startTime (obs_now o) (obs_state o) (obs_global o) with
  | Acquired s' g' =>
      obs_now o - startTime <= 60000 /\ gates_open o /\
      s' = take_slot (obs_now o) (obs_state o) /\ g' = obs_global o + 1
  | TimedOut _ => 60000 < obs_now o - startTime
  | Sleep ms => 0 < ms /\ obs_now o - startTime <= 60000 /\ ~ gates_open o
  end.
Proof.
  intros Hst. unfold acquireSlot_body, maxWaitTime, gates_open.
  destruct (60000 <? obs_now o - startTime) eqn:E1; [now apply Z.ltb_lt in E1|].
  apply Z.ltb_ge in E1.
  pose proof (penalty_active_spec o Hst) as Hpen.
  destruct (penalty_active (obs_now o) (obs_state o)).
  { destruct Hpen as (p & Ep & Hlt). rewrite Ep. simpl.
    split; [lia|]. split; [exact E1|]. intros (G & _). specialize (G p eq_refl). lia. }
  pose proof (interval_pending_spec o Hst) as Hint.
  destruct (interval_pending (obs_now o) config (obs_state o)).
  { destruct Hint as (l & El & Hlt). rewrite El. simpl.
    split; [lia|]. split; [exact E1|]. intros (_ & G & _). specialize (G l eq_refl). lia. }
  destruct (maxGlobalConcurrency config <=? obs_global o) eqn:E4.
  { apply Z.leb_le in E4. split; [lia|]. split; [exact E1|]. intros (_ & _ & G & _). lia. }
  apply Z.leb_gt in E4.
  destruct (maxConcurrency (obs_state o) <=? concurrency (obs_state o)) eqn:E5.
  { apply Z.leb_le in E5. split; [lia|]. split; [exact E1|]. intros (_ & _ & _ & G). lia. }
  apply Z.leb_gt in E5. repeat split; assumption.
Qed.

Lemma clock_advances (world : nat -> Observation) :
  well_timed world ->
  forall n, (forall j, (j < n)%nat -> is_sleep (body_at world j)) ->
  startTime + Z.of_nat n <= obs_now (world n).
Proof.
  intros (H0 & Hs & Hst) n. induction n as [|n IH]; intros Hall.
  - simpl. lia.
  - assert (Hn : is_sleep (body_at world n)) by (apply Hall; lia).
    destruct (body_at world n) as [| |ms] eqn:B; try contradiction.
    pose proof (body_cases (world n) (Hst n)) as C.
    unfold body_at in B. rewrite B in C. destruct C as (Hpos & _).
    specialize (Hs n ms B).
    assert (startTime + Z.of_nat n <= obs_now (world n))
      by (apply IH; intros j Hj; apply Hall; lia).
    lia.
Qed.

Lemma first_stop (world : nat -> Observation) (n : nat) :
  (forall j, (j < n)%nat -> is_sleep (body_at world j)) \/
  (exists k, (k < n)%nat /\ ~ is_sleep (body_at world k) /\
             forall j, (j < k)%nat -> is_sleep (body_at world j)).
Proof.
  induction n as [|n [IH|(k & Hk & Hstop & Hbefore)]].
  - left. intros j Hj. lia.
  - destruct (body_at world n) as [| |ms] eqn:B.
    + right. exists n. split; [lia|]. rewrite B. split; [tauto|exact IH].
    + right. exists n. split; [lia|]. rewrite B. split; [tauto|exact IH].
    + left. intros j Hj. destruct (decide (j = n)) as [->|Hne].
      * rewrite B. exact I.
      * apply IH. lia.
  - right. exists k. split; [lia|]. split; assumption.
Qed.

Lemma loop_reaches (world : nat -> Observation) (k : nat) (r : AcquireStep) :
  body_at world k = r -> ~ is_sleep r ->
  forall d i fuel, (i + d = k)%nat -> (d < fuel)%nat ->
  (forall j, (i <= j < k)%nat -> is_sleep (body_at world j)) ->
  acquireSlot_loop fuel mxHost config startTime world i = Some (k, r).
Proof.
  intros Hr Hns d. induction d as [|d IH]; intros i fuel Hik Hfuel Hsl.
  - assert (i = k) by lia. subst i.
    destruct fuel as [|fuel]; [lia|]. simpl.
    fold (body_at world k). rewrite Hr.
    destruct r; simpl in Hns; tauto.
  - destruct fuel as [|fuel]; [lia|]. simpl.
    assert (Hi : is_sleep (body_at world i)) by (apply Hsl; lia).
    fold (body_at world i).
    destruct (body_at world i); simpl in Hi; try contradiction.
    apply IH; [lia|lia|]. intros j Hj. apply Hsl. lia.
Qed.

(** C4. In any run where each sleep lasts at least as long as asked,
    [acquireSlot] stops within 60001 turns of its loop. Every earlier turn
    slept for a positive time because the deadline had not passed and some
    gate was closed. It returns normally only on a turn where the deadline
    has not passed and all four gates are open (no penalty running, the
    minimum interval elapsed since the last attempt, global count below the
    global ceiling, host count below the adaptive ceiling), taking the slot
    at that instant; otherwise it raises, on a turn where more than
    60000 ms have passed since it started. *)
Theorem acquireSlot_waits_then_acquires_or_times_out (world : nat -> Observation) :
  well_timed world ->
  exists k r,
    Z.of_nat k <= 60001 /\
    (forall fuel, (k < fuel)%nat ->
       acquireSlot_loop fuel mxHost config startTime world O = Some (k, r)) /\
    (forall j, (j < k)%nat ->
       exists ms, body_at world j = Sleep ms /\ 0 < ms /\
                  obs_now (world j) - startTime <= 60000 /\ ~ gates_open (world j)) /\
    match r with
    | Acquired s' g' =>
        obs_now (world k) - startTime <= 60000 /\ gates_open (world k) /\
        s' = take_slot (obs_now (world k)) (obs_state (world k)) /\
        g' = obs_global (world k) + 1
    | TimedOut e =>
        60000 < obs_now (world k) - startTime /\
        e = new_Error ("Timeout waiting for slot to " ++ mxHost)
    | Sleep _ => False
    end.
Proof.
  intros Hwt.
  assert (Hstop : exists k, (k < Z.to_nat 60002)%nat /\ ~ is_sleep (body_at world k) /\
                   forall j, (j < k)%nat -> is_sleep (body_at world j)).
  { destruct (first_stop world (Z.to_nat 60002)) as [Hall|Hex]; [|exact Hex].
    exfalso.
    assert (Hs : is_sleep (body_at world (Z.to_nat 60001))) by (apply Hall; lia).
    assert (Hc : startTime + Z.of_nat (Z.to_nat 60001) <= obs_now (world (Z.to_nat 60001))).
    { apply clock_advances; [exact Hwt|]. intros j Hj. apply Hall. lia. }
    destruct Hwt as (_ & _ & Hst).
    pose proof (body_cases (world (Z.to_nat 60001)) (Hst _)) as C.
    unfold body_at in Hs.
    destruct (acquireSlot_body mxHost config startTime
                (obs_now (world (Z.to_nat 60001))) (obs_state (world (Z.to_nat 60001)))
                (obs_global (world (Z.to_nat 60001)))); simpl in Hs; try contradiction.
    lia. }
  destruct Hstop as (k & Hk & Hns & Hbefore).
  exists k, (body_at world k). split; [lia|]. split; [|split].
  - intros fuel Hf. apply (loop_reaches world k _ eq_refl Hns k O fuel); try lia.
    intros j Hj. apply Hbefore. lia.
  - intros j Hj. specialize (Hbefore j Hj).
    destruct Hwt as (_ & _ & Hst).
    pose proof (body_cases (world j) (Hst j)) as C. unfold body_at in *.
    destruct (acquireSlot_body mxHost config startTime (obs_now (world j))
                (obs_state (world j)) (obs_global (world j))) as [| |ms];
      simpl in Hbefore; try contradiction.
    exists ms. tauto.
  - destruct Hwt as (_ & _ & Hst).
    pose proof (body_cases (world k) (Hst k)) as C. unfold body_at in *.
    destruct (acquireSlot_body mxHost config startTime (obs_now (world k))
                (obs_state (world k)) (obs_global (world k))) as [s' g'|e|ms] eqn:B.
    + exact C.
    + split; [exact C|].
      unfold acquireSlot_body in B.
      repeat match type of B with
             | (if ?c then _ else _) = _ => destruct c; try discriminate
             end.
      now injection B as <-.
    + simpl in Hns. tauto.
Qed.

End AcquireLoop.

Section AcquireLoopExample.
Import Throttle.

Definition penalised_state : MxState :=
  {| host := "mx.example.org"; concurrency := 0; maxConcurrency := 2;
     failures := 1; successCount := 0; penaltyUntil := Some 1500;
     lastAttemptAt := None; totalAttempts := 0; totalSuccesses := 0 |}.

Definition config_example : ThrottleConfig := mkThrottleConfig 10 2 2000.

(** The loop wakes once per second; the host's penalty ends at 1500. *)
Definition world_example (k : nat) : Observation :=
  mkObs (1000 + 1000 * Z.of_nat k) penalised_state 0.

Lemma world_example_well_timed :
  well_timed "mx.example.org" config_example 1000 world_example.
Proof.
  split; [simpl; lia|]. split.
  - intros k ms. unfold body_at, acquireSlot_body, world_example; simpl.
    destruct (maxWaitTime <? 1000 + 1000 * Z.of_nat k - 1000); [discriminate|].
    unfold penalty_active; simpl.
    destruct (1000 + 1000 * Z.of_nat k <? 1500) eqn:E.
    + intros [= <-]. apply Z.ltb_lt in E. lia.
    + discriminate.
  - intros k. split; simpl; intros ? [=]. lia.
Qed.

Lemma acquireSlot_waits_then_acquires_or_times_out_witness :
  well_timed "mx.example.org" config_example 1000 world_example /\
  exists k r,
    Z.of_nat k <= 60001 /\
    acquireSlot_loop (S k) "mx.example.org" config_example 1000 world_example O
      = Some (k, r).
Proof.
  split; [exact world_example_well_timed|].
  destruct (acquireSlot_waits_then_acquires_or_times_out
              "mx.example.org" config_example 1000 world_example
              world_example_well_timed) as (k & r & Hk & Hloop & _).
  exists k, r. split; [exact Hk|]. apply Hloop. lia.
Defined.

Example acquireSlot_example_run :
  acquireSlot_loop 5 "mx.example.org" config_example 1000 world_example O
  = Some (1%nat, Acquired (take_slot 2000 penalised_state) 1).
Proof. reflexivity. Qed.

End AcquireLoopExample.

(** ** The handshake engine: TLS-required outcomes *)

Section HandshakeTls.
Import Handshake.

Variable cfg : SmtpValidationConfig.
Variable email : string.

Definition cfg_example (tls : bool) : SmtpValidationConfig :=
  mkConfig 10 2 2000 1 2000 (2 # 1) 5000 15000 "validator.example.net"
    "probe@validator.example.net" 5000 5000 5000 10000 tls true 2 true.

Definition banner : SocketEvent :=
  OnData ("220 mail.example.com ESMTP" ++ CRLF).
Definition ehlo_reply : SocketEvent :=
  OnData ("250-mail.example.com" ++ CRLF ++ "250-SIZE 35882577" ++ CRLF
          ++ "250 8BITMIME" ++ CRLF).
Definition ehlo_reply_starttls : SocketEvent :=
  OnData ("250-mail.example.com" ++ CRLF ++ "250-starttls" ++ CRLF
          ++ "250 8BITMIME" ++ CRLF).

Example handshake_accepts :
  let st := performSmtpHandshake (cfg_example false) "user@example.com"
              [banner; ehlo_reply; OnData ("250 2.1.0 OK" ++ CRLF);
               OnData ("250 2.1.5 OK" ++ CRLF)] in
  (exists raw, settled st = Resolved (mkResult valid [smtp_valid] raw)) /\
  written st = ["EHLO validator.example.net" ++ CRLF;
                "MAIL FROM:<probe@validator.example.net>" ++ CRLF;
                "RCPT TO:<user@example.com>" ++ CRLF;
                "QUIT" ++ CRLF].
Proof. vm_compute. split; [eexists|]; reflexivity. Qed.

Example handshake_rejects_550 :
  exists raw,
    settled (performSmtpHandshake (cfg_example false) "user@example.com"
               [banner; ehlo_reply; OnData ("250 2.1.0 OK" ++ CRLF);
                OnData ("550 5.1.1 No such user" ++ CRLF)])
    = Resolved (mkResult invalid [smtp_invalid] raw).
Proof. vm_compute. eexists; reflexivity. Qed.

Example handshake_tls_missing :
  let st := performSmtpHandshake (cfg_example true) "user@example.com"
              [banner; ehlo_reply; OnData ("250 2.1.0 OK" ++ CRLF)] in
  (exists raw, settled st = Resolved (mkResult unknown [smtp_tls_required] raw)) /\
  written st = ["EHLO validator.example.net" ++ CRLF; "QUIT" ++ CRLF].
Proof. vm_compute. split; [eexists|]; reflexivity. Qed.

Example handshake_split_chunks :
  ehloCapabilities (performSmtpHandshake (cfg_example false) "user@example.com"
    [OnData "220 mail.exa"; OnData ("mple.com" ++ CRLF ++ "250-ma");
     OnData ("il" ++ CRLF ++ "250-StartTLS" ++ CRLF)])
  = ["MAIL"; "STARTTLS"].
Proof. reflexivity. Qed.

Definition no_mail_from (st : State) : Prop :=
  Forall (fun data => is_mail_from data = false) (written st).

Lemma written_settle s st : written (settle s st) = written st.
Proof. unfold settle. destruct (settled st); reflexivity. Qed.

Lemma no_mail_from_settle s st : no_mail_from st -> no_mail_from (settle s st).
Proof. unfold no_mail_from. now rewrite written_settle. Qed.

Lemma no_mail_from_write data st :
  is_mail_from data = false -> no_mail_from st -> no_mail_from (write data st).
Proof.
  unfold no_mail_from; simpl. intros Hd Hst.
  apply Forall_app. split; [exact Hst|]. constructor; [exact Hd|constructor].
Qed.

Lemma settled_settle s st :
  settled st = Pending -> settled (settle s st) = s.
Proof. unfold settle. intros ->. reflexivity. Qed.

Hypothesis tls : requireTls cfg = true.

Lemma on_reply_no_mail_from code line st :
  no_mail_from st -> no_mail_from (on_reply cfg email code line st).
Proof.
  intros Hst. unfold on_reply. rewrite tls.
  destruct (string_in "STARTTLS" (ehloCapabilities st)); simpl.
  all: repeat match goal with
         | |- context [if ?c then _ else _] => destruct c eqn:?
         end;
    unfold resolve, reject;
    repeat first [ apply no_mail_from_settle
                 | apply no_mail_from_write; [reflexivity|] ];
    exact Hst.
Qed.

Lemma on_line_no_mail_from line st :
  no_mail_from st -> no_mail_from (on_line cfg email line st).
Proof.
  intros Hst. unfold on_line.
  destruct (String.eqb line ""); [exact Hst|].
  destruct (is_continuation line).
  - destruct (step (append_raw line st) =? 1); [|exact Hst].
    destruct (negb (String.eqb (capability_of line) "")); exact Hst.
  - apply on_reply_no_mail_from. unfold note_final_capability.
    repeat match goal with
           | |- context [if ?c then _ else _] => destruct c
           end; exact Hst.
Qed.

Lemma on_lines_no_mail_from lines : forall st,
  no_mail_from st -> no_mail_from (on_lines cfg email lines st).
Proof.
  induction lines as [|line lines IH]; intros st Hst; simpl; [exact Hst|].
  pose proof (on_line_no_mail_from line st Hst) as H1.
  destruct (settled (on_line cfg email line st)); auto.
Qed.

Lemma handle_no_mail_from ev st :
  no_mail_from st -> no_mail_from (handle cfg email ev st).
Proof.
  intros Hst. unfold handle. destruct (settled st) eqn:Es; try exact Hst.
  destruct ev as [data|err| | |]; unfold reject.
  - unfold on_data.
    destruct (negb (Js.includes (buffer (set_buffer (buffer st ++ data) st)) CRLF));
      [exact Hst|].
    apply on_lines_no_mail_from. exact Hst.
  - apply no_mail_from_settle. exact Hst.
  - apply no_mail_from_settle. exact Hst.
  - destruct (step (clearTimeout st) <? 4); [apply no_mail_from_settle|]; exact Hst.
  - destruct (currentTimeout st) as [[phase ms]|]; [apply no_mail_from_settle|]; exact Hst.
Qed.

Lemma performSmtpHandshake_no_mail_from events :
  no_mail_from (performSmtpHandshake cfg email events).
Proof.
  unfold performSmtpHandshake.
  assert (H0 : no_mail_from (initial cfg)) by constructor.
  revert H0. generalize (initial cfg).
  induction events as [|ev events IH]; intros st Hst; simpl; [exact Hst|].
  apply IH. apply handle_no_mail_from. exact Hst.
Qed.

End HandshakeTls.

Section HandshakeTlsVerdict.
Import Handshake.

Lemma step_note_final code line st :
  step (note_final_capability code line st) = step st.
Proof.
  unfold note_final_capability.
  repeat match goal with
         | |- context [if ?c then _ else _] => destruct c
         end; reflexivity.
Qed.

Lemma written_note_final code line st :
  written (note_final_capability code line st) = written st.
Proof.
  unfold note_final_capability.
  repeat match goal with
         | |- context [if ?c then _ else _] => destruct c
         end; reflexivity.
Qed.

Lemma settled_note_final code line st :
  settled (note_final_capability code line st) = settled st.
Proof.
  unfold note_final_capability.
  repeat match goal with
         | |- context [if ?c then _ else _] => destruct c
         end; reflexivity.
Qed.

Lemma on_line_final cfg email line st :
  line <> "" -> is_continuation line = false ->
  on_line cfg email line st =
  on_reply cfg email (extractSmtpCode line) line
    (clearTimeout (note_final_capability (extractSmtpCode line) line (append_raw line st))).
Proof.
  intros Hne Hc. unfold on_line.
  destruct (String.eqb_spec line ""); [contradiction|]. now rewrite Hc.
Qed.

(** C7. On the last line of a reply, received while the promise is
    pending: a 530 answer to EHLO (step 1) or to MAIL FROM (step 3)
    resolves the handshake to [unknown] with the single reason
    [smtp_tls_required], after writing QUIT and nothing else; so does a
    250 answer to EHLO when TLS is required and the capabilities gathered
    from the reply do not include STARTTLS. When TLS is required, no
    sequence of socket events makes the engine write a MAIL FROM
    command. *)
Theorem handshake_tls_required (cfg : SmtpValidationConfig) (email : string)
    (st : State) (line : string) (events : list SocketEvent) :
  settled st = Pending ->
  line <> "" ->
  is_continuation line = false ->
  let st' := on_line cfg email line st in
  let tls_verdict :=
    (exists raw, settled st' = Resolved (mkResult unknown [smtp_tls_required] raw)) /\
    written st' = (written st ++ [quit])%list in
  (step st = 1 \/ step st = 3 -> extractSmtpCode line = 530 -> tls_verdict) /\
  (step st = 1 -> extractSmtpCode line = 250 -> requireTls cfg = true ->
   string_in "STARTTLS"
     (ehloCapabilities (note_final_capability 250 line (append_raw line st))) = false ->
   tls_verdict) /\
  (requireTls cfg = true ->
   Forall (fun data => is_mail_from data = false)
     (written (performSmtpHandshake cfg email events))).
Proof.
  intros Hp Hne Hc st' tls_verdict. subst st' tls_verdict.
  rewrite (on_line_final cfg email line st Hne Hc).
  split; [|split].
  - intros Hstep Hcode. rewrite Hcode. unfold on_reply.
    replace (step (clearTimeout (note_final_capability 530 line (append_raw line st))))
      with (step st) by (simpl; now rewrite step_note_final).
    assert (Hs : settled (write quit
                   (clearTimeout (note_final_capability 530 line (append_raw line st))))
                 = Pending)
      by (simpl; now rewrite settled_note_final).
    destruct Hstep as [-> | ->]; simpl (_ =? _); cbv iota;
      unfold resolve; rewrite written_settle, (settled_settle _ _ Hs);
      (split; [eexists; reflexivity|]);
      simpl; now rewrite written_note_final.
  - intros Hstep Hcode Htls Hcaps. rewrite Hcode. unfold on_reply.
    replace (step (clearTimeout (note_final_capability 250 line (append_raw line st))))
      with (step st) by (simpl; now rewrite step_note_final).
    rewrite Hstep. simpl (_ =? _). cbv iota.
    replace (ehloCapabilities (clearTimeout (note_final_capability 250 line (append_raw line st))))
      with (ehloCapabilities (note_final_capability 250 line (append_raw line st)))
      by reflexivity.
    rewrite Hcaps, Htls. simpl (_ && _). simpl (negb _). cbv iota.
    assert (Hs : settled (write quit
                   (clearTimeout (note_final_capability 250 line (append_raw line st))))
                 = Pending)
      by (simpl; now rewrite settled_note_final).
    unfold resolve. rewrite written_settle, (settled_settle _ _ Hs).
    split; [eexists; reflexivity|].
    simpl. now rewrite written_note_final.
  - intros Htls. apply performSmtpHandshake_no_mail_from. exact Htls.
Qed.

Lemma handshake_tls_required_witness :
  let st := performSmtpHandshake (cfg_example true) "user@example.com" [banner] in
  let line := "530 5.7.0 Must issue a STARTTLS command first" in
  (settled st = Pending /\ line <> "" /\ is_continuation line = false /\
   step st = 1 /\ extractSmtpCode line = 530) /\
  written (on_line (cfg_example true) "user@example.com" line st)
  = ["EHLO validator.example.net" ++ CRLF; "QUIT" ++ CRLF].
Proof.
  intros st line.
  assert (H1 : settled st = Pending) by reflexivity.
  assert (H2 : line <> "") by discriminate.
  assert (H3 : is_continuation line = false) by reflexivity.
  assert (H4 : step st = 1) by reflexivity.
  assert (H5 : extractSmtpCode line = 530) by reflexivity.
  split; [tauto|].
  destruct (handshake_tls_required (cfg_example true) "user@example.com" st line []
              H1 H2 H3) as (H530 & _ & _).
  destruct (H530 (or_introl H4) H5) as [_ Hw].
  exact Hw.
Defined.

End HandshakeTlsVerdict.

(** ** The orchestrator: one connection attempt *)

Section SingleAttempt.
Import Orchestrator.

Variable cfg : SmtpValidationConfig.

(** What happens on the socket of an attempt, as the race sees it. *)
Definition raced (email : string) (a : Attempt) : SmtpValidationResult + JsError :=
  Handshake.race cfg (Handshake.performSmtpHandshake cfg email (socket_events a)).

(** The settlement of [validateSmtpSingle] on an attempt. *)
Definition attempt_outcome (email : string) (a : Attempt)
    : SmtpValidationResult + JsError :=
  match slot_error a with
  | Some e => inr e
  | None =>
      match raced email a with
      | inl result => inl result
      | inr error => inl (mapErrorToResult error)
      end
  end.

(** The collaborator calls of [validateSmtpSingle] on an attempt. *)
Definition attempt_trace (email mxHost : string) (a : Attempt) : list Event :=
  AcquireSlot mxHost (throttle_config cfg) ::
  match slot_error a with
  | Some _ => []
  | None =>
      Connect mxHost email ::
      match raced email a with
      | inl _ => [RecordSuccess mxHost; ReleaseSlot mxHost]
      | inr error => [RecordFailure mxHost (isHardBlockError error); ReleaseSlot mxHost]
      end
  end.

Lemma validateSmtpSingle_run email mxHost env w :
  validateSmtpSingle email mxHost cfg env w =
  (attempt_outcome email (attempt env (calls w)),
   mkWorld (S (calls w)) (trace w ++ attempt_trace email mxHost (attempt env (calls w)))).
Proof.
  unfold validateSmtpSingle, attempt_outcome, attempt_trace, raced, bind,
    next_attempt, emit, throw, ret; simpl.
  destruct (slot_error (attempt env (calls w))); simpl; [reflexivity|].
  destruct (Handshake.race cfg _); simpl; rewrite <- !app_assoc; reflexivity.
Qed.





End SingleAttempt.

Section SingleAttemptExample.
Import Orchestrator.

Definition rcpt_session (rcpt_reply : string) : list Handshake.SocketEvent :=
  [banner; ehlo_reply; Handshake.OnData ("250 2.1.0 OK" ++ Handshake.CRLF);
   Handshake.OnData (rcpt_reply ++ Handshake.CRLF)].

(** Every attempt is granted a slot and meets a server that rejects the
    recipient. *)
Definition env_rejecting : Env :=
  mkEnv (inl (mkMxResult true (Some [mkMx "mx1.example.com" 10])))
    (fun _ => mkAttempt None (rcpt_session "550 5.1.1 No such user"))
    (fun _ => "test-1700000000000-k3x9q")
    (fun _ => 0%Q).


End SingleAttemptExample.

(** ** The orchestrator: catch-all detection *)

Section CatchAllDetection.
Import Orchestrator.

Variable cfg : SmtpValidationConfig.
Variable domain : string.
Variable env : Env.

(** The address probed when [n] attempts have been made. *)
Definition probe_email (n : nat) : string :=
  (randomLocal env n ++ "@" ++ domain)%string.

(** The settlement of the probe made as attempt number [n]. *)
Definition probe_outcome (n : nat) : SmtpValidationResult + JsError :=
  attempt_outcome cfg (probe_email n) (attempt env n).

Definition accepted (o : SmtpValidationResult + JsError) : Prop :=
  exists r, o = inl r /\ smtpStatus r = valid.

Definition rejected (o : SmtpValidationResult + JsError) : Prop :=
  exists r, o = inl r /\ smtpStatus r = invalid.

Definition non_definitive (o : SmtpValidationResult + JsError) : Prop :=
  ~ accepted o /\ ~ rejected o.

(** Connections opened for probe addresses only. *)
Definition only_probes (tr : list Event) : Prop :=
  Forall (fun ev => match ev with
                    | Connect _ email => exists n, email = probe_email n
                    | _ => True
                    end) tr.

Lemma detectCatchAll_run mxHost w :
  exists c,
    detectCatchAll mxHost domain cfg env w =
    (inl c, mkWorld (S (calls w))
              (trace w ++ attempt_trace cfg (probe_email (calls w)) mxHost
                            (attempt env (calls w)))) /\
    (c = yes <-> accepted (probe_outcome (calls w))) /\
    (c = no <-> rejected (probe_outcome (calls w))) /\
    (c = inconclusive <-> non_definitive (probe_outcome (calls w))).
Proof.
  unfold detectCatchAll, try_catch, bind, draw_random_local.
  fold (probe_email (calls w)).
  rewrite validateSmtpSingle_run. fold (probe_outcome (calls w)).
  unfold non_definitive, accepted, rejected.
  destruct (probe_outcome (calls w)) as [r|e]; simpl.
  - destruct (smtpStatus r) eqn:Es; unfold ret; eexists; (split; [reflexivity|]);
      (split; [|split]); split; try discriminate; try (intros _; eauto; fail);
      try (intros (r' & [= <-] & H); congruence);
      try (intros _; split; intros (r' & [= <-] & H); congruence);
      try (intros [H1 H2]; exfalso; eauto).
  - unfold ret. eexists; (split; [reflexivity|]).
    (split; [|split]); split; try discriminate;
      try (intros (r' & [=] & _));
      try (intros _; split; intros (r' & [=] & _)).
Qed.

Lemma only_probes_attempt tr mxHost n :
  only_probes tr ->
  only_probes (tr ++ attempt_trace cfg (probe_email n) mxHost (attempt env n)).
Proof.
  intros H. apply Forall_app. split; [exact H|].
  unfold attempt_trace. constructor; [exact I|].
  destruct (slot_error (attempt env n)); [constructor|].
  constructor; [now exists n|].
  destruct (raced cfg (probe_email n) (attempt env n)); repeat constructor.
Qed.

Definition probed (mxToTry : list MxRecord) : list MxRecord :=
  filter (fun mx => exchange mx <> "") mxToTry.

(** The probes answer non-definitively until the [i]-th, which is
    accepted. *)
Lemma catch_all_loop_yes mxToTry : forall w i c,
  (i < length (probed mxToTry))%nat ->
  (forall j, (j < i)%nat -> non_definitive (probe_outcome (calls w + j))) ->
  accepted (probe_outcome (calls w + i)) ->
  exists tr,
    catch_all_loop domain cfg mxToTry c env w =
    (inl (inl catch_all_verdict), mkWorld (calls w + i + 1) tr) /\
    (only_probes (trace w) -> only_probes tr).
Proof.
  induction mxToTry as [|mx rest IH]; intros w i c Hi Hbefore Hyes; simpl in *.
  - lia.
  - unfold probed in Hi. rewrite filter_cons in Hi.
    destruct (String.eqb_spec (exchange mx) "") as [E|E].
    + rewrite decide_False in Hi by tauto. apply IH; assumption.
    + rewrite decide_True in Hi by assumption. simpl in Hi.
      unfold bind.
      destruct (detectCatchAll_run (exchange mx) w) as (c' & -> & Hy & Hn & Hinc).
      destruct i as [|i].
      * rewrite Nat.add_0_r in Hyes. apply Hy in Hyes. subst c'.
        unfold ret. eexists. split.
        -- replace (calls w + 0 + 1)%nat with (S (calls w)) by lia. reflexivity.
        -- apply only_probes_attempt.
      * assert (Hc : c' = inconclusive).
        { apply Hinc. specialize (Hbefore O). rewrite Nat.add_0_r in Hbefore.
          apply Hbefore. lia. }
        subst c'.
        destruct (IH (mkWorld (S (calls w))
                        (trace w ++ attempt_trace cfg (probe_email (calls w)) (exchange mx)
                                      (attempt env (calls w)))) i inconclusive)
          as (tr & Hrun & Htr); simpl.
        -- unfold probed. lia.
        -- intros j Hj. replace (S (calls w + j)) with (calls w + S j)%nat by lia.
           apply Hbefore. lia.
        -- replace (S (calls w + i)) with (calls w + S i)%nat by lia. exact Hyes.
        -- rewrite Hrun. eexists. split.
           ++ replace (calls w + S i + 1)%nat with (S (calls w) + i + 1)%nat by lia.
              reflexivity.
           ++ intros H. apply Htr. simpl. now apply only_probes_attempt.
Qed.

(** Every probe answers non-definitively. *)
Lemma catch_all_loop_inconclusive mxToTry : forall w,
  (forall j, (j < length (probed mxToTry))%nat ->
             non_definitive (probe_outcome (calls w + j))) ->
  exists w',
    catch_all_loop domain cfg mxToTry inconclusive env w = (inl (inr inconclusive), w').
Proof.
  induction mxToTry as [|mx rest IH]; intros w Hall; simpl in *.
  - eexists. reflexivity.
  - unfold probed in Hall. rewrite filter_cons in Hall.
    destruct (String.eqb_spec (exchange mx) "") as [E|E].
    + rewrite decide_False in Hall by tauto. apply IH; assumption.
    + rewrite decide_True in Hall by assumption. simpl in Hall.
      unfold bind.
      destruct (detectCatchAll_run (exchange mx) w) as (c' & -> & Hy & Hn & Hinc).
      assert (Hc : c' = inconclusive).
      { apply Hinc. specialize (Hall O). rewrite Nat.add_0_r in Hall.
        apply Hall. lia. }
      subst c'. apply IH. simpl. intros j Hj.
      replace (S (calls w + j)) with (calls w + S j)%nat by lia.
      apply Hall. unfold probed in Hj. lia.
Qed.

End CatchAllDetection.

Section CatchAllShortCircuit.
Import Orchestrator.
Local Open Scope orch_scope.

(** What [validateSmtp] does once its probing loop has ended without a
    verdict: step 4, the sweep of the exchangers with the real address,
    inside the [try] of the function. *)
Definition test_address (email : string) (cfg : SmtpValidationConfig)
    (mxToTry : list MxRecord) : M SmtpValidationResult :=
  try_catch
    (let* swept := address_loop email cfg mxToTry [] in
     match swept with
     | inl result => ret result
     | inr failureReasons => ret (all_failed mxToTry failureReasons)
     end)
    (fun error =>
       ret (mkResult unknown [smtp_connection_failed] (Some (message error)))).

(** C2. [detectCatchAll] never throws and makes one attempt; it answers
    [yes] exactly when the probe address was accepted ([valid]), [no]
    exactly when it was rejected ([invalid]), and [inconclusive] in every
    other case, a thrown error included. When every probed exchanger
    answers non-definitively, the probing loop ends with [catchAllResult]
    still [inconclusive], never [no]: so it does in [validateSmtp], which
    then goes on to test the real address. When the probes answer
    non-definitively until one is accepted, [validateSmtp] returns the
    [catch_all] verdict having made those probe attempts and no other:
    every connection it opened was for a probe address. *)
Theorem catch_all_determination (cfg : SmtpValidationConfig) (email domain : string)
    (env : Env) :
  (forall mxHost w,
     exists c w',
       detectCatchAll mxHost domain cfg env w = (inl c, w') /\
       calls w' = S (calls w) /\
       (c = yes <-> accepted (probe_outcome cfg domain env (calls w))) /\
       (c = no <-> rejected (probe_outcome cfg domain env (calls w))) /\
       (c = inconclusive <-> non_definitive (probe_outcome cfg domain env (calls w)))) /\
  (forall mxToTry w,
     (forall j, (j < length (probed mxToTry))%nat ->
                non_definitive (probe_outcome cfg domain env (calls w + j))) ->
     exists w',
       catch_all_loop domain cfg mxToTry inconclusive env w
       = (inl (inr inconclusive), w')) /\
  (forall records,
     mx_lookup env = inl (mkMxResult true (Some records)) ->
     records <> [] ->
     let mxToTry := mx_to_try cfg (random env) records in
     ((forall j, (j < length (probed mxToTry))%nat ->
                 non_definitive (probe_outcome cfg domain env j)) ->
      exists w',
        catch_all_loop domain cfg mxToTry inconclusive env (mkWorld O [])
        = (inl (inr inconclusive), w') /\
        run (validateSmtp email domain cfg) env = test_address email cfg mxToTry env w') /\
     (forall i,
        (i < length (probed mxToTry))%nat ->
        (forall j, (j < i)%nat -> non_definitive (probe_outcome cfg domain env j)) ->
        accepted (probe_outcome cfg domain env i) ->
        exists tr,
          run (validateSmtp email domain cfg) env =
          (inl catch_all_verdict, mkWorld (i + 1) tr) /\
          only_probes domain env tr /\
          smtpStatus catch_all_verdict = catch_all /\
          reasonCodes catch_all_verdict = [smtp_catch_all])).
Proof.
  split; [|split].
  - intros mxHost w.
    destruct (detectCatchAll_run cfg domain env mxHost w) as (c & Hrun & H).
    eexists c, _. split; [exact Hrun|]. split; [reflexivity|exact H].
  - intros mxToTry w. apply catch_all_loop_inconclusive.
  - intros records Hmx Hne mxToTry.
    assert (Hbody :
              run (validateSmtp email domain cfg) env =
              try_catch
                (let* probed := catch_all_loop domain cfg mxToTry inconclusive in
                 match probed with
                 | inl verdict => ret verdict
                 | inr _ =>
                     let* swept := address_loop email cfg mxToTry [] in
                     match swept with
                     | inl result => ret result
                     | inr failureReasons => ret (all_failed mxToTry failureReasons)
                     end
                 end)
                (fun error =>
                   ret (mkResult unknown [smtp_connection_failed] (Some (message error))))
                env (mkWorld O [])).
    { unfold run, validateSmtp, try_catch, bind at 1, validateMx. rewrite Hmx. simpl.
      destruct records as [|r0 records]; [contradiction|]. reflexivity. }
    split.
    + intros Hall.
      destruct (catch_all_loop_inconclusive cfg domain env mxToTry (mkWorld O []) Hall)
        as (w' & Hloop).
      exists w'. split; [exact Hloop|].
      rewrite Hbody. unfold test_address, try_catch, bind at 1. rewrite Hloop.
      reflexivity.
    + intros i Hi Hbefore Hyes.
      destruct (catch_all_loop_yes cfg domain env mxToTry (mkWorld O []) i inconclusive
                  Hi Hbefore Hyes) as (tr & Hloop & Htr).
      exists tr. split; [|split; [|split; reflexivity]].
      * rewrite Hbody. unfold try_catch, bind. rewrite Hloop. reflexivity.
      * apply Htr. constructor.
Qed.

(** The first exchanger accepts whatever recipient it is given. *)
Definition env_accepting : Env :=
  mkEnv (inl (mkMxResult true (Some [mkMx "mx1.example.com" 10])))
    (fun _ => mkAttempt None (rcpt_session "250 2.1.5 OK"))
    (fun _ => "test-1700000000000-k3x9q")
    (fun _ => 0%Q).

(** Every exchanger defers the recipient it is given. *)
Definition env_deferring : Env :=
  mkEnv (inl (mkMxResult true (Some [mkMx "mx1.example.com" 10])))
    (fun _ => mkAttempt None (rcpt_session "451 4.7.1 Greylisted, try again later"))
    (fun _ => "test-1700000000000-k3x9q")
    (fun _ => 0%Q).

Lemma catch_all_determination_witness :
  let cfg := cfg_example false in
  let records := [mkMx "mx1.example.com" 10] in
  (exists tr,
     run (validateSmtp "user@example.com" "example.com" cfg) env_accepting
     = (inl catch_all_verdict, mkWorld 1 tr)) /\
  (exists w',
     catch_all_loop "example.com" cfg (mx_to_try cfg (random env_deferring) records)
       inconclusive env_deferring (mkWorld O [])
     = (inl (inr inconclusive), w')).
Proof.
  intros cfg records. split.
  - destruct (catch_all_determination cfg "user@example.com" "example.com" env_accepting)
      as (_ & _ & H).
    destruct (H records eq_refl ltac:(discriminate)) as [_ Hyes].
    destruct (Hyes O) as (tr & Hrun & _).
    + vm_compute. lia.
    + intros j Hj. lia.
    + eexists. split; vm_compute; reflexivity.
    + exists tr. exact Hrun.
  - destruct (catch_all_determination cfg "user@example.com" "example.com" env_deferring)
      as (_ & _ & H).
    destruct (H records eq_refl ltac:(discriminate)) as [Hall _].
    destruct Hall as (w' & Hloop & _).
    + intros j Hj.
      assert (j = O) by (vm_compute in Hj; lia). subst j.
      split; intros (r & Hr & Hs); vm_compute in Hr; injection Hr as <-; discriminate.
    + exists w'. exact Hloop.
Defined.

End CatchAllShortCircuit.

(** ** The orchestrator: bounded retry on one exchanger *)

Section RetryPolicy.
Import Orchestrator.

Variable cfg : SmtpValidationConfig.
Variable email : string.
Variable mx : MxRecord.
Variable env : Env.

(** The settlement of [validateSmtpSingle] made as attempt number [n]. *)
Definition outcome (n : nat) : SmtpValidationResult + JsError :=
  attempt_outcome cfg email (attempt env n).

Definition soft (o : SmtpValidationResult + JsError) : Prop :=
  exists r, o = inl r /\ smtpStatus r = temporarily_unavailable.

Definition thrown (o : SmtpValidationResult + JsError) : Prop :=
  exists e, o = inr e.

Fixpoint sleeps (tr : list Event) : list Q :=
  match tr with
  | [] => []
  | SleepFor ms :: tr' => ms :: sleeps tr'
  | _ :: tr' => sleeps tr'
  end.

(** What [validateSmtpWithRetry] returns after a last attempt that
    settled as [o]. *)
Definition surfaced (o : SmtpValidationResult + JsError) (res : SmtpValidationResult)
    : Prop :=
  match o with
  | inl r =>
      if is_definitive (smtpStatus r) then res = r
      else res = push_reason r smtp_soft_fails_exceeded
  | inr e =>
      res = mkResult unknown [smtp_connection_failed; smtp_timeout] (Some (message e))
  end.

Lemma sleeps_app tr1 tr2 : sleeps (tr1 ++ tr2) = (sleeps tr1 ++ sleeps tr2)%list.
Proof.
  induction tr1 as [|ev tr1 IH]; simpl; [reflexivity|].
  destruct ev; simpl; rewrite IH; reflexivity.
Qed.

Lemma sleeps_attempt_trace e h a : sleeps (attempt_trace cfg e h a) = [].
Proof.
  unfold attempt_trace; simpl. destruct (slot_error a); simpl; [reflexivity|].
  destruct (raced cfg e a); reflexivity.
Qed.

Lemma delays_shift (a : Z) (n : nat) :
  (retry_delay cfg a ::
    map (fun j => retry_delay cfg (a + 1 + Z.of_nat j)) (seq 0 n))%list
  = map (fun j => retry_delay cfg (a + Z.of_nat j)) (seq 0 (S n)).
Proof.
  simpl. rewrite Z.add_0_r. f_equal.
  rewrite <- seq_shift, List.map_map. apply List.map_ext.
  intros j. f_equal. lia.
Qed.

(** One turn of the loop, by the settlement of its attempt. *)
Lemma retry_turn_run (a : Z) (last : option SmtpValidationResult) (w : World) :
  let o := outcome (calls w) in
  let tr := (trace w ++ attempt_trace cfg email (exchange mx) (attempt env (calls w)))%list in
  retry_turn email mx cfg a last env w =
  match o with
  | inl r =>
      if is_definitive (smtpStatus r) then (inl (Return r), mkWorld (S (calls w)) tr)
      else if bool_decide (smtpStatus r = temporarily_unavailable)
              && (a <? softRetryLimit cfg)
      then (inl (Continue (Some r)),
            mkWorld (S (calls w)) (tr ++ [SleepFor (retry_delay cfg a)]))
      else (inl (Break (Some r)), mkWorld (S (calls w)) tr)
  | inr e =>
      if a <? softRetryLimit cfg
      then (inl (Continue last),
            mkWorld (S (calls w)) (tr ++ [SleepFor (retry_delay cfg a)]))
      else (inl (Return (mkResult unknown [smtp_connection_failed; smtp_timeout]
                           (Some (message e)))),
            mkWorld (S (calls w)) tr)
  end.
Proof.
  intros o tr. subst o tr.
  unfold retry_turn, try_catch, bind. rewrite validateSmtpSingle_run.
  fold (outcome (calls w)).
  destruct (outcome (calls w)) as [r|e].
  - destruct (is_definitive (smtpStatus r)); [reflexivity|].
    destruct (bool_decide (smtpStatus r = temporarily_unavailable)
              && (a <? softRetryLimit cfg)); reflexivity.
  - destruct (a <? softRetryLimit cfg); reflexivity.
Qed.

Lemma soft_not_definitive r :
  smtpStatus r = temporarily_unavailable -> is_definitive (smtpStatus r) = false.
Proof. intros ->. reflexivity. Qed.

(** The loop from attempt number [a], with [turns] turns allowed. *)
Lemma retry_loop_run (turns : nat) : forall (a : Z) last w,
  Z.of_nat turns = softRetryLimit cfg + 1 - a ->
  (1 <= turns)%nat ->
  exists n delta res,
    (1 <= n <= turns)%nat /\
    retry_loop turns email mx cfg a last env w =
      (inl res, mkWorld (calls w + n) (trace w ++ delta)) /\
    sleeps delta = map (fun j => retry_delay cfg (a + Z.of_nat j)) (seq 0 (n - 1)) /\
    (forall j, (j < n - 1)%nat ->
       soft (outcome (calls w + j)) \/ thrown (outcome (calls w + j))) /\
    surfaced (outcome (calls w + n - 1)) res /\
    ((n < turns)%nat ->
       ~ soft (outcome (calls w + n - 1)) /\ ~ thrown (outcome (calls w + n - 1))).
Proof.
  induction turns as [|turns IH]; intros a last w Hturns Hpos; [lia|].
  simpl. replace (a <=? softRetryLimit cfg) with true by (symmetry; apply Z.leb_le; lia).
  unfold bind. rewrite retry_turn_run.
  assert (Hstop : forall res o,
            o = outcome (calls w) -> surfaced o res ->
            ((1 < S turns)%nat -> ~ soft o /\ ~ thrown o) ->
            exists n delta res',
              (1 <= n <= S turns)%nat /\
              (inl res : SmtpValidationResult + JsError, mkWorld (S (calls w))
                 (trace w ++ attempt_trace cfg email (exchange mx) (attempt env (calls w))))
              = (inl res', mkWorld (calls w + n) (trace w ++ delta)) /\
              sleeps delta = map (fun j => retry_delay cfg (a + Z.of_nat j)) (seq 0 (n - 1)) /\
              (forall j, (j < n - 1)%nat ->
                 soft (outcome (calls w + j)) \/ thrown (outcome (calls w + j))) /\
              surfaced (outcome (calls w + n - 1)) res' /\
              ((n < S turns)%nat ->
                 ~ soft (outcome (calls w + n - 1)) /\ ~ thrown (outcome (calls w + n - 1)))).
  { intros res o Ho Hsurf Hearly.
    exists 1%nat, (attempt_trace cfg email (exchange mx) (attempt env (calls w))), res.
    split; [lia|]. split; [replace (calls w + 1)%nat with (S (calls w)) by lia; reflexivity|].
    split; [apply sleeps_attempt_trace|]. split; [intros j Hj; lia|].
    replace (calls w + 1 - 1)%nat with (calls w) by lia. rewrite <- Ho.
    split; [exact Hsurf|exact Hearly]. }
  assert (Hgo : forall last',
            (1 <= turns)%nat ->
            soft (outcome (calls w)) \/ thrown (outcome (calls w)) ->
            exists n delta res,
              (1 <= n <= S turns)%nat /\
              retry_loop turns email mx cfg (a + 1) last' env
                (mkWorld (S (calls w))
                   ((trace w ++ attempt_trace cfg email (exchange mx) (attempt env (calls w)))
                    ++ [SleepFor (retry_delay cfg a)]))
              = (inl res, mkWorld (calls w + n) (trace w ++ delta)) /\
              sleeps delta = map (fun j => retry_delay cfg (a + Z.of_nat j)) (seq 0 (n - 1)) /\
              (forall j, (j < n - 1)%nat ->
                 soft (outcome (calls w + j)) \/ thrown (outcome (calls w + j))) /\
              surfaced (outcome (calls w + n - 1)) res /\
              ((n < S turns)%nat ->
                 ~ soft (outcome (calls w + n - 1)) /\ ~ thrown (outcome (calls w + n - 1)))).
  { intros last' Ht Hretry.
    destruct (IH (a + 1) last'
                (mkWorld (S (calls w))
                   ((trace w ++ attempt_trace cfg email (exchange mx) (attempt env (calls w)))
                    ++ [SleepFor (retry_delay cfg a)])))
      as (n & delta & res & Hn & Hrun & Hsl & Hret & Hsurf & Hearly); [lia|lia|].
    cbn [calls trace] in *.
    exists (S n), ((attempt_trace cfg email (exchange mx) (attempt env (calls w))
                    ++ [SleepFor (retry_delay cfg a)]) ++ delta)%list, res.
    split; [lia|]. split.
    { rewrite Hrun. f_equal. f_equal; [lia|]. now rewrite <- !app_assoc. }
    split.
    { rewrite !sleeps_app, sleeps_attempt_trace, Hsl. cbn [sleeps app].
      replace (S n - 1)%nat with (S (n - 1)) by lia. apply delays_shift. }
    split.
    { intros j Hj. destruct j as [|j].
      - rewrite Nat.add_0_r. exact Hretry.
      - replace (calls w + S j)%nat with (S (calls w) + j)%nat by lia. apply Hret. lia. }
    replace (calls w + S n - 1)%nat with (S (calls w) + n - 1)%nat by lia.
    split; [exact Hsurf|]. intros Hlt. apply Hearly. lia. }
  destruct (outcome (calls w)) as [r|e] eqn:Eo.
  - destruct (is_definitive (smtpStatus r)) eqn:Ed.
    + apply (Hstop r (inl r) eq_refl); [simpl; now rewrite Ed|].
      intros _. split; [intros (r' & [= <-] & Hs); now rewrite Hs in Ed|intros (e' & [=])].
    + destruct (bool_decide (smtpStatus r = temporarily_unavailable)) eqn:Et; simpl.
      * apply bool_decide_eq_true in Et.
        destruct (a <? softRetryLimit cfg) eqn:El.
        -- apply Z.ltb_lt in El. apply Hgo; [lia|]. left. now exists r.
        -- apply Z.ltb_ge in El. unfold after_retries, ret.
           apply (Hstop _ (inl r) eq_refl); [simpl; now rewrite Ed|]. intros; lia.
      * apply bool_decide_eq_false in Et. unfold after_retries, ret.
        apply (Hstop _ (inl r) eq_refl); [simpl; now rewrite Ed|].
        intros _. split; [intros (r' & [= <-] & Hs); contradiction|intros (e' & [=])].
  - destruct (a <? softRetryLimit cfg) eqn:El.
    + apply Z.ltb_lt in El. apply Hgo; [lia|]. right. now exists e.
    + apply Z.ltb_ge in El. unfold ret.
      apply (Hstop _ (inr e) eq_refl); [reflexivity|]. intros; lia.
Qed.

End RetryPolicy.

Section RetryPolicyClaim.
Import Orchestrator.

(** The throttle raises on the first attempt (no slot within its wait
    timeout); later attempts reach a server that accepts the recipient. *)
Definition env_slot_timeout : Env :=
  mkEnv (inl (mkMxResult true (Some [mkMx "mx1.example.com" 10])))
    (fun n => match n with
              | O => mkAttempt
                       (Some (new_Error "Timeout waiting for slot to mx1.example.com")) []
              | S _ => mkAttempt None (rcpt_session "250 2.1.5 OK")
              end)
    (fun _ => "test-1700000000000-k3x9q")
    (fun _ => 0%Q).

(** The reading of the claim: every attempt that was followed by a retry
    had settled as a [temporarily_unavailable] result. *)
Definition retries_only_after_soft (cfg : SmtpValidationConfig) (email : string)
    (mx : MxRecord) (env : Env) : Prop :=
  let w' := snd (run (validateSmtpWithRetry email mx cfg) env) in
  forall j, (S j < calls w')%nat -> soft (outcome cfg email env j).

Example retry_after_slot_timeout :
  let out := run (validateSmtpWithRetry "user@example.com" (mkMx "mx1.example.com" 10)
                    (cfg_example false)) env_slot_timeout in
  (exists raw, fst out = inl (mkResult valid [smtp_valid] raw)) /\
  calls (snd out) = 2%nat /\
  sleeps (trace (snd out)) = [retry_delay (cfg_example false) 0].
Proof. vm_compute. split; [eexists; reflexivity|split; reflexivity]. Qed.

(** An attempt on which the throttle raised is retried as well. *)
Lemma validateSmtpWithRetry_retries_after_throw :
  ~ retries_only_after_soft (cfg_example false) "user@example.com"
      (mkMx "mx1.example.com" 10) env_slot_timeout.
Proof.
  unfold retries_only_after_soft. intros H.
  specialize (H O). 
  assert (Hc : (1 < calls (snd (run (validateSmtpWithRetry "user@example.com"
                                     (mkMx "mx1.example.com" 10) (cfg_example false))
                                  env_slot_timeout)))%nat)
    by (vm_compute; lia).
  destruct (H Hc) as (r & Hr & _). vm_compute in Hr. discriminate.
Qed.

(** C6 (amended). With a non-negative retry limit, [validateSmtpWithRetry]
    makes [n] attempts on the exchanger, at least one and at most
    [softRetryLimit + 1], and never throws. Every attempt followed by a
    retry had settled as a [temporarily_unavailable] result or had thrown
    (the throttle granted no slot), and the retry after attempt [k] waits
    [initialRetryDelayMs * retryBackoffFactor ^ k]. A last attempt made
    before the limit was neither of the two: a definitive result is
    returned as it is, any other result with [smtp_soft_fails_exceeded]
    appended, both without retry. At the limit, the last result is
    surfaced in the same way, and a last attempt that threw gives
    [unknown] with [smtp_connection_failed] and [smtp_timeout]. *)
Theorem validateSmtpWithRetry_policy (cfg : SmtpValidationConfig) (email : string)
    (mx : MxRecord) (env : Env) (w : World) :
  0 <= softRetryLimit cfg ->
  exists n delta res,
    validateSmtpWithRetry email mx cfg env w =
      (inl res, mkWorld (calls w + n) (trace w ++ delta)) /\
    (1 <= n)%nat /\ Z.of_nat n <= softRetryLimit cfg + 1 /\
    sleeps delta =
      map (fun k => (inject_Z (initialRetryDelayMs cfg)
                     * retryBackoffFactor cfg ^ Z.of_nat k)%Q) (seq 0 (n - 1)) /\
    (forall j, (j < n - 1)%nat ->
       soft (outcome cfg email env (calls w + j)) \/
       thrown (outcome cfg email env (calls w + j))) /\
    (Z.of_nat n < softRetryLimit cfg + 1 ->
       ~ soft (outcome cfg email env (calls w + n - 1)) /\
       ~ thrown (outcome cfg email env (calls w + n - 1))) /\
    match outcome cfg email env (calls w + n - 1) with
    | inl r =>
        if is_definitive (smtpStatus r) then res = r
        else res = mkResult (smtpStatus r)
                     (reasonCodes r ++ [smtp_soft_fails_exceeded]) (rawSmtpResponse r)
    | inr e =>
        res = mkResult unknown [smtp_connection_failed; smtp_timeout] (Some (message e))
    end.
Proof.
  intros HL. unfold validateSmtpWithRetry.
  destruct (retry_loop_run cfg email mx env (Z.to_nat (softRetryLimit cfg + 1)) 0 None w)
    as (n & delta & res & Hn & Hrun & Hsl & Hret & Hsurf & Hearly); [lia|lia|].
  exists n, delta, res. split; [exact Hrun|]. split; [lia|]. split; [lia|].
  split; [exact Hsl|]. split; [exact Hret|]. split; [intros Hlt; apply Hearly; lia|].
  exact Hsurf.
Qed.

Lemma validateSmtpWithRetry_policy_witness :
  0 <= softRetryLimit (cfg_example false) /\
  exists n delta res,
    validateSmtpWithRetry "user@example.com" (mkMx "mx1.example.com" 10)
      (cfg_example false) env_rejecting (mkWorld O []) =
    (inl res, mkWorld n delta) /\ (1 <= n)%nat.
Proof.
  assert (H : 0 <= softRetryLimit (cfg_example false)) by (simpl; lia).
  split; [exact H|].
  destruct (validateSmtpWithRetry_policy (cfg_example false) "user@example.com"
              (mkMx "mx1.example.com" 10) env_rejecting (mkWorld O []) H)
    as (n & delta & res & Hrun & Hn & _).
  exists n, delta, res. split; [exact Hrun|exact Hn].
Defined.

Example retry_on_greylisting :
  let out := run (validateSmtpWithRetry "user@example.com" (mkMx "mx1.example.com" 10)
                    (cfg_example false))
               (mkEnv (inl (mkMxResult true None))
                  (fun _ => mkAttempt None (rcpt_session "450 4.2.1 try later"))
                  (fun _ => "") (fun _ => 0%Q)) in
  (exists raw,
     fst out = inl (mkResult temporarily_unavailable
                      [smtp_temporarily_unavailable; smtp_greylisted;
                       smtp_soft_fails_exceeded] raw)) /\
  calls (snd out) = 2%nat.
Proof. vm_compute. split; [eexists|]; reflexivity. Qed.

End RetryPolicyClaim.

(** ** The orchestrator: ordering of the exchangers *)

Section ExchangerOrder.
Import Orchestrator.

Definition priorities (l : list MxRecord) : list Z := priority <$> l.

Lemma insert_by_priority_perm x l : insert_by_priority x l ≡ₚ x :: l.
Proof.
  induction l as [|y l IH]; simpl; [reflexivity|].
  destruct (priority x <=? priority y); [reflexivity|].
  rewrite IH. apply perm_swap.
Qed.

Lemma sort_by_priority_perm l : sort_by_priority l ≡ₚ l.
Proof.
  induction l as [|x l IH]; simpl; [reflexivity|].
  rewrite insert_by_priority_perm. now rewrite IH.
Qed.

Lemma insert_by_priority_sorted x l :
  Sorted Z.le (priorities l) -> Sorted Z.le (priorities (insert_by_priority x l)).
Proof.
  induction l as [|y l IH]; simpl; intros Hs.
  - repeat constructor.
  - destruct (priority x <=? priority y) eqn:E; simpl.
    + apply Z.leb_le in E. constructor; [exact Hs|]. constructor. exact E.
    + apply Z.leb_gt in E. inversion Hs as [|? ? Hs' Hhd]; subst.
      constructor; [now apply IH|].
      destruct l as [|z l]; simpl.
      * constructor. lia.
      * destruct (priority x <=? priority z); simpl; constructor.
        -- lia.
        -- inversion Hhd; subst. assumption.
Qed.

Lemma sort_by_priority_sorted l : Sorted Z.le (priorities (sort_by_priority l)).
Proof.
  induction l as [|x l IH]; simpl; [constructor|].
  now apply insert_by_priority_sorted.
Qed.

(** Exchanging one element with a later one. *)
Lemma replace_later_perm (x y : MxRecord) (t : list MxRecord) (j : nat) :
  t !! j = Some y -> y :: <[j := x]> t ≡ₚ x :: t.
Proof.
  revert j. induction t as [|h t IH]; intros [|j] Hj; simpl in *; try discriminate.
  - injection Hj as ->. apply perm_swap.
  - rewrite perm_swap. rewrite (IH j Hj). apply perm_swap.
Qed.

Lemma swap_ordered_perm (a : list MxRecord) : forall (i j : nat) (x y : MxRecord),
  (i < j)%nat -> a !! i = Some x -> a !! j = Some y ->
  <[j := x]> (<[i := y]> a) ≡ₚ a.
Proof.
  induction a as [|h t IH]; intros i j x y Hij Hi Hj; [discriminate|].
  destruct j as [|j]; [lia|]. destruct i as [|i]; simpl in *.
  - injection Hi as ->. now apply replace_later_perm.
  - apply perm_skip. apply (IH i j x y); [lia|assumption..].
Qed.

Lemma swap_at_perm (a : list MxRecord) (k rand : nat) : swap_at a k rand ≡ₚ a.
Proof.
  unfold swap_at.
  destruct (a !! k) as [ak|] eqn:Ek; [|reflexivity].
  destruct (a !! rand) as [arand|] eqn:Er; [|reflexivity].
  destruct (Nat.lt_trichotomy k rand) as [Hlt|[->|Hgt]].
  - now apply (swap_ordered_perm a k rand ak arand).
  - rewrite Er in Ek. injection Ek as ->.
    rewrite list_insert_insert_eq. now rewrite list_insert_id.
  - rewrite list_insert_insert_ne by lia.
    now apply (swap_ordered_perm a rand k arand ak).
Qed.

Lemma swap_at_length (a : list MxRecord) (k rand : nat) :
  length (swap_at a k rand) = length a.
Proof.
  unfold swap_at. destruct (a !! k); [|reflexivity].
  destruct (a !! rand); [|reflexivity]. now rewrite !length_insert.
Qed.

Lemma swap_at_priorities (a : list MxRecord) (k rand : nat) (p : Z) :
  priorities a !! k = Some p -> priorities a !! rand = Some p ->
  priorities (swap_at a k rand) = priorities a.
Proof.
  unfold priorities, swap_at. rewrite !list_lookup_fmap.
  destruct (a !! k) as [ak|] eqn:Ek; [|discriminate].
  destruct (a !! rand) as [arand|] eqn:Er; [|discriminate].
  simpl. intros [= Hk] [= Hr].
  rewrite !list_fmap_insert.
  rewrite (list_insert_id (priority <$> a) k (priority arand)).
  - apply list_insert_id. rewrite list_lookup_fmap, Er. simpl. congruence.
  - rewrite list_lookup_fmap, Ek. simpl. congruence.
Qed.


Variable rnd : nat -> Q.
Hypothesis rnd_unit : forall d, (0 <= rnd d)%Q /\ (rnd d < 1)%Q.

Lemma random_below_lt (d n : nat) : (0 < n)%nat -> (random_below (rnd d) n < n)%nat.
Proof.
  intros Hn. unfold random_below. destruct (rnd_unit d) as [_ Hu].
  set (m := Z.of_nat n). assert (Hm : 0 < m) by (subst m; lia).
  assert (Hx : (rnd d * inject_Z m < 1 * inject_Z m)%Q).
  { apply Qmult_lt_compat_r; [|exact Hu].
    change (inject_Z 0 < inject_Z m)%Q. rewrite <- Zlt_Qlt. exact Hm. }
  rewrite Qmult_1_l in Hx.
  assert (Hf : Qfloor (rnd d * inject_Z m) < m).
  { rewrite Zlt_Qlt. eapply Qle_lt_trans; [apply Qfloor_le|exact Hx]. }
  lia.
Qed.

Lemma same_priority_run_members (p : Z) (l : list MxRecord) : forall x,
  (x < same_priority_run p l)%nat ->
  exists r, l !! x = Some r /\ priority r = p.
Proof.
  induction l as [|r l IH]; simpl; intros x Hx; [lia|].
  destruct (priority r =? p) eqn:E; [|lia]. apply Z.eqb_eq in E.
  destruct x as [|x]; simpl; [eauto|]. apply IH. lia.
Qed.

Lemma group_end_members (a : list MxRecord) (i : nat) (r : MxRecord) :
  a !! i = Some r ->
  (i < group_end a (priority r) i)%nat /\
  forall x, (i <= x < group_end a (priority r) i)%nat ->
            priorities a !! x = Some (priority r).
Proof.
  intros Hi. unfold group_end. split.
  - rewrite (drop_S a r i Hi). simpl. rewrite Z.eqb_refl. lia.
  - intros x Hx.
    destruct (same_priority_run_members (priority r) (drop i a) (x - i)) as (r' & Hr' & Hp);
      [lia|].
    rewrite lookup_drop in Hr'. replace (i + (x - i))%nat with x in Hr' by lia.
    unfold priorities. rewrite list_lookup_fmap, Hr'. simpl. now rewrite Hp.
Qed.

Lemma shuffle_group_spec (p : Z) (n : nat) : forall (a : list MxRecord) (i d : nat),
  (forall x, (i <= x <= i + n)%nat -> priorities a !! x = Some p) ->
  fst (shuffle_group rnd a i n d) ≡ₚ a /\
  priorities (fst (shuffle_group rnd a i n d)) = priorities a.
Proof.
  induction n as [|n IH]; intros a i d Hgroup; simpl; [split; reflexivity|].
  set (rand := (i + random_below (rnd d) (i + S n - i + 1))%nat).
  assert (Hrand : (i <= rand <= i + S n)%nat).
  { subst rand. pose proof (random_below_lt d (i + S n - i + 1)). lia. }
  assert (Hp : priorities (swap_at a (i + S n) rand) = priorities a).
  { apply (swap_at_priorities a (i + S n) rand p); apply Hgroup; lia. }
  destruct (IH (swap_at a (i + S n) rand) i (S d)) as [Hperm Hprio].
  { intros x Hx. rewrite Hp. apply Hgroup. lia. }
  split.
  - rewrite Hperm. apply swap_at_perm.
  - now rewrite Hprio.
Qed.

Lemma shuffle_groups_spec (fuel : nat) : forall (a : list MxRecord) (i d : nat),
  shuffle_groups fuel rnd a i d ≡ₚ a /\
  priorities (shuffle_groups fuel rnd a i d) = priorities a.
Proof.
  induction fuel as [|fuel IH]; intros a i d; simpl; [split; reflexivity|].
  destruct (a !! i) as [r|] eqn:Hi; [|split; reflexivity].
  destruct (group_end_members a i r Hi) as [Hlt Hgroup].
  destruct (shuffle_group_spec (priority r) (group_end a (priority r) i - 1 - i) a i d)
    as [Hperm Hprio].
  { intros x Hx. apply Hgroup. lia. }
  destruct (shuffle_group rnd a i (group_end a (priority r) i - 1 - i) d) as [a' d'].
  simpl in Hperm, Hprio.
  destruct (IH a' (group_end a (priority r) i) d') as [Hperm' Hprio'].
  split.
  - now rewrite Hperm'.
  - now rewrite Hprio'.
Qed.

Lemma shuffle_group_length (n : nat) : forall (a : list MxRecord) (i d : nat),
  length (fst (shuffle_group rnd a i n d)) = length a.
Proof.
  induction n as [|n IH]; intros a i d; simpl; [reflexivity|].
  rewrite IH. apply swap_at_length.
Qed.

(** The turns allowed to the outer loop are enough: allowing more does
    not change what it computes. *)
Lemma shuffle_groups_fuel (fuel : nat) : forall (extra : nat) (a : list MxRecord) (i d : nat),
  (length a - i <= fuel)%nat ->
  shuffle_groups (fuel + extra) rnd a i d = shuffle_groups fuel rnd a i d.
Proof.
  induction fuel as [|fuel IH]; intros extra a i d Hfuel.
  - simpl. destruct extra as [|extra]; simpl; [reflexivity|].
    rewrite lookup_ge_None_2 by lia. reflexivity.
  - simpl. destruct (a !! i) as [r|] eqn:Hi; [|reflexivity].
    destruct (group_end_members a i r Hi) as [Hlt _].
    pose proof (shuffle_group_length (group_end a (priority r) i - 1 - i) a i d) as Hlen.
    destruct (shuffle_group rnd a i (group_end a (priority r) i - 1 - i) d) as [a' d'].
    simpl in Hlen. apply IH. apply lookup_lt_Some in Hi. lia.
Qed.

End ExchangerOrder.

(** ** The orchestrator: its calls are made in program order *)

Section TraceGrowth.
Import Orchestrator.

(** The computation only adds to the trace of the world it starts in. *)
Definition appending {A} (m : M A) : Prop :=
  forall env w, exists delta, trace (snd (m env w)) = (trace w ++ delta)%list.

Lemma appending_ret {A} (a : A) : appending (ret a).
Proof. intros env w. exists []. simpl. now rewrite app_nil_r. Qed.

Lemma appending_throw {A} (e : JsError) : appending (@throw A e).
Proof. intros env w. exists []. simpl. now rewrite app_nil_r. Qed.

Lemma appending_emit (ev : Event) : appending (emit ev).
Proof. intros env w. now exists [ev]. Qed.

Lemma appending_bind {A B} (m : M A) (f : A -> M B) :
  appending m -> (forall a, appending (f a)) -> appending (bind m f).
Proof.
  intros Hm Hf env w. unfold bind. destruct (Hm env w) as [d1 H1].
  destruct (m env w) as [[a|e] w1]; simpl in *.
  - destruct (Hf a env w1) as [d2 H2]. exists (d1 ++ d2)%list.
    now rewrite H2, H1, app_assoc.
  - now exists d1.
Qed.

Lemma appending_try_catch {A} (m : M A) (handler : JsError -> M A) :
  appending m -> (forall e, appending (handler e)) -> appending (try_catch m handler).
Proof.
  intros Hm Hh env w. unfold try_catch. destruct (Hm env w) as [d1 H1].
  destruct (m env w) as [[a|e] w1]; simpl in *.
  - now exists d1.
  - destruct (Hh e env w1) as [d2 H2]. exists (d1 ++ d2)%list.
    now rewrite H2, H1, app_assoc.
Qed.

Lemma appending_validateSmtpSingle email mxHost cfg :
  appending (validateSmtpSingle email mxHost cfg).
Proof. intros env w. rewrite validateSmtpSingle_run. simpl. eauto. Qed.

Lemma appending_detectCatchAll mxHost domain cfg :
  appending (detectCatchAll mxHost domain cfg).
Proof.
  intros env w. destruct (detectCatchAll_run cfg domain env mxHost w) as (c & -> & _).
  simpl. eauto.
Qed.

Lemma appending_after_retries last : appending (after_retries last).
Proof. destruct last; apply appending_ret. Qed.

Lemma appending_retry_loop email mx cfg (turns : nat) : forall a last,
  appending (retry_loop turns email mx cfg a last).
Proof.
  induction turns as [|turns IH]; intros a last; simpl; [apply appending_after_retries|].
  destruct (a <=? softRetryLimit cfg); [|apply appending_after_retries].
  apply appending_bind.
  - intros env w. rewrite retry_turn_run.
    destruct (outcome cfg email env (calls w)) as [r|e].
    + destruct (is_definitive (smtpStatus r)); [simpl; eauto|].
      destruct (bool_decide (smtpStatus r = temporarily_unavailable)
                && (a <? softRetryLimit cfg)); simpl; [rewrite <- app_assoc|]; eauto.
    + destruct (a <? softRetryLimit cfg); simpl; [rewrite <- app_assoc|]; eauto.
  - intros [r|last'|last']; [apply appending_ret|apply IH|apply appending_after_retries].
Qed.

Lemma appending_catch_all_loop domain cfg (mxToTry : list MxRecord) : forall c,
  appending (catch_all_loop domain cfg mxToTry c).
Proof.
  induction mxToTry as [|mx rest IH]; intros c; simpl; [apply appending_ret|].
  destruct (String.eqb (exchange mx) ""); [apply IH|].
  apply appending_bind; [apply appending_detectCatchAll|].
  intros [| |]; [apply appending_ret|apply appending_ret|apply IH].
Qed.

Lemma appending_address_loop email cfg (mxToTry : list MxRecord) : forall reasons,
  appending (address_loop email cfg mxToTry reasons).
Proof.
  induction mxToTry as [|mx rest IH]; intros reasons; simpl; [apply appending_ret|].
  destruct (String.eqb (exchange mx) ""); [apply IH|].
  apply appending_bind.
  - apply appending_try_catch.
    + apply appending_bind; [apply appending_retry_loop|].
      intros r. destruct (is_definitive (smtpStatus r)); apply appending_ret.
    + intros e. apply appending_ret.
  - intros [r|reasons']; [apply appending_ret|apply IH].
Qed.

(** The first call of the probing loop is the request of a slot for the
    first exchanger that has a host name. *)
Lemma catch_all_loop_first domain cfg env (mxToTry : list MxRecord) (mx : MxRecord) :
  head (probed mxToTry) = Some mx ->
  forall c w, trace w = [] ->
  exists rest,
    trace (snd (catch_all_loop domain cfg mxToTry c env w))
    = AcquireSlot (exchange mx) (throttle_config cfg) :: rest.
Proof.
  induction mxToTry as [|mx0 rest IH]; intros Hhead c w Hw; [discriminate|].
  simpl. unfold probed in Hhead. rewrite filter_cons in Hhead.
  destruct (String.eqb_spec (exchange mx0) "") as [E|E].
  - rewrite decide_False in Hhead by tauto. now apply IH.
  - rewrite decide_True in Hhead by assumption. injection Hhead as ->.
    unfold bind.
    destruct (detectCatchAll_run cfg domain env (exchange mx) w) as (c' & -> & _).
    rewrite Hw. simpl (_ ++ _)%list.
    set (w1 := mkWorld _ _).
    assert (Hk : appending (fun env w =>
                   match c' with
                   | yes => ret (inl catch_all_verdict) env w
                   | no => ret (inr no) env w
                   | inconclusive => catch_all_loop domain cfg rest c' env w
                   end)).
    { destruct c'; [apply appending_ret|apply appending_ret|
                    apply appending_catch_all_loop]. }
    destruct (Hk env w1) as [delta Hd].
    destruct c'; simpl in Hd |- *; rewrite Hd; subst w1; simpl; eauto.
Qed.

Lemma validateSmtp_first_slot email domain cfg env (records : list MxRecord)
    (mx : MxRecord) :
  mx_lookup env = inl (mkMxResult true (Some records)) ->
  records <> [] ->
  head (probed (mx_to_try cfg (random env) records)) = Some mx ->
  exists rest,
    trace (snd (run (validateSmtp email domain cfg) env))
    = AcquireSlot (exchange mx) (throttle_config cfg) :: rest.
Proof.
  intros Hmx Hne Hhead.
  unfold run, validateSmtp, try_catch, bind at 1, validateMx. rewrite Hmx. simpl.
  destruct records as [|r0 records]; [contradiction|]. simpl.
  set (mxToTry := mx_to_try cfg (random env) (r0 :: records)) in *.
  destruct (catch_all_loop_first domain cfg env mxToTry mx Hhead inconclusive
              (mkWorld O []) eq_refl) as [rest Hfirst].
  assert (Hk : forall probed_result : SmtpValidationResult + CatchAll,
             appending (fun env w =>
               match probed_result with
               | inl verdict => ret verdict env w
               | inr _ =>
                   bind (address_loop email cfg mxToTry [])
                     (fun swept =>
                        match swept with
                        | inl result => ret result
                        | inr failureReasons => ret (all_failed mxToTry failureReasons)
                        end) env w
               end)).
  { intros [v|c]; [apply appending_ret|].
    apply appending_bind; [apply appending_address_loop|].
    intros [r|fr]; apply appending_ret. }
  unfold bind at 1.
  destruct (catch_all_loop domain cfg mxToTry inconclusive env (mkWorld O []))
    as [[pr|e] w1]; simpl in Hfirst.
  - destruct (Hk pr env w1) as [delta Hd].
    destruct pr as [v|c]; simpl in Hd |- *.
    + rewrite Hfirst. eauto.
    + destruct (bind (address_loop email cfg mxToTry []) _ env w1) as [[r|e] w2];
        simpl in Hd |- *; rewrite Hd, Hfirst; simpl; eauto.
  - simpl. rewrite Hfirst. eauto.
Qed.

End TraceGrowth.

Section ExchangerOrderClaim.
Import Orchestrator.

Lemma slice0_nonneg {A} (n : Z) (l : list A) :
  0 <= n -> slice0 n l = take (Z.to_nat n) l.
Proof.
  intros Hn. unfold slice0. now replace (n <? 0) with false by (symmetry; apply Z.ltb_ge; lia).
Qed.

Lemma slice0_prefix {A} (n : Z) (l : list A) : exists m, slice0 n l = take m l.
Proof. unfold slice0. destruct (n <? 0); eexists; reflexivity. Qed.

Definition three_exchangers : list MxRecord :=
  [mkMx "mx1" 10; mkMx "mx2" 10; mkMx "mx3" 20].

(** The list the shuffle works on and leaves: the sorted records, shuffled
    inside the groups when the configuration asks for it. *)
Definition ordered (cfg : SmtpValidationConfig) (rnd : nat -> Q)
    (records : list MxRecord) : list MxRecord :=
  if randomizeSamePriority cfg
  then randomize_same_priority rnd (sort_by_priority records)
  else sort_by_priority records.

Lemma ordered_spec cfg rnd records :
  (forall d, (0 <= rnd d)%Q /\ (rnd d < 1)%Q) ->
  ordered cfg rnd records ≡ₚ records /\
  priorities (ordered cfg rnd records) = priorities (sort_by_priority records).
Proof.
  intros Hrnd. unfold ordered. destruct (randomizeSamePriority cfg).
  - unfold randomize_same_priority.
    destruct (shuffle_groups_spec rnd Hrnd (length (sort_by_priority records))
                (sort_by_priority records) O O) as [Hperm Hprio].
    split; [|exact Hprio]. rewrite Hperm. apply sort_by_priority_perm.
  - split; [apply sort_by_priority_perm|reflexivity].
Qed.

(** C8. For a non-empty list of exchangers, draws in [0, 1) and a
    non-negative attempt bound, the list [validateSmtp] attempts is the
    prefix of length at most [maxMxAttempts] of a permutation of the input
    whose priorities ascend and are, position by position, those of the
    plainly sorted list: the shuffle moves entries inside a group of equal
    priority only. The first slot [validateSmtp] asks for is for the first
    exchanger of that list with a host name. For exchangers mx1 and mx2 of
    priority 10 and mx3 of priority 20, mx3 is never first: with two
    attempts allowed the list holds two exchangers, the first of priority
    10, and the first slot asked for is for mx1 or mx2. *)
Theorem mx_to_try_order (cfg : SmtpValidationConfig) (rnd : nat -> Q)
    (records : list MxRecord) :
  records <> [] ->
  (forall d, (0 <= rnd d)%Q /\ (rnd d < 1)%Q) ->
  0 <= maxMxAttempts cfg ->
  (exists full,
      full ≡ₚ records /\
      Sorted Z.le (priorities full) /\
      priorities full = priorities (sort_by_priority records) /\
      mx_to_try cfg rnd records = take (Z.to_nat (maxMxAttempts cfg)) full /\
      Z.of_nat (length (mx_to_try cfg rnd records)) <= maxMxAttempts cfg) /\
  (forall email domain lookup attempts locals mx,
     let env := mkEnv lookup attempts locals rnd in
     lookup = inl (mkMxResult true (Some records)) ->
     head (probed (mx_to_try cfg rnd records)) = Some mx ->
     exists rest,
       trace (snd (run (validateSmtp email domain cfg) env))
       = AcquireSlot (exchange mx) (throttle_config cfg) :: rest) /\
  head (mx_to_try cfg rnd three_exchangers) <> Some (mkMx "mx3" 20) /\
  (maxMxAttempts cfg = 2 ->
   (exists first second,
      mx_to_try cfg rnd three_exchangers = [first; second] /\ priority first = 10) /\
   (forall email domain attempts locals,
      let env := mkEnv (inl (mkMxResult true (Some three_exchangers)))
                   attempts locals rnd in
      exists first rest,
        trace (snd (run (validateSmtp email domain cfg) env))
        = AcquireSlot first (throttle_config cfg) :: rest /\
        (first = "mx1" \/ first = "mx2"))).
Proof.
  intros Hne Hrnd Hmax.
  assert (Htry : forall recs,
            mx_to_try cfg rnd recs = take (Z.to_nat (maxMxAttempts cfg)) (ordered cfg rnd recs)).
  { intros recs. unfold mx_to_try. fold (ordered cfg rnd recs). now apply slice0_nonneg. }
  split; [|split].
  - destruct (ordered_spec cfg rnd records Hrnd) as [Hperm Hprio].
    exists (ordered cfg rnd records).
    split; [exact Hperm|]. split; [rewrite Hprio; apply sort_by_priority_sorted|].
    split; [exact Hprio|]. split; [apply Htry|].
    rewrite Htry, length_take. lia.
  - intros email domain lookup attempts locals mx env Hlookup Hhead.
    apply (validateSmtp_first_slot email domain cfg env records mx);
      [subst env; simpl; exact Hlookup|exact Hne|exact Hhead].
  - destruct (ordered_spec cfg rnd three_exchangers Hrnd) as [Hperm Hprio].
    rewrite Htry.
    destruct (ordered cfg rnd three_exchangers) as [|a [|b [|c [|e rest]]]] eqn:Eo;
      try discriminate Hprio.
    injection Hprio as Ha Hb Hc.
    split.
    + destruct (Z.to_nat (maxMxAttempts cfg)); simpl; [discriminate|].
      intros [= ->]. simpl in Ha. discriminate.
    + intros Hmax2. split; [rewrite Hmax2; simpl; eauto|].
      intros email domain attempts locals env.
      assert (Hin : a ∈ three_exchangers) by (rewrite <- Hperm; left).
      assert (Hfirst : exchange a = "mx1" \/ exchange a = "mx2").
      { unfold three_exchangers in Hin. rewrite !elem_of_cons in Hin.
        destruct Hin as [->|[->|[->|Hin]]]; simpl; auto.
        - simpl in Ha. discriminate.
        - now apply elem_of_nil in Hin. }
      destruct (validateSmtp_first_slot email domain cfg env three_exchangers a)
        as [rest Htrace].
      * reflexivity.
      * discriminate.
      * subst env. cbn [random]. rewrite Htry, Eo, Hmax2. simpl.
        unfold probed. rewrite filter_cons.
        rewrite decide_True; [reflexivity|].
        destruct Hfirst as [-> | ->]; discriminate.
      * exists (exchange a), rest. split; [exact Htrace|exact Hfirst].
Qed.

Lemma mx_to_try_order_witness :
  (three_exchangers <> [] /\
   (forall d : nat, (0 <= 1 # 2)%Q /\ (1 # 2 < 1)%Q) /\
   0 <= maxMxAttempts (cfg_example false)) /\
  head (mx_to_try (cfg_example false) (fun _ => 1 # 2) three_exchangers)
    <> Some (mkMx "mx3" 20).
Proof.
  assert (H1 : three_exchangers <> []) by discriminate.
  assert (H2 : forall d : nat, (0 <= 1 # 2)%Q /\ (1 # 2 < 1)%Q)
    by (intros d; split; reflexivity || discriminate).
  assert (H3 : 0 <= maxMxAttempts (cfg_example false)) by (simpl; lia).
  split; [tauto|].
  exact (proj1 (proj2 (proj2 (mx_to_try_order (cfg_example false) (fun _ => 1 # 2)
                                three_exchangers H1 H2 H3)))).
Defined.

Example shuffle_draw_high :
  mx_to_try (cfg_example false) (fun _ => 9 # 10) three_exchangers
  = [mkMx "mx1" 10; mkMx "mx2" 10].
Proof. reflexivity. Qed.

Example shuffle_draw_low :
  mx_to_try (cfg_example false) (fun _ => 1 # 10) three_exchangers
  = [mkMx "mx2" 10; mkMx "mx1" 10].
Proof. reflexivity. Qed.

End ExchangerOrderClaim.

(** ** The distributed backend: the acquisition script *)

Section ScriptFacts.
Import Redis.

Lemma get_number_insert (db : Db) (k k' : string) (e : Entry) :
  get_number (<[k := e]> db) k' = if decide (k = k') then value e else get_number db k'.
Proof. unfold get_number. rewrite lookup_insert. now case_decide. Qed.

Lemma get_number_incr (db : Db) (k k' : string) :
  get_number (snd (incr k db)) k' =
  if decide (k = k') then get_number db k + 1 else get_number db k'.
Proof. unfold incr; simpl. now rewrite get_number_insert. Qed.

Lemma get_number_decr (db : Db) (k k' : string) :
  get_number (snd (decr k db)) k' =
  if decide (k = k') then get_number db k - 1 else get_number db k'.
Proof. unfold decr; simpl. now rewrite get_number_insert. Qed.

Lemma get_number_set_ex (db : Db) (k k' : string) (v s : Z) :
  get_number (set_ex k v s db) k' = if decide (k = k') then v else get_number db k'.
Proof. unfold set_ex. now rewrite get_number_insert. Qed.

Lemma get_number_expire (db : Db) (k k' : string) (s : Z) :
  get_number (expire k s db) k' = get_number db k'.
Proof.
  unfold expire. destruct (db !! k) as [e|] eqn:E; [|reflexivity].
  rewrite get_number_insert. case_decide; [subst k'|reflexivity].
  unfold get_number. now rewrite E.
Qed.

Variables g m p l : string.
Hypothesis keys_ne :
  g <> m /\ g <> p /\ g <> l /\ m <> p /\ m <> l /\ p <> l.

(** The four gates, read on the store. *)
Definition gates (maxGlobal maxMx now minInterval : Z) (db : Db) : Prop :=
  get_number db p <= now /\
  (get_number db l <= 0 \/ minInterval <= now - get_number db l) /\
  get_number db g < maxGlobal /\
  get_number db m < maxMx.

Lemma acquire_script_spec (maxGlobal maxMx ttlSeconds now minInterval : Z) (db : Db) :
  let r := fst (acquire_script g m p l maxGlobal maxMx ttlSeconds now minInterval db) in
  let db' := snd (acquire_script g m p l maxGlobal maxMx ttlSeconds now minInterval db) in
  (gates maxGlobal maxMx now minInterval db ->
     r = mkReply 1 0 (get_number db g + 1) (get_number db m + 1) 0 /\
     get_number db' g = get_number db g + 1 /\
     get_number db' m = get_number db m + 1 /\
     get_number db' l = now /\
     get_number db' p = get_number db p) /\
  (~ gates maxGlobal maxMx now minInterval db ->
     db' = db /\ acquired r = 0 /\ 0 < wait_ms r /\
     (reason_code r = 1 /\ now < get_number db p /\
        wait_ms r = get_number db p - now /\ global_count r = 0 /\ mx_count r = 0
      \/ reason_code r = 2 /\ get_number db p <= now /\
         now - get_number db l < minInterval /\
         wait_ms r = minInterval - (now - get_number db l) /\
         global_count r = 0 /\ mx_count r = 0
      \/ reason_code r = 3 /\ maxGlobal <= get_number db g /\
         global_count r = get_number db g /\ mx_count r = get_number db m
      \/ reason_code r = 4 /\ get_number db g < maxGlobal /\ maxMx <= get_number db m /\
         global_count r = get_number db g /\ mx_count r = get_number db m)).
Proof.
  destruct keys_ne as (Hgm & Hgp & Hgl & Hmp & Hml & Hpl).
  unfold gates, acquire_script.
  destruct (now <? get_number db p) eqn:E1.
  { apply Z.ltb_lt in E1. simpl. split; [intros (? & _); lia|].
    intros _. repeat split; lia. }
  apply Z.ltb_ge in E1.
  destruct ((0 <? get_number db l) && (now - get_number db l <? minInterval)) eqn:E2.
  { apply andb_prop in E2 as [E2 E2']. apply Z.ltb_lt in E2, E2'. simpl.
    split; [intros (_ & ? & _); lia|].
    intros _. repeat split; lia. }
  assert (E2' : get_number db l <= 0 \/ minInterval <= now - get_number db l).
  { apply andb_false_iff in E2 as [E2|E2]; [left; apply Z.ltb_ge in E2|right; apply Z.ltb_ge in E2];
      lia. }
  clear E2.
  destruct (maxGlobal <=? get_number db g) eqn:E3.
  { apply Z.leb_le in E3. simpl. split; [intros (_ & _ & ? & _); lia|].
    intros _. repeat split; lia. }
  apply Z.leb_gt in E3.
  destruct (maxMx <=? get_number db m) eqn:E4.
  { apply Z.leb_le in E4. simpl. split; [intros (_ & _ & _ & ?); lia|].
    intros _. repeat split; lia. }
  apply Z.leb_gt in E4.
  split; [|intros Hn; exfalso; apply Hn; repeat split; assumption].
  intros _. unfold incr. cbn beta iota zeta. cbn [fst snd].
  rewrite (get_number_insert db g m), decide_False by assumption.
  split; [reflexivity|].
  destruct (get_number db m + 1 =? 1), (get_number db g + 1 =? 1);
    rewrite ?get_number_expire, !get_number_set_ex, !get_number_insert;
    repeat split; repeat case_decide; congruence || reflexivity.
Qed.


Lemma gates_dec (maxGlobal maxMx now minInterval : Z) (db : Db) :
  gates maxGlobal maxMx now minInterval db \/ ~ gates maxGlobal maxMx now minInterval db.
Proof. unfold gates. lia. Qed.


Definition interval_nonneg (op : Operation) : Prop :=
  match op with
  | Acquire _ _ _ _ minInterval => 0 <= minInterval
  | _ => True
  end.

Definition granted (r : option Reply) : Prop :=
  match r with
  | Some r => acquired r = 1
  | None => False
  end.

Lemma apply_op_acquire maxGlobal maxMx ttlSeconds now minInterval db :
  apply_op g m p l (Acquire maxGlobal maxMx ttlSeconds now minInterval) db =
  (Some (fst (acquire_script g m p l maxGlobal maxMx ttlSeconds now minInterval db)),
   snd (acquire_script g m p l maxGlobal maxMx ttlSeconds now minInterval db)).
Proof.
  simpl. now destruct (acquire_script g m p l maxGlobal maxMx ttlSeconds now minInterval db).
Qed.


(** Once the last attempt was recorded at [t], every later grant comes at
    least the caller's minimum interval after [t]. *)
Lemma serve_all_after (t : Z) (ops : list Operation) : forall db,
  Forall interval_nonneg ops ->
  0 < t -> t <= get_number db l ->
  forall j maxGlobal maxMx ttlSeconds now minInterval,
    ops !! j = Some (Acquire maxGlobal maxMx ttlSeconds now minInterval) ->
    (exists r, fst (serve_all g m p l ops db) !! j = Some r /\ granted r) ->
    t + minInterval <= now.
Proof.
  destruct keys_ne as (Hgm & Hgp & Hgl & Hmp & Hml & Hpl).
  induction ops as [|op ops IH]; intros db Hall Ht Hl j mg mm tt now mi Hj Hgr;
    [discriminate|].
  inversion Hall as [|? ? Hop Hall']; subst.
  simpl in Hgr.
  assert (Hstep : t <= get_number (snd (apply_op g m p l op db)) l /\
                  (granted (fst (apply_op g m p l op db)) ->
                   match op with
                   | Acquire _ _ _ now' mi' => t + mi' <= now'
                   | _ => True
                   end)).
  { destruct op as [maxGlobal maxMx ttlSeconds now' mi'| | |pu secs].
    - rewrite apply_op_acquire. cbn [fst snd]. simpl in Hop.
      pose proof (acquire_script_spec maxGlobal maxMx ttlSeconds now' mi' db)
        as [Hyes Hno].
      destruct (gates_dec maxGlobal maxMx now' mi' db) as [Hgates|Hgates].
      + destruct (Hyes Hgates) as (_ & _ & _ & Hl' & _).
        destruct Hgates as (_ & Hint & _). rewrite Hl'. split; lia.
      + destruct (Hno Hgates) as (-> & Ha & _). split; [assumption|].
        unfold granted. lia.
    - cbn [apply_op fst snd]. rewrite get_number_decr.
      case_decide; [congruence|tauto].
    - cbn [apply_op fst snd]. rewrite get_number_decr.
      case_decide; [congruence|tauto].
    - cbn [apply_op fst snd]. rewrite get_number_set_ex.
      case_decide; [congruence|tauto]. }
  destruct (apply_op g m p l op db) as [r db'] eqn:E. cbn [fst snd] in Hstep.
  destruct Hstep as [Hl' Hr].
  specialize (IH db' Hall' Ht Hl').
  destruct (serve_all g m p l ops db') as [rs db''] eqn:Es. cbn [fst snd] in *.
  destruct j as [|j]; simpl in Hj, Hgr.
  - injection Hj as ->. destruct Hgr as (r' & [= <-] & Hgranted).
    exact (Hr Hgranted).
  - eapply IH; eassumption.
Qed.

(** Two grants for the host, the second served after the first. *)
Lemma serve_all_interval (ops : list Operation) : forall db i j
    maxGlobal1 maxMx1 ttl1 now1 minInterval1
    maxGlobal2 maxMx2 ttl2 now2 minInterval2,
  Forall interval_nonneg ops ->
  (i < j)%nat ->
  ops !! i = Some (Acquire maxGlobal1 maxMx1 ttl1 now1 minInterval1) ->
  ops !! j = Some (Acquire maxGlobal2 maxMx2 ttl2 now2 minInterval2) ->
  (exists r, fst (serve_all g m p l ops db) !! i = Some r /\ granted r) ->
  (exists r, fst (serve_all g m p l ops db) !! j = Some r /\ granted r) ->
  0 < now1 ->
  now1 + minInterval2 <= now2.
Proof.
  induction ops as [|op ops IH];
    intros db i j mg1 mm1 t1 now1 mi1 mg2 mm2 t2 now2 mi2 Hall Hij Hi Hj Hri Hrj Hpos;
    [discriminate|].
  inversion Hall as [|? ? Hop Hall']; subst.
  destruct j as [|j]; [lia|].
  simpl in Hri, Hrj.
  destruct (apply_op g m p l op db) as [r db'] eqn:E.
  destruct (serve_all g m p l ops db') as [rs db''] eqn:Es.
  cbn [fst] in Hri, Hrj. simpl in Hj, Hrj.
  destruct i as [|i]; simpl in Hi, Hri.
  - injection Hi as ->. destruct Hri as (r' & [= <-] & Hgranted).
    rewrite apply_op_acquire in E. injection E as <- <-.
    pose proof (acquire_script_spec mg1 mm1 t1 now1 mi1 db) as [Hyes Hno].
    destruct (gates_dec mg1 mm1 now1 mi1 db) as [Hgates|Hgates].
    + destruct (Hyes Hgates) as (_ & _ & _ & Hl' & _).
      refine (serve_all_after now1 ops
                (snd (acquire_script g m p l mg1 mm1 t1 now1 mi1 db))
                Hall' Hpos _ j mg2 mm2 t2 now2 mi2 Hj _).
      * rewrite Hl'. lia.
      * rewrite Es. exact Hrj.
    + destruct (Hno Hgates) as (_ & Ha & _). simpl in Hgranted. lia.
  - apply (IH db' i j mg1 mm1 t1 now1 mi1 mg2 mm2 t2 now2 mi2 Hall'); try assumption.
    + lia.
    + rewrite Es. exact Hri.
    + rewrite Es. exact Hrj.
Qed.

End ScriptFacts.

Section ThrottleKeys.
Import Redis.

Lemma append_cancel_l (h a b : string) : (h ++ a = h ++ b)%string -> a = b.
Proof.
  induction h as [|c h IH]; simpl; intros H; [exact H|].
  injection H as H. now apply IH.
Qed.

Ltac peel H h :=
  repeat (destruct h as [|? h]; simpl in H; [try discriminate H|];
          try discriminate H; injection H as ? H; subst).

Lemma host_concurrency_is_global (h : string) :
  (h ++ ":concurrency")%string = "global:concurrency" -> h = "global".
Proof.
  intros H.
  destruct h as [|c1 h]; [discriminate|]. injection H as -> H.
  destruct h as [|c2 h]; [discriminate|]. injection H as -> H.
  destruct h as [|c3 h]; [discriminate|]. injection H as -> H.
  destruct h as [|c4 h]; [discriminate|]. injection H as -> H.
  destruct h as [|c5 h]; [discriminate|]. injection H as -> H.
  destruct h as [|c6 h]; [discriminate|]. injection H as -> H.
  destruct h as [|c7 h]; [reflexivity|]. exfalso.
  injection H as -> H.
  peel H h.
Qed.

Lemma host_penalty_not_global (h : string) :
  (h ++ ":penalty")%string <> "global:concurrency".
Proof. intros H. peel H h. Qed.

Lemma host_lastAttempt_not_global (h : string) :
  (h ++ ":lastAttempt")%string <> "global:concurrency".
Proof. intros H. peel H h. Qed.

(** The four keys of a host are distinct, unless the host is named
    [global]: its counter key is then the global counter key. *)
Lemma throttle_keys_distinct (mxHost : string) :
  mxHost <> "global" ->
  globalKey <> mxKey mxHost /\ globalKey <> penaltyKey mxHost /\
  globalKey <> lastAttemptKey mxHost /\ mxKey mxHost <> penaltyKey mxHost /\
  mxKey mxHost <> lastAttemptKey mxHost /\ penaltyKey mxHost <> lastAttemptKey mxHost.
Proof.
  intros Hne. unfold globalKey, mxKey, penaltyKey, lastAttemptKey.
  repeat split; intros H.
  - apply (append_cancel_l "throttle:" "global:concurrency") in H.
    symmetry in H. apply host_concurrency_is_global in H. contradiction.
  - apply (append_cancel_l "throttle:" "global:concurrency") in H.
    symmetry in H. now apply host_penalty_not_global in H.
  - apply (append_cancel_l "throttle:" "global:concurrency") in H.
    symmetry in H. now apply host_lastAttempt_not_global in H.
  - apply (append_cancel_l "throttle:"), append_cancel_l in H. discriminate.
  - apply (append_cancel_l "throttle:"), append_cancel_l in H. discriminate.
  - apply (append_cancel_l "throttle:"), append_cancel_l in H. discriminate.
Qed.

Example global_host_keys_collide : mxKey "global" = globalKey.
Proof. reflexivity. Qed.

End ThrottleKeys.

(** ** The distributed backend: one atomic operation per acquisition *)

Section DistributedAcquire.
Import Redis.

Definition is_eval (req : Request) : bool :=
  match req with Eval _ _ _ _ _ _ _ _ _ => true | _ => false end.

Lemma acquireThrottleSlot_run mxHost maxGlobal maxMx ttlSeconds now minInterval srv :
  let out := acquire_script globalKey (mxKey mxHost) (penaltyKey mxHost)
               (lastAttemptKey mxHost) maxGlobal maxMx ttlSeconds now minInterval
               (numbers srv) in
  run_alone (acquireThrottleSlot true mxHost maxGlobal maxMx ttlSeconds now minInterval) srv
  = (decode (fst out), mkServer (snd out) (documents srv),
     [Eval globalKey (mxKey mxHost) (penaltyKey mxHost) (lastAttemptKey mxHost)
        maxGlobal maxMx ttlSeconds now minInterval]).
Proof.
  intros out. subst out. unfold acquireThrottleSlot. cbn [negb run_alone serve].
  destruct (acquire_script _ _ _ _ _ _ _ _ _ _) as [reply db]. reflexivity.
Qed.

(** The ceiling [RedisThrottleStore.acquireSlot] passes for the host. *)
Definition passed_ceiling (mxHost : string) (config : Throttle.ThrottleConfig)
    (srv : Server) : Z :=
  num_or (Throttle.maxConcurrency <$>
            (fst <$> documents srv !! stateKey (Js.toLowerCase mxHost)))
         (Z.min (Throttle.maxMxConcurrency config) 2).

Lemma acquireSlot_turn_run mxHost config ttlSeconds now srv :
  let h := Js.toLowerCase mxHost in
  let out := acquire_script globalKey (mxKey h) (penaltyKey h) (lastAttemptKey h)
               (Throttle.maxGlobalConcurrency config) (passed_ceiling mxHost config srv)
               ttlSeconds now (Throttle.perDomainMinIntervalMs config) (numbers srv) in
  let res := run_alone (acquireSlot_turn mxHost config ttlSeconds now) srv in
  numbers (snd (fst res)) = snd out /\
  length (filter (fun req => is_eval req = true) (snd res)) = 1%nat /\
  (fst (fst res) = SlotTaken <-> acquired (fst out) = 1).
Proof.
  intros h out res. subst res out. unfold passed_ceiling. fold h.
  unfold acquireSlot_turn. fold h. cbn [run_alone serve].
  unfold acquireThrottleSlot. cbn [negb and_then run_alone serve numbers documents].
  destruct (acquire_script _ _ _ _ _ _ _ _ _ _) as [reply db].
  cbn [and_then decode slot_acquired fst snd].
  destruct (acquired reply =? 1) eqn:Ea; cbn [negb run_alone serve fst snd numbers].
  - apply Z.eqb_eq in Ea. repeat split; auto.
  - apply Z.eqb_neq in Ea. repeat split; auto; intros; [discriminate|contradiction].
Qed.

(** With one global slot left, two acquisitions served one after the
    other are not both granted. *)
Lemma last_slot_taken_once (g m p l : string)
    (maxGlobal maxMx1 ttl1 now1 minInterval1 maxMx2 ttl2 now2 minInterval2 : Z) (db : Db) :
  g <> m /\ g <> p /\ g <> l /\ m <> p /\ m <> l /\ p <> l ->
  get_number db g + 1 = maxGlobal ->
  let rs := fst (serve_all g m p l
                   [Acquire maxGlobal maxMx1 ttl1 now1 minInterval1;
                    Acquire maxGlobal maxMx2 ttl2 now2 minInterval2] db) in
  ~ Forall granted rs.
Proof.
  intros Hkeys Hone rs Hboth. subst rs.
  cbn [serve_all] in Hboth. rewrite !apply_op_acquire in Hboth.
  cbn [fst snd] in Hboth.
  apply Forall_cons in Hboth as [H1 Hrest].
  apply Forall_cons in Hrest as [H2 _].
  simpl in H1, H2.
  pose proof (acquire_script_spec g m p l Hkeys maxGlobal maxMx1 ttl1 now1 minInterval1 db)
    as [Hyes1 Hno1].
  destruct (gates_dec g m p l maxGlobal maxMx1 now1 minInterval1 db) as [G1|G1];
    [|destruct (Hno1 G1) as (_ & Ha & _); lia].
  destruct (Hyes1 G1) as (_ & Hg' & _).
  set (db1 := snd (acquire_script g m p l maxGlobal maxMx1 ttl1 now1 minInterval1 db)) in *.
  pose proof (acquire_script_spec g m p l Hkeys maxGlobal maxMx2 ttl2 now2 minInterval2 db1)
    as [Hyes2 Hno2].
  destruct (gates_dec g m p l maxGlobal maxMx2 now2 minInterval2 db1) as [G2|G2];
    [|destruct (Hno2 G2) as (_ & Ha & _); lia].
  destruct G2 as (_ & _ & Hlt & _). lia.
Qed.

End DistributedAcquire.

(** ** The distributed throttle against the clock *)

Section ExpiryFacts.
Import Redis Expiry.

Lemma live_at_lookup (t : Z) (db : Db) (k : string) :
  live_at t db !! k =
  match db !! k with
  | Some e => if decide (lapsed t e) then None else Some e
  | None => None
  end.
Proof.
  unfold live_at. apply option_eq. intros e.
  rewrite map_lookup_filter_Some. cbn [snd].
  destruct (db !! k) as [e'|]; [|split; [intros [? _]; discriminate|discriminate]].
  destruct (decide (lapsed t e')) as [Hl|Hl]; split.
  - intros [[= ->] Hn]. contradiction.
  - discriminate.
  - intros [H _]. exact H.
  - intros [= ->]. split; [reflexivity|exact Hl].
Qed.


(** The key still reads at [t] as the store has it. *)
Definition kept (t : Z) (db : Db) (k : string) : Prop :=
  live_at t db !! k = db !! k.

Lemma kept_deadline (t : Z) (db : Db) (k : string) (v d : Z) :
  db !! k = Some (mkEntry v (Some d)) -> t <= d -> kept t db k.
Proof.
  intros Hk Hle. unfold kept. rewrite live_at_lookup, Hk.
  rewrite decide_False; [reflexivity|]. unfold lapsed; simpl. lia.
Qed.


End ExpiryFacts.

Section ClockedScript.
Import Redis Expiry.

Variables g m p l : string.
Hypothesis keys_ne :
  g <> m /\ g <> p /\ g <> l /\ m <> p /\ m <> l /\ p <> l.




Lemma apply_op_at_acquire (t maxGlobal maxMx ttl now minInterval : Z) (db : Db) :
  apply_op_at g m p l t (Acquire maxGlobal maxMx ttl now minInterval) db =
  (Some (fst (acquire_script g m p l maxGlobal maxMx (deadline t ttl) now minInterval
                (live_at t db))),
   snd (acquire_script g m p l maxGlobal maxMx (deadline t ttl) now minInterval
          (live_at t db))).
Proof. unfold apply_op_at. cbv zeta. apply apply_op_acquire. Qed.





End ClockedScript.

Section Pacing.
Import Redis Expiry.

Variables g m p l : string.
Hypothesis keys_ne :
  g <> m /\ g <> p /\ g <> l /\ m <> p /\ m <> l /\ p <> l.

(** The configured time to live of the keys and minimum interval. *)
Variables ttl minInterval : Z.
Hypothesis interval_covered : 0 <= minInterval <= 1000 * ttl.








End Pacing.

Section ClockedCounters.
Import Redis Expiry.

Variables g m p l : string.
Hypothesis keys_ne :
  g <> m /\ g <> p /\ g <> l /\ m <> p /\ m <> l /\ p <> l.








End ClockedCounters.

Section DistributedAcquireClaim.
Import Redis Expiry.










End DistributedAcquireClaim.

(** ** The orchestrator as a whole *)

Section OrchestratorLaws.
Import Orchestrator.

(** The computation makes at most [n] connection attempts. *)
Definition within (n : nat) {A} (m : M A) : Prop :=
  forall env w, (calls (snd (m env w)) <= calls w + n)%nat.

Lemma within_ret {A} (a : A) : within 0 (ret a).
Proof. intros env w. simpl. lia. Qed.

Lemma within_weaken {A} (n n' : nat) (m : M A) :
  (n <= n')%nat -> within n m -> within n' m.
Proof. intros Hn H env w. specialize (H env w). lia. Qed.

Lemma within_bind {A B} (n1 n2 : nat) (m : M A) (f : A -> M B) :
  within n1 m -> (forall a, within n2 (f a)) -> within (n1 + n2) (bind m f).
Proof.
  intros Hm Hf env w. unfold bind. specialize (Hm env w).
  destruct (m env w) as [[a|e] w1]; simpl in *.
  - specialize (Hf a env w1). lia.
  - lia.
Qed.

Lemma within_try_catch {A} (n1 n2 : nat) (m : M A) (handler : JsError -> M A) :
  within n1 m -> (forall e, within n2 (handler e)) ->
  within (n1 + n2) (try_catch m handler).
Proof.
  intros Hm Hh env w. unfold try_catch. specialize (Hm env w).
  destruct (m env w) as [[a|e] w1]; simpl in *.
  - lia.
  - specialize (Hh e env w1). lia.
Qed.

Lemma within_validateSmtpSingle email mxHost cfg :
  within 1 (validateSmtpSingle email mxHost cfg).
Proof. intros env w. rewrite validateSmtpSingle_run. simpl. lia. Qed.

Lemma within_detectCatchAll mxHost domain cfg :
  within 1 (detectCatchAll mxHost domain cfg).
Proof.
  intros env w. destruct (detectCatchAll_run cfg domain env mxHost w) as (c & -> & _).
  simpl. lia.
Qed.

Lemma within_after_retries last : within 0 (after_retries last).
Proof. destruct last; apply within_ret. Qed.

Lemma within_retry_loop email mx cfg (turns : nat) : forall a last,
  within turns (retry_loop turns email mx cfg a last).
Proof.
  induction turns as [|turns IH]; intros a last; simpl; [apply within_after_retries|].
  destruct (a <=? softRetryLimit cfg);
    [|apply (within_weaken 0); [lia|apply within_after_retries]].
  change (S turns) with (1 + turns)%nat. apply within_bind.
  - intros env w. rewrite retry_turn_run.
    destruct (outcome cfg email env (calls w)) as [r|e].
    + destruct (is_definitive (smtpStatus r)); [simpl; lia|].
      destruct (bool_decide (smtpStatus r = temporarily_unavailable)
                && (a <? softRetryLimit cfg)); simpl; lia.
    + destruct (a <? softRetryLimit cfg); simpl; lia.
  - intros [r|last'|last'].
    + apply (within_weaken 0); [lia|apply within_ret].
    + apply IH.
    + apply (within_weaken 0); [lia|apply within_after_retries].
Qed.

Lemma within_catch_all_loop domain cfg (mxToTry : list MxRecord) : forall c,
  within (length mxToTry) (catch_all_loop domain cfg mxToTry c).
Proof.
  induction mxToTry as [|mx rest IH]; intros c; simpl; [apply within_ret|].
  destruct (String.eqb (exchange mx) "").
  - apply (within_weaken (length rest)); [lia|apply IH].
  - change (S (length rest)) with (1 + length rest)%nat.
    apply within_bind; [apply within_detectCatchAll|].
    intros [| |]; [| |apply IH];
      (apply (within_weaken 0); [lia|apply within_ret]).
Qed.

Lemma within_address_loop email cfg (mxToTry : list MxRecord) : forall reasons,
  within (length mxToTry * Z.to_nat (softRetryLimit cfg + 1))
    (address_loop email cfg mxToTry reasons).
Proof.
  induction mxToTry as [|mx rest IH]; intros reasons; simpl; [apply within_ret|].
  destruct (String.eqb (exchange mx) "").
  - eapply within_weaken; [|apply IH]. lia.
  - apply within_bind.
    + replace (Z.to_nat (softRetryLimit cfg + 1))
        with (Z.to_nat (softRetryLimit cfg + 1) + 0 + 0)%nat by lia.
      apply within_try_catch; [|intros e; apply within_ret].
      apply within_bind; [apply within_retry_loop|].
      intros r. destruct (is_definitive (smtpStatus r)); apply within_ret.
    + intros [r|reasons']; [|apply IH].
      eapply within_weaken; [|apply within_ret]. lia.
Qed.

(** The computation returns, with a value that satisfies [Q]. *)
Definition returns {A} (Q : A -> Prop) (m : M A) : Prop :=
  forall env w, exists a, fst (m env w) = inl a /\ Q a.

(** Whenever the computation returns, its value satisfies [Q]. *)
Definition ensures {A} (Q : A -> Prop) (m : M A) : Prop :=
  forall env w a, fst (m env w) = inl a -> Q a.

Lemma returns_ret {A} (Q : A -> Prop) (a : A) : Q a -> returns Q (ret a).
Proof. intros H env w. now exists a. Qed.

Lemma returns_ensures {A} (Q : A -> Prop) (m : M A) : returns Q m -> ensures Q m.
Proof.
  intros H env w a Ha. destruct (H env w) as (a' & Ha' & HQ). congruence.
Qed.

Lemma returns_bind {A B} (P : A -> Prop) (Q : B -> Prop) (m : M A) (f : A -> M B) :
  returns P m -> (forall a, P a -> returns Q (f a)) -> returns Q (bind m f).
Proof.
  intros Hm Hf env w. unfold bind. destruct (Hm env w) as (a & Ha & HP).
  destruct (m env w) as [[a'|e] w1]; simpl in Ha; [|discriminate].
  injection Ha as ->. apply (Hf a HP).
Qed.

Lemma ensures_bind {A B} (Q : B -> Prop) (m : M A) (f : A -> M B) :
  (forall a, ensures Q (f a)) -> ensures Q (bind m f).
Proof.
  intros Hf env w b. unfold bind.
  destruct (m env w) as [[a|e] w1]; simpl; [apply Hf|discriminate].
Qed.

Lemma returns_try_catch {A} (Q : A -> Prop) (m : M A) (handler : JsError -> M A) :
  ensures Q m -> (forall e, returns Q (handler e)) -> returns Q (try_catch m handler).
Proof.
  intros Hm Hh env w. unfold try_catch. specialize (Hm env w).
  destruct (m env w) as [[a|e] w1]; simpl in *.
  - exists a. split; [reflexivity|]. now apply Hm.
  - apply Hh.
Qed.

Definition definitive_or_reasons (o : SmtpValidationResult + list (string * string))
    : Prop :=
  match o with
  | inl r => is_definitive (smtpStatus r) = true
  | inr _ => True
  end.

Lemma returns_address_loop email cfg (mxToTry : list MxRecord) : forall reasons,
  returns definitive_or_reasons (address_loop email cfg mxToTry reasons).
Proof.
  induction mxToTry as [|mx rest IH]; intros reasons; simpl;
    [now apply returns_ret|].
  destruct (String.eqb (exchange mx) ""); [apply IH|].
  apply (returns_bind definitive_or_reasons).
  - apply returns_try_catch; [|intros e; now apply returns_ret].
    apply ensures_bind. intros r.
    destruct (is_definitive (smtpStatus r)) eqn:E;
      apply returns_ensures, returns_ret; simpl; auto.
  - intros [r|reasons'] H; [now apply returns_ret|apply IH].
Qed.

Definition verdict_or_answer (o : SmtpValidationResult + CatchAll) : Prop :=
  match o with
  | inl r => r = catch_all_verdict
  | inr _ => True
  end.

Lemma returns_catch_all_loop domain cfg (mxToTry : list MxRecord) : forall c,
  returns verdict_or_answer (catch_all_loop domain cfg mxToTry c).
Proof.
  induction mxToTry as [|mx rest IH]; intros c; simpl; [now apply returns_ret|].
  destruct (String.eqb (exchange mx) ""); [apply IH|].
  apply (returns_bind (fun _ => True)).
  - intros env w. destruct (detectCatchAll_run cfg domain env (exchange mx) w)
      as (c' & -> & _). now exists c'.
  - intros [| |] _; [now apply returns_ret|now apply returns_ret|apply IH].
Qed.

(** The verdicts [validateSmtp] can give. *)
Definition final_verdict (env : Env) (r : SmtpValidationResult) : Prop :=
  (is_definitive (smtpStatus r) = true) \/
  (smtpStatus r = unknown /\
   reasonCodes r = [smtp_mx_all_failed; smtp_connection_failed]) \/
  (exists e, mx_lookup env = inr e /\
     r = mkResult unknown [smtp_connection_failed] (Some (message e))).

End OrchestratorLaws.

Section OrchestratorVerdicts.
Import Orchestrator.

(** X1. [validateSmtp] never rejects: whatever the MX lookup, the throttle
    and the servers do, it returns a result. The status of that result is
    [valid], [invalid] or [catch_all], or else [unknown], reported either
    as [smtp_mx_all_failed], [smtp_connection_failed] (every exchanger
    tried without a definitive answer) or, when the MX lookup itself
    failed, as [smtp_connection_failed] with the message of the lookup
    error. It is never [temporarily_unavailable] nor [not_checked]. *)
Theorem validateSmtp_always_returns (email domain : string)
    (cfg : SmtpValidationConfig) (env : Env) :
  exists r,
    fst (run (validateSmtp email domain cfg) env) = inl r /\
    final_verdict env r /\
    smtpStatus r <> temporarily_unavailable /\
    smtpStatus r <> not_checked.
Proof.
  assert (H : exists r, fst (run (validateSmtp email domain cfg) env) = inl r /\
                        final_verdict env r).
  { unfold run, validateSmtp, try_catch, bind at 1, validateMx.
    destruct (mx_lookup env) as [mxResult|e] eqn:Hmx; simpl.
    - destruct (mxRecords mxResult) as [records|]; simpl.
      + destruct (negb (domainHasMx mxResult) || (length records =? 0)%nat); simpl.
        * eexists. split; [reflexivity|]. now left.
        * set (mxToTry := mx_to_try cfg (random env) records).
          unfold bind at 1.
          destruct (returns_catch_all_loop domain cfg mxToTry inconclusive env
                      (mkWorld O [])) as (pr & Hpr & Hv).
          destruct (catch_all_loop domain cfg mxToTry inconclusive env (mkWorld O []))
            as [[pr'|e] w1]; simpl in Hpr; [|discriminate].
          injection Hpr as ->.
          destruct pr as [v|c]; simpl in Hv |- *.
          -- subst v. eexists. split; [reflexivity|]. now left.
          -- unfold bind.
             destruct (returns_address_loop email cfg mxToTry [] env w1)
               as (sw & Hsw & Hd).
             destruct (address_loop email cfg mxToTry [] env w1) as [[sw'|e] w2];
               simpl in Hsw; [|discriminate].
             injection Hsw as ->.
             destruct sw as [r|reasons]; simpl in Hd |- *.
             ++ exists r. split; [reflexivity|]. now left.
             ++ eexists. split; [reflexivity|]. right; left. now split.
      + eexists. split; [reflexivity|]. now left.
    - eexists. split; [reflexivity|]. right; right. now exists e. }
  destruct H as (r & Hr & Hv). exists r. split; [exact Hr|]. split; [exact Hv|].
  destruct Hv as [Hd|[[Hu _]|(e & _ & ->)]].
  - destruct (smtpStatus r); simpl in Hd; split; congruence.
  - rewrite Hu. split; discriminate.
  - simpl. split; discriminate.
Qed.

(** X2. When the MX lookup reports no exchanger (the flag [domainHasMx]
    unset, the record list missing, or the list empty), [validateSmtp]
    answers [invalid] with [no_mx_records] and [smtp_invalid] and no raw
    response; when the lookup rejects, it answers [unknown] with
    [smtp_connection_failed] and the message of the error. In both cases
    it requests no throttle slot and opens no connection. *)
Theorem validateSmtp_without_exchangers (email domain : string)
    (cfg : SmtpValidationConfig) (env : Env) :
  (forall mxResult,
     mx_lookup env = inl mxResult ->
     domainHasMx mxResult = false \/ mxRecords mxResult = None \/
     mxRecords mxResult = Some [] ->
     run (validateSmtp email domain cfg) env =
     (inl (mkResult invalid [no_mx_records; smtp_invalid] None), mkWorld O [])) /\
  (forall e,
     mx_lookup env = inr e ->
     run (validateSmtp email domain cfg) env =
     (inl (mkResult unknown [smtp_connection_failed] (Some (message e))),
      mkWorld O [])).
Proof.
  split.
  - intros mxResult Hmx Hno.
    unfold run, validateSmtp, try_catch, bind at 1, validateMx. rewrite Hmx. simpl.
    destruct (mxRecords mxResult) as [records|] eqn:Hrec; [|reflexivity].
    destruct Hno as [Hno|[Hno|Hno]].
    + rewrite Hno. reflexivity.
    + discriminate.
    + injection Hno as ->. simpl. rewrite orb_true_r. reflexivity.
  - intros e Hmx.
    unfold run, validateSmtp, try_catch, bind at 1, validateMx. rewrite Hmx.
    reflexivity.
Qed.

Definition env_no_exchangers : Env :=
  mkEnv (inl (mkMxResult false (Some []))) (fun _ => mkAttempt None [])
        (fun _ => "probe") (fun _ => 0%Q).

Definition env_lookup_failed : Env :=
  mkEnv (inr (new_Error "queryMx ESERVFAIL example.org")) (fun _ => mkAttempt None [])
        (fun _ => "probe") (fun _ => 0%Q).

Lemma validateSmtp_without_exchangers_witness :
  run (validateSmtp "user@example.org" "example.org" (cfg_example false))
      env_no_exchangers =
  (inl (mkResult invalid [no_mx_records; smtp_invalid] None), mkWorld O []) /\
  run (validateSmtp "user@example.org" "example.org" (cfg_example false))
      env_lookup_failed =
  (inl (mkResult unknown [smtp_connection_failed]
          (Some "queryMx ESERVFAIL example.org")), mkWorld O []).
Proof.
  split.
  - apply (proj1 (validateSmtp_without_exchangers "user@example.org" "example.org"
                    (cfg_example false) env_no_exchangers)
             (mkMxResult false (Some []))); [reflexivity|].
    left. reflexivity.
  - apply (proj2 (validateSmtp_without_exchangers "user@example.org" "example.org"
                    (cfg_example false) env_lookup_failed)
             (new_Error "queryMx ESERVFAIL example.org")).
    reflexivity.
Defined.

Lemma slice0_length {A} (n : Z) (l : list A) :
  0 <= n -> Z.of_nat (length (slice0 n l)) <= n.
Proof.
  intros Hn. unfold slice0.
  destruct (n <? 0) eqn:E; [apply Z.ltb_lt in E; lia|].
  rewrite length_take. lia.
Qed.

(** X3. [validateSmtp] makes a bounded number of connection attempts: with
    a non-negative [maxMxAttempts], at most one probe and
    [softRetryLimit + 1] address attempts per exchanger tried, that is at
    most [maxMxAttempts * (1 + max 0 (softRetryLimit + 1))] calls of
    [validateSmtpSingle] in all. *)
Theorem validateSmtp_attempt_budget (email domain : string)
    (cfg : SmtpValidationConfig) (env : Env) :
  0 <= maxMxAttempts cfg ->
  Z.of_nat (calls (snd (run (validateSmtp email domain cfg) env)))
  <= maxMxAttempts cfg * (1 + Z.max 0 (softRetryLimit cfg + 1)).
Proof.
  intros Hmax.
  assert (Hnn : 0 <= maxMxAttempts cfg * (1 + Z.max 0 (softRetryLimit cfg + 1)))
    by (apply Z.mul_nonneg_nonneg; lia).
  unfold run, validateSmtp, try_catch, bind at 1, validateMx.
  destruct (mx_lookup env) as [mxResult|e]; simpl; [|exact Hnn].
  destruct (mxRecords mxResult) as [records|]; simpl; [|exact Hnn].
  destruct (negb (domainHasMx mxResult) || (length records =? 0)%nat); simpl;
    [exact Hnn|].
  set (mxToTry := mx_to_try cfg (random env) records).
  assert (Hlen : Z.of_nat (length mxToTry) <= maxMxAttempts cfg)
    by (apply slice0_length; exact Hmax).
  set (turns := Z.to_nat (softRetryLimit cfg + 1)).
  assert (Hb : within (length mxToTry + (length mxToTry * turns + 0))
                 (bind (catch_all_loop domain cfg mxToTry inconclusive)
                    (fun probed =>
                       match probed with
                       | inl verdict => ret verdict
                       | inr _ =>
                           bind (address_loop email cfg mxToTry [])
                             (fun swept =>
                                match swept with
                                | inl result => ret result
                                | inr failureReasons =>
                                    ret (all_failed mxToTry failureReasons)
                                end)
                       end))).
  { apply within_bind; [apply within_catch_all_loop|].
    intros [v|c].
    - eapply within_weaken; [|apply within_ret]. lia.
    - apply within_bind; [apply within_address_loop|].
      intros [r|fr]; apply within_ret. }
  specialize (Hb env (mkWorld O [])). simpl in Hb.
  match goal with
  | |- Z.of_nat (calls (snd (let (_, _) := ?m in _))) <= _ =>
      destruct m as [[r|e] w1] eqn:Em
  end; simpl in Hb |- *;
    (transitivity (Z.of_nat (length mxToTry) * (1 + Z.of_nat turns)); [nia|]);
    (transitivity (maxMxAttempts cfg * (1 + Z.of_nat turns)); [nia|]);
    apply Z.mul_le_mono_nonneg_l; subst turns; lia.
Qed.

Lemma validateSmtp_attempt_budget_witness :
  0 <= maxMxAttempts (cfg_example false) /\
  Z.of_nat (calls (snd (run (validateSmtp "user@example.com" "example.com"
                               (cfg_example false)) env_rejecting)))
  <= maxMxAttempts (cfg_example false)
     * (1 + Z.max 0 (softRetryLimit (cfg_example false) + 1)).
Proof.
  split; [vm_compute; discriminate|].
  apply (validateSmtp_attempt_budget "user@example.com" "example.com"
           (cfg_example false) env_rejecting).
  vm_compute. discriminate.
Defined.

End OrchestratorVerdicts.

(** ** The throttle protocol followed by the orchestrator *)

Section SlotProtocol.
Import Orchestrator.

(** Where the orchestrator stands with the throttle: holding nothing,
    having asked a slot for a host, holding the slot of a host with a
    connection open, or having recorded the outcome of that connection. *)
Inductive Phase :=
| Idle
| Asked (mxHost : string)
| Held (mxHost : string)
| Recorded (mxHost : string).

(** The calls allowed in each phase. A [Connect] follows the request of
    a slot for the same host ([acquireSlot] returned); a request that is
    followed by anything else was refused ([acquireSlot] threw). *)
Definition protocol_step (ph : Phase) (ev : Event) : option Phase :=
  match ph, ev with
  | (Idle | Asked _), AcquireSlot h _ => Some (Asked h)
  | (Idle | Asked _), SleepFor _ => Some Idle
  | Asked h, Connect h' _ => if String.eqb h h' then Some (Held h) else None
  | Held h, RecordSuccess h' => if String.eqb h h' then Some (Recorded h) else None
  | Held h, RecordFailure h' _ => if String.eqb h h' then Some (Recorded h) else None
  | Recorded h, ReleaseSlot h' => if String.eqb h h' then Some Idle else None
  | _, _ => None
  end.

Fixpoint protocol (ph : Phase) (tr : list Event) : option Phase :=
  match tr with
  | [] => Some ph
  | ev :: tr' =>
      match protocol_step ph ev with
      | Some ph' => protocol ph' tr'
      | None => None
      end
  end.

(** No slot is held. *)
Definition released (ph : Phase) : bool :=
  match ph with
  | Idle | Asked _ => true
  | _ => false
  end.

Definition follows_protocol (tr : list Event) : Prop :=
  exists ph, protocol Idle tr = Some ph /\ released ph = true.

Lemma protocol_app ph tr1 tr2 :
  protocol ph (tr1 ++ tr2) =
  match protocol ph tr1 with
  | Some ph' => protocol ph' tr2
  | None => None
  end.
Proof.
  revert ph. induction tr1 as [|ev tr1 IH]; intros ph; simpl; [reflexivity|].
  destruct (protocol_step ph ev); [apply IH|reflexivity].
Qed.

Lemma protocol_attempt_trace cfg email mxHost a ph :
  released ph = true ->
  exists ph', protocol ph (attempt_trace cfg email mxHost a) = Some ph' /\
              released ph' = true.
Proof.
  intros Hph. unfold attempt_trace.
  assert (H1 : protocol_step ph (AcquireSlot mxHost (throttle_config cfg))
               = Some (Asked mxHost))
    by (destruct ph; simpl in *; congruence).
  simpl. rewrite H1.
  destruct (slot_error a); simpl; [now eexists|].
  rewrite String.eqb_refl.
  destruct (raced cfg email a); simpl;
    repeat (rewrite String.eqb_refl; simpl); now eexists.
Qed.

(** The computation keeps to the protocol. *)
Definition conforming {A} (m : M A) : Prop :=
  forall env w, follows_protocol (trace w) -> follows_protocol (trace (snd (m env w))).

Lemma conforming_ret {A} (a : A) : conforming (ret a).
Proof. intros env w H. exact H. Qed.

Lemma conforming_bind {A B} (m : M A) (f : A -> M B) :
  conforming m -> (forall a, conforming (f a)) -> conforming (bind m f).
Proof.
  intros Hm Hf env w Hw. unfold bind. specialize (Hm env w Hw).
  destruct (m env w) as [[a|e] w1]; simpl in *; [apply Hf|]; exact Hm.
Qed.

Lemma conforming_try_catch {A} (m : M A) (handler : JsError -> M A) :
  conforming m -> (forall e, conforming (handler e)) -> conforming (try_catch m handler).
Proof.
  intros Hm Hh env w Hw. unfold try_catch. specialize (Hm env w Hw).
  destruct (m env w) as [[a|e] w1]; simpl in *; [|apply Hh]; exact Hm.
Qed.

Lemma conforming_sleep (ms : Q) : conforming (sleep ms).
Proof.
  intros env w (ph & Hp & Hr). exists Idle. simpl. rewrite protocol_app, Hp.
  split; [|reflexivity]. destruct ph; simpl in *; congruence.
Qed.

Lemma conforming_validateSmtpSingle email mxHost cfg :
  conforming (validateSmtpSingle email mxHost cfg).
Proof.
  intros env w (ph & Hp & Hr). rewrite validateSmtpSingle_run. simpl.
  unfold follows_protocol. rewrite protocol_app, Hp.
  now apply protocol_attempt_trace.
Qed.

Lemma conforming_detectCatchAll mxHost domain cfg :
  conforming (detectCatchAll mxHost domain cfg).
Proof.
  unfold detectCatchAll. apply conforming_try_catch; [|intros e; apply conforming_ret].
  apply conforming_bind; [intros env w H; exact H|]. intros l.
  apply conforming_bind; [apply conforming_validateSmtpSingle|].
  intros r. destruct (smtpStatus r); apply conforming_ret.
Qed.

Lemma conforming_after_retries last : conforming (after_retries last).
Proof. destruct last; apply conforming_ret. Qed.

Lemma conforming_retry_turn email mx cfg a last :
  conforming (retry_turn email mx cfg a last).
Proof.
  unfold retry_turn. apply conforming_try_catch.
  - apply conforming_bind; [apply conforming_validateSmtpSingle|]. intros r.
    destruct (is_definitive (smtpStatus r)); [apply conforming_ret|].
    destruct (bool_decide (smtpStatus r = temporarily_unavailable)
              && (a <? softRetryLimit cfg)); [|apply conforming_ret].
    apply conforming_bind; [apply conforming_sleep|]. intros _. apply conforming_ret.
  - intros e. destruct (a <? softRetryLimit cfg); [|apply conforming_ret].
    apply conforming_bind; [apply conforming_sleep|]. intros _. apply conforming_ret.
Qed.

Lemma conforming_retry_loop email mx cfg (turns : nat) : forall a last,
  conforming (retry_loop turns email mx cfg a last).
Proof.
  induction turns as [|turns IH]; intros a last; simpl; [apply conforming_after_retries|].
  destruct (a <=? softRetryLimit cfg); [|apply conforming_after_retries].
  apply conforming_bind; [apply conforming_retry_turn|].
  intros [r|last'|last']; [apply conforming_ret|apply IH|apply conforming_after_retries].
Qed.

Lemma conforming_catch_all_loop domain cfg (mxToTry : list MxRecord) : forall c,
  conforming (catch_all_loop domain cfg mxToTry c).
Proof.
  induction mxToTry as [|mx rest IH]; intros c; simpl; [apply conforming_ret|].
  destruct (String.eqb (exchange mx) ""); [apply IH|].
  apply conforming_bind; [apply conforming_detectCatchAll|].
  intros [| |]; [apply conforming_ret|apply conforming_ret|apply IH].
Qed.

Lemma conforming_address_loop email cfg (mxToTry : list MxRecord) : forall reasons,
  conforming (address_loop email cfg mxToTry reasons).
Proof.
  induction mxToTry as [|mx rest IH]; intros reasons; simpl; [apply conforming_ret|].
  destruct (String.eqb (exchange mx) ""); [apply IH|].
  apply conforming_bind.
  - apply conforming_try_catch; [|intros e; apply conforming_ret].
    apply conforming_bind; [apply conforming_retry_loop|].
    intros r. destruct (is_definitive (smtpStatus r)); apply conforming_ret.
  - intros [r|reasons']; [apply conforming_ret|apply IH].
Qed.

Lemma conforming_validateSmtp email domain cfg :
  conforming (validateSmtp email domain cfg).
Proof.
  unfold validateSmtp. apply conforming_try_catch; [|intros e; apply conforming_ret].
  apply conforming_bind; [intros env w H; exact H|]. intros mxResult.
  destruct (mxRecords mxResult) as [records|]; [|apply conforming_ret].
  destruct (negb (domainHasMx mxResult) || (length records =? 0)%nat);
    [apply conforming_ret|].
  intros env w Hw.
  set (mxToTry := mx_to_try cfg (random env) records).
  assert (Hc : conforming
                 (bind (catch_all_loop domain cfg mxToTry inconclusive)
                    (fun probed =>
                       match probed with
                       | inl verdict => ret verdict
                       | inr _ =>
                           bind (address_loop email cfg mxToTry [])
                             (fun swept =>
                                match swept with
                                | inl result => ret result
                                | inr failureReasons =>
                                    ret (all_failed mxToTry failureReasons)
                                end)
                       end))).
  { apply conforming_bind; [apply conforming_catch_all_loop|].
    intros [v|c]; [apply conforming_ret|].
    apply conforming_bind; [apply conforming_address_loop|].
    intros [r|fr]; apply conforming_ret. }
  exact (Hc env w Hw).
Qed.

Definition is_connect (ev : Event) : bool :=
  match ev with Connect _ _ => true | _ => false end.

Definition is_release (ev : Event) : bool :=
  match ev with ReleaseSlot _ => true | _ => false end.

Definition is_record (ev : Event) : bool :=
  match ev with RecordSuccess _ | RecordFailure _ _ => true | _ => false end.

Definition count_events (f : Event -> bool) (tr : list Event) : nat :=
  length (List.filter f tr).

(** Slots held, and outcomes recorded but not yet released, in a phase. *)
Definition held (ph : Phase) : nat :=
  match ph with Held _ | Recorded _ => 1 | _ => 0 end.

Definition recorded (ph : Phase) : nat :=
  match ph with Recorded _ => 1 | _ => 0 end.

Lemma protocol_counts (tr : list Event) : forall ph ph',
  protocol ph tr = Some ph' ->
  (held ph + count_events is_connect tr = held ph' + count_events is_release tr)%nat /\
  (recorded ph + count_events is_record tr = recorded ph' + count_events is_release tr)%nat.
Proof.
  induction tr as [|ev tr IH]; intros ph ph' H; simpl in H.
  - injection H as ->. unfold count_events. simpl. lia.
  - destruct (protocol_step ph ev) as [ph1|] eqn:Es; [|discriminate].
    specialize (IH ph1 ph' H). unfold count_events in *.
    destruct ph, ev; simpl in Es; try discriminate;
      try (destruct (String.eqb _ _); [|discriminate]);
      injection Es as <-; simpl in *; lia.
Qed.

(** X4. Whatever happens, [validateSmtp] keeps to the throttle protocol:
    a connection is opened only after a slot was granted for that host,
    its outcome is recorded exactly once ([recordSuccess] or
    [recordFailure]) while the slot is held, the slot is then released
    before anything else is done, and no slot is held when the function
    returns; it never holds two slots at a time and never releases a slot
    it was refused. In particular it releases exactly as many slots as it
    opened connections, and records as many outcomes. *)
Theorem validateSmtp_follows_throttle_protocol (email domain : string)
    (cfg : SmtpValidationConfig) (env : Env) :
  let tr := trace (snd (run (validateSmtp email domain cfg) env)) in
  follows_protocol tr /\
  count_events is_release tr = count_events is_connect tr /\
  count_events is_record tr = count_events is_connect tr.
Proof.
  intros tr.
  assert (H : follows_protocol tr).
  { apply (conforming_validateSmtp email domain cfg env (mkWorld O [])).
    exists Idle. split; reflexivity. }
  split; [exact H|].
  destruct H as (ph & Hp & Hr).
  destruct (protocol_counts tr Idle ph Hp) as [H1 H2].
  destruct ph; simpl in *; try discriminate; lia.
Qed.

End SlotProtocol.

(** ** The orchestrator on the process-local throttle *)

Section SlotAccounting.
Import Orchestrator.

(** The effect of the orchestrator's calls on the process-local store,
    when it is the only task using it: [acquireSlot] creates the record
    of the host if need be, and has taken the slot when it returns, which
    is when the connection is opened. [now] is the clock reading of the
    call. *)
Definition replay_event (now : Z) (ev : Event) (st : Throttle.InMemoryThrottleStore)
    : Throttle.InMemoryThrottleStore :=
  match ev with
  | AcquireSlot mxHost config =>
      snd (Throttle.getOrCreateState mxHost (Throttle.maxMxConcurrency config) st)
  | Connect mxHost _ =>
      match Throttle.mxStates st !! Js.toLowerCase mxHost with
      | Some state =>
          Throttle.set_state mxHost (Throttle.take_slot now state)
            (Throttle.globalConcurrency st + 1) st
      | None => st
      end
  | RecordSuccess mxHost => Throttle.recordSuccess mxHost st
  | RecordFailure mxHost shouldPenalize =>
      Throttle.recordFailure mxHost shouldPenalize now st
  | ReleaseSlot mxHost => Throttle.releaseSlot mxHost st
  | SleepFor _ => st
  end.

(** The calls of a trace, the [i]-th one made at time [clock i]. *)
Fixpoint replay (clock : nat -> Z) (i : nat) (tr : list Event)
    (st : Throttle.InMemoryThrottleStore) : Throttle.InMemoryThrottleStore :=
  match tr with
  | [] => st
  | ev :: tr' => replay clock (S i) tr' (replay_event (clock i) ev st)
  end.

Variable st0 : Throttle.InMemoryThrottleStore.

(** The connection count a host had in [st0]; 0 for a host not yet
    known. *)
Definition count0 (k : string) : Z :=
  default 0 (Throttle.concurrency <$> Throttle.mxStates st0 !! k).

Hypothesis global_nonneg : 0 <= Throttle.globalConcurrency st0.
Hypothesis counts_nonneg :
  forall k s, Throttle.mxStates st0 !! k = Some s -> 0 <= Throttle.concurrency s.

Lemma count0_nonneg (k : string) : 0 <= count0 k.
Proof.
  unfold count0. destruct (Throttle.mxStates st0 !! k) as [s|] eqn:E; simpl; [|lia].
  now apply (counts_nonneg k).
Qed.

(** What the store looks like in each phase of the protocol. *)
Definition accounts (ph : Phase) (st : Throttle.InMemoryThrottleStore) : Prop :=
  (forall k, Throttle.mxStates st !! k = None -> Throttle.mxStates st0 !! k = None) /\
  match ph with
  | Idle =>
      Throttle.globalConcurrency st = Throttle.globalConcurrency st0 /\
      forall k s, Throttle.mxStates st !! k = Some s -> Throttle.concurrency s = count0 k
  | Asked h =>
      Throttle.globalConcurrency st = Throttle.globalConcurrency st0 /\
      (forall k s, Throttle.mxStates st !! k = Some s ->
                   Throttle.concurrency s = count0 k) /\
      exists s, Throttle.mxStates st !! Js.toLowerCase h = Some s
  | Held h | Recorded h =>
      Throttle.globalConcurrency st = Throttle.globalConcurrency st0 + 1 /\
      (forall k s, Throttle.mxStates st !! k = Some s ->
                   Throttle.concurrency s =
                   if decide (k = Js.toLowerCase h) then count0 k + 1 else count0 k) /\
      exists s, Throttle.mxStates st !! Js.toLowerCase h = Some s
  end.

Lemma accounts_quiet (ph : Phase) (st : Throttle.InMemoryThrottleStore) :
  accounts ph st -> released ph = true ->
  (forall k, Throttle.mxStates st !! k = None -> Throttle.mxStates st0 !! k = None) /\
  Throttle.globalConcurrency st = Throttle.globalConcurrency st0 /\
  forall k s, Throttle.mxStates st !! k = Some s -> Throttle.concurrency s = count0 k.
Proof.
  intros [Hdom H] Hq. destruct ph; try discriminate; tauto.
Qed.

Lemma accounts_step (now : Z) (ph ph' : Phase) (ev : Event)
    (st : Throttle.InMemoryThrottleStore) :
  protocol_step ph ev = Some ph' -> accounts ph st ->
  accounts ph' (replay_event now ev st).
Proof.
  intros Hstep Hacc.
  destruct ev as [h cfg|h e|h|h b|h|ms].
  - (* AcquireSlot *)
    assert (Hq : released ph = true) by (destruct ph; simpl in *; congruence).
    assert (ph' = Asked h) by (destruct ph; simpl in *; congruence). subst ph'.
    destruct (accounts_quiet ph st Hacc Hq) as (Hdom & Hg & Hc).
    cbn [replay_event]. unfold Throttle.getOrCreateState.
    destruct (Throttle.mxStates st !! Js.toLowerCase h) as [s|] eqn:El; cbn [snd].
    + split; [exact Hdom|]. split; [exact Hg|]. split; [exact Hc|]. eauto.
    + split; [|split; [exact Hg|split]]; cbn [Throttle.mxStates Throttle.globalConcurrency].
      * intros k Hk. apply lookup_insert_None in Hk as [Hk _]. now apply Hdom.
      * intros k s Hk. apply lookup_insert_Some in Hk as [[<- <-]|[_ Hk]].
        -- cbn [Throttle.initial_state Throttle.concurrency].
           unfold count0. now rewrite (Hdom _ El).
        -- now apply Hc.
      * rewrite lookup_insert_eq. eauto.
  - (* Connect *)
    destruct ph; simpl in Hstep; try discriminate.
    destruct (String.eqb_spec mxHost h) as [->|]; [|discriminate].
    injection Hstep as <-.
    destruct Hacc as (Hdom & Hg & Hc & s & Hs).
    cbn [replay_event]. rewrite Hs. unfold Throttle.set_state.
    split; [|split; [|split]]; cbn [Throttle.mxStates Throttle.globalConcurrency].
    + intros k Hk. apply lookup_insert_None in Hk as [Hk _]. now apply Hdom.
    + lia.
    + intros k s' Hk. apply lookup_insert_Some in Hk as [[<- <-]|[Hne Hk]].
      * rewrite decide_True by reflexivity. cbn [Throttle.take_slot Throttle.concurrency].
        rewrite (Hc _ _ Hs). reflexivity.
      * rewrite decide_False by congruence. now apply Hc.
    + rewrite lookup_insert_eq. eauto.
  - (* RecordSuccess *)
    destruct ph; simpl in Hstep; try discriminate.
    destruct (String.eqb_spec mxHost h) as [->|]; [|discriminate].
    injection Hstep as <-.
    destruct Hacc as (Hdom & Hg & Hc & s & Hs).
    cbn [replay_event]. unfold Throttle.recordSuccess. rewrite Hs.
    unfold Throttle.set_state.
    split; [|split; [|split]]; cbn [Throttle.mxStates Throttle.globalConcurrency].
    + intros k Hk. apply lookup_insert_None in Hk as [Hk _]. now apply Hdom.
    + exact Hg.
    + intros k s' Hk. apply lookup_insert_Some in Hk as [[<- <-]|[Hne Hk]].
      * cbn [Throttle.success_update Throttle.concurrency]. now apply Hc.
      * now apply Hc.
    + rewrite lookup_insert_eq. eauto.
  - (* RecordFailure *)
    destruct ph; simpl in Hstep; try discriminate.
    destruct (String.eqb_spec mxHost h) as [->|]; [|discriminate].
    injection Hstep as <-.
    destruct Hacc as (Hdom & Hg & Hc & s & Hs).
    cbn [replay_event]. unfold Throttle.recordFailure. rewrite Hs.
    unfold Throttle.set_state.
    split; [|split; [|split]]; cbn [Throttle.mxStates Throttle.globalConcurrency].
    + intros k Hk. apply lookup_insert_None in Hk as [Hk _]. now apply Hdom.
    + exact Hg.
    + intros k s' Hk. apply lookup_insert_Some in Hk as [[<- <-]|[Hne Hk]].
      * cbn [Throttle.failure_update Throttle.concurrency]. now apply Hc.
      * now apply Hc.
    + rewrite lookup_insert_eq. eauto.
  - (* ReleaseSlot *)
    destruct ph; simpl in Hstep; try discriminate.
    destruct (String.eqb_spec mxHost h) as [->|]; [|discriminate].
    injection Hstep as <-.
    destruct Hacc as (Hdom & Hg & Hc & s & Hs).
    cbn [replay_event]. unfold Throttle.releaseSlot. rewrite Hs.
    unfold Throttle.set_state.
    split; [|split]; cbn [Throttle.mxStates Throttle.globalConcurrency].
    + intros k Hk. apply lookup_insert_None in Hk as [Hk _]. now apply Hdom.
    + lia.
    + intros k s' Hk. apply lookup_insert_Some in Hk as [[<- <-]|[Hne Hk]].
      * cbn [Throttle.concurrency]. specialize (Hc _ _ Hs).
        rewrite decide_True in Hc by reflexivity.
        pose proof (count0_nonneg (Js.toLowerCase h)). lia.
      * specialize (Hc _ _ Hk). rewrite decide_False in Hc by congruence. exact Hc.
  - (* SleepFor *)
    assert (Hq : released ph = true) by (destruct ph; simpl in *; congruence).
    assert (ph' = Idle) by (destruct ph; simpl in *; congruence). subst ph'.
    destruct (accounts_quiet ph st Hacc Hq) as (Hdom & Hg & Hc).
    cbn [replay_event]. split; [exact Hdom|]. split; [exact Hg|exact Hc].
Qed.

Lemma accounts_replay (clock : nat -> Z) (tr : list Event) : forall i ph ph' st,
  protocol ph tr = Some ph' -> accounts ph st ->
  accounts ph' (replay clock i tr st).
Proof.
  induction tr as [|ev tr IH]; intros i ph ph' st Hp Hacc; simpl in Hp |- *.
  - now injection Hp as <-.
  - destruct (protocol_step ph ev) as [ph1|] eqn:Es; [|discriminate].
    apply (IH (S i) ph1 ph' _ Hp). now apply (accounts_step (clock i) ph).
Qed.

End SlotAccounting.

Section SlotAccountingClaim.
Import Orchestrator.

(** X5. [validateSmtp] gives back every slot it takes. Run alone on a
    process-local store whose counters are not negative, its calls leave
    the global counter and the connection count of every host exactly as
    they were, whatever the servers answered and however the attempts
    ended; a host it met for the first time is left with a count of
    zero, and no host record is removed. *)
Theorem validateSmtp_leaves_counters (email domain : string)
    (cfg : SmtpValidationConfig) (env : Env) (clock : nat -> Z)
    (st0 : Throttle.InMemoryThrottleStore) :
  0 <= Throttle.globalConcurrency st0 ->
  (forall k s, Throttle.mxStates st0 !! k = Some s -> 0 <= Throttle.concurrency s) ->
  let st := replay clock 0 (trace (snd (run (validateSmtp email domain cfg) env))) st0 in
  Throttle.globalConcurrency st = Throttle.globalConcurrency st0 /\
  (forall k s, Throttle.mxStates st !! k = Some s ->
     Throttle.concurrency s
     = default 0 (Throttle.concurrency <$> Throttle.mxStates st0 !! k)) /\
  (forall k, Throttle.mxStates st !! k = None -> Throttle.mxStates st0 !! k = None).
Proof.
  intros Hg Hc st.
  destruct (conforming_validateSmtp email domain cfg env (mkWorld O []))
    as (ph & Hp & Hq); [exists Idle; split; reflexivity|].
  assert (H0 : accounts st0 Idle st0).
  { split; [auto|]. split; [reflexivity|].
    intros k s Hk. unfold count0. now rewrite Hk. }
  pose proof (accounts_replay st0 Hg Hc clock _ 0%nat Idle ph st0 Hp H0) as Hacc.
  destruct (accounts_quiet st0 ph _ Hacc Hq) as (Hdom & Hglobal & Hcount).
  split; [exact Hglobal|]. split; [exact Hcount|exact Hdom].
Qed.

Lemma validateSmtp_leaves_counters_witness :
  let st := replay (fun i => 1000 * Z.of_nat i) 0
              (trace (snd (run (validateSmtp "user@example.com" "example.com"
                                  (cfg_example false)) env_rejecting)))
              Throttle.empty_store in
  Throttle.globalConcurrency st = 0 /\
  (Throttle.concurrency <$> Throttle.mxStates st !! "mx1.example.com") = Some 0.
Proof.
  intros st.
  destruct (validateSmtp_leaves_counters "user@example.com" "example.com"
              (cfg_example false) env_rejecting (fun i => 1000 * Z.of_nat i)
              Throttle.empty_store)
    as (Hg & Hc & _).
  - simpl. lia.
  - intros k s Hk. simpl in Hk. rewrite lookup_empty in Hk. discriminate.
  - split; [exact Hg|].
    destruct (Throttle.mxStates st !! "mx1.example.com") as [s|] eqn:Es;
      [|vm_compute in Es; discriminate].
    cbn [fmap option_fmap option_map]. rewrite (Hc _ _ Es). reflexivity.
Defined.

End SlotAccountingClaim.


(** ** The handshake engine: command sequence and verdicts *)

Section HandshakeProtocol.
Import Handshake.

Variable cfg : SmtpValidationConfig.
Variable email : string.

Definition ehlo_command : string := "EHLO " ++ heloDomain cfg ++ CRLF.
Definition mail_command : string := "MAIL FROM:<" ++ mailFrom cfg ++ ">" ++ CRLF.
Definition rcpt_command : string := "RCPT TO:<" ++ email ++ ">" ++ CRLF.

(** The commands sent by the time the engine is at a step. *)
Definition commands (step : Z) : list string :=
  if step =? 0 then []
  else if step =? 1 then [ehlo_command]
  else if step =? 3 then [ehlo_command; mail_command]
  else [ehlo_command; mail_command; rcpt_command].

Definition closing (s : Settlement) : list string :=
  match s with
  | Resolved _ => [quit]
  | _ => []
  end.

(** The phase timer armed while the engine waits at a step. *)
Definition phase_timer (step : Z) : string * Z :=
  if step =? 0 then ("banner", bannerTimeoutMs cfg)
  else if step =? 1 then ("ehlo", ehloTimeoutMs cfg)
  else if step =? 3 then ("mail", mailTimeoutMs cfg)
  else ("rcpt", rcptTimeoutMs cfg).

(** A verdict is either the TLS verdict or the interpretation of the
    last line received, the reply to RCPT TO. *)
Definition verdict_ok (st : State) : Prop :=
  forall r, settled st = Resolved r ->
    (exists raw, r = tls_required raw) \/
    (step st = 4 /\
     exists raw line, rawResponse st = raw ++ line ++ LF /\
       is_continuation line = false /\
       r = interpretSmtpCode (extractSmtpCode line) line (rawResponse st)).

Definition timer_ok (st : State) : Prop :=
  settled st = Pending ->
  currentTimeout st = None \/ currentTimeout st = Some (phase_timer (step st)).

Definition engine_ok (st : State) : Prop :=
  (step st = 0 \/ step st = 1 \/ step st = 3 \/ step st = 4) /\
  written st = (commands (step st) ++ closing (settled st))%list /\
  timer_ok st /\
  verdict_ok st /\
  (destroyed st = true -> exists e, settled st = Rejected e).

Lemma engine_ok_initial : engine_ok (initial cfg).
Proof.
  unfold engine_ok, timer_ok, verdict_ok; simpl.
  split; [auto|]. split; [reflexivity|]. split; [auto|].
  split; [discriminate|discriminate].
Qed.

Lemma engine_ok_settled_stable (st st' : State) :
  engine_ok st -> settled st <> Pending ->
  step st' = step st -> written st' = written st -> settled st' = settled st ->
  rawResponse st' = rawResponse st -> destroyed st' = destroyed st ->
  engine_ok st'.
Proof.
  intros (Hs & Hw & Ht & Hv & Hd) Hn E1 E2 E3 E4 E5.
  unfold engine_ok, timer_ok, verdict_ok. rewrite E1, E2, E3, E4, E5.
  split; [exact Hs|]. split; [exact Hw|]. split; [intros; contradiction|].
  split; [exact Hv|exact Hd].
Qed.

Ltac engine_case :=
  unfold engine_ok, timer_ok, verdict_ok, commands, phase_timer, reject, resolve, settle,
    write, setPhaseTimeout, set_step, closing in *; simpl in *;
  repeat match goal with
         | |- _ /\ _ => split
         end;
  try (intros; discriminate); try reflexivity; try (intros; tauto); auto.

(** The reply dispatch keeps the invariant, on a pending engine whose
    timer was cleared and whose transcript ends with the line. *)
Lemma engine_ok_on_reply (line raw : string) (st : State) :
  engine_ok st -> settled st = Pending -> destroyed st = false ->
  rawResponse st = raw ++ line ++ LF ->
  is_continuation line = false ->
  engine_ok (on_reply cfg email (extractSmtpCode line) line (clearTimeout st)).
Proof.
  intros (Hs & Hw & Ht & Hv & Hd) Hp Hdes Hraw Hcont.
  destruct st as [buf stp rawr caps timer wr des setl]; simpl in *. subst setl des.
  rewrite app_nil_r in Hw.
  set (code := extractSmtpCode line).
  unfold on_reply, clearTimeout; simpl.
  destruct Hs as [-> | [-> | [-> | ->]]]; simpl.
  - destruct (code =? 220); simpl; [|engine_case].
    engine_case. rewrite Hw. reflexivity.
  - destruct (code =? 530); simpl.
    { engine_case; [rewrite Hw; reflexivity|].
      intros r [= <-]. left. eauto. }
    destruct (code =? 250); simpl; [|engine_case].
    destruct (requireTls cfg && negb (string_in "STARTTLS" caps)); simpl.
    { engine_case; [rewrite Hw; reflexivity|].
      intros r [= <-]. left. eauto. }
    destruct (string_in "STARTTLS" caps && requireTls cfg); simpl.
    { engine_case; [rewrite Hw; reflexivity|].
      intros r [= <-]. left. eauto. }
    engine_case. rewrite Hw. reflexivity.
  - destruct (code =? 530); simpl.
    { engine_case; [rewrite Hw; reflexivity|].
      intros r [= <-]. left. eauto. }
    destruct (code =? 250); simpl; [|engine_case].
    engine_case. rewrite Hw. reflexivity.
  - engine_case; [rewrite Hw; reflexivity|].
    intros r [= <-]. right. split; [reflexivity|]. exists raw, line. auto.
Qed.

Lemma engine_ok_on_line (line : string) (st : State) :
  engine_ok st -> settled st = Pending -> destroyed st = false ->
  engine_ok (on_line cfg email line st) /\
  (settled (on_line cfg email line st) = Pending ->
   destroyed (on_line cfg email line st) = false).
Proof.
  intros Hwf Hp Hdes. unfold on_line.
  destruct (String.eqb line ""); [auto|].
  destruct (is_continuation line) eqn:Hcont.
  - assert (Hk : forall st', step st' = step st -> written st' = written st ->
                   settled st' = settled st -> currentTimeout st' = currentTimeout st ->
                   destroyed st' = destroyed st ->
                   engine_ok st' /\ (settled st' = Pending -> destroyed st' = false)).
    { intros st' E1 E2 E3 E4 E5. split; [|congruence].
      destruct Hwf as (Hs & Hw & Ht & Hv & Hd).
      unfold engine_ok, timer_ok, verdict_ok. rewrite E1, E2, E3, E4, E5.
      split; [exact Hs|]. split; [exact Hw|]. split; [exact Ht|].
      split; [intros r Hr; congruence|exact Hd]. }
    simpl.
    destruct (step st =? 1); [|apply Hk; reflexivity].
    destruct (negb (String.eqb (capability_of line) "")); apply Hk; reflexivity.
  - set (st1 := note_final_capability (extractSmtpCode line) line (append_raw line st)).
    assert (E : step st1 = step st /\ written st1 = written st /\
                settled st1 = settled st /\ destroyed st1 = destroyed st /\
                rawResponse st1 = rawResponse st ++ line ++ LF /\
                currentTimeout st1 = currentTimeout st).
    { subst st1. unfold note_final_capability.
      destruct ((step (append_raw line st) =? 1) && _ && _); [|simpl; tauto].
      destruct (negb _ && negb _); simpl; tauto. }
    destruct E as (E1 & E2 & E3 & E4 & E5 & E6).
    assert (Hwf1 : engine_ok st1).
    { destruct Hwf as (Hs & Hw & Ht & Hv & Hd).
      unfold engine_ok, timer_ok, verdict_ok. rewrite E1, E2, E3, E4, E6.
      split; [exact Hs|]. split; [exact Hw|]. split; [exact Ht|].
      split; [intros r Hr; congruence|exact Hd]. }
    split.
    + apply (engine_ok_on_reply line (rawResponse st) st1 Hwf1); congruence.
    + intros _.
      assert (Hd1 : destroyed st1 = false) by congruence.
      unfold on_reply, clearTimeout, reject, resolve, settle, write,
        setPhaseTimeout, set_step; simpl.
      repeat match goal with
             | |- context [if ?b then _ else _] => destruct b; simpl
             | |- context [match settled ?s with _ => _ end] =>
                 destruct (settled s); simpl
             end; exact Hd1.
Qed.

Lemma engine_ok_on_lines (lines : list string) : forall st,
  engine_ok st -> settled st = Pending -> destroyed st = false ->
  engine_ok (on_lines cfg email lines st) /\
  (settled (on_lines cfg email lines st) = Pending ->
   destroyed (on_lines cfg email lines st) = false).
Proof.
  induction lines as [|line lines IH]; intros st Hwf Hp Hdes; simpl; [auto|].
  destruct (engine_ok_on_line line st Hwf Hp Hdes) as [Hwf1 Hd1].
  destruct (settled (on_line cfg email line st)) eqn:Es.
  - apply IH; auto.
  - split; [exact Hwf1|]. congruence.
  - split; [exact Hwf1|]. congruence.
Qed.

Lemma engine_ok_set_buffer (b : string) (st : State) : engine_ok st -> engine_ok (set_buffer b st).
Proof. intros H. exact H. Qed.

Lemma engine_ok_handle (ev : SocketEvent) (st : State) :
  engine_ok st -> (settled st = Pending -> destroyed st = false) ->
  engine_ok (handle cfg email ev st) /\
  (settled (handle cfg email ev st) = Pending ->
   destroyed (handle cfg email ev st) = false).
Proof.
  intros Hwf Hdes. unfold handle.
  destruct (settled st) eqn:Hp; [|split; [exact Hwf|congruence]..].
  specialize (Hdes eq_refl).
  destruct ev as [data|err| | |].
  - unfold on_data.
    set (st1 := set_buffer (buffer st ++ data) st).
    destruct (negb (Js.includes (buffer st1) CRLF)).
    + split; [exact Hwf|]. intros _. exact Hdes.
    + apply engine_ok_on_lines; [exact Hwf|exact Hp|exact Hdes].
  - destruct Hwf as (Hs & Hw & Ht & Hv & Hd).
    unfold reject, settle, clearTimeout; simpl. rewrite Hp.
    split; [|simpl; discriminate].
    unfold engine_ok, timer_ok, verdict_ok; simpl. rewrite Hp in Hw.
    split; [exact Hs|]. split; [exact Hw|]. split; [discriminate|].
    split; [discriminate|eauto].
  - destruct Hwf as (Hs & Hw & Ht & Hv & Hd).
    unfold reject, settle, clearTimeout; simpl. rewrite Hp.
    split; [|simpl; discriminate].
    unfold engine_ok, timer_ok, verdict_ok; simpl. rewrite Hp in Hw.
    split; [exact Hs|]. split; [exact Hw|]. split; [discriminate|].
    split; [discriminate|eauto].
  - destruct Hwf as (Hs & Hw & Ht & Hv & Hd).
    simpl. destruct (step st <? 4).
    + unfold reject, settle, clearTimeout; simpl. rewrite Hp.
      split; [|simpl; discriminate].
      unfold engine_ok, timer_ok, verdict_ok; simpl. rewrite Hp in Hw.
      split; [exact Hs|]. split; [exact Hw|]. split; [discriminate|].
      split; [discriminate|eauto].
    + unfold clearTimeout; simpl. split; [|intros _; exact Hdes].
      unfold engine_ok, timer_ok, verdict_ok; simpl.
      split; [exact Hs|]. split; [exact Hw|]. split; [auto|].
      split; [exact Hv|exact Hd].
  - destruct (currentTimeout st) as [[phase ms]|] eqn:Ht'.
    + destruct Hwf as (Hs & Hw & Ht & Hv & Hd).
      unfold reject, settle, destroy; simpl. rewrite Hp.
      split; [|simpl; discriminate].
      unfold engine_ok, timer_ok, verdict_ok; simpl. rewrite Hp in Hw.
      split; [exact Hs|]. split; [exact Hw|]. split; [discriminate|].
      split; [discriminate|eauto].
    + split; [exact Hwf|]. intros _. exact Hdes.
Qed.

Lemma engine_ok_fold (events : list SocketEvent) : forall st,
  engine_ok st -> (settled st = Pending -> destroyed st = false) ->
  engine_ok (fold_left (fun st ev => handle cfg email ev st) events st).
Proof.
  induction events as [|ev events IH]; intros st Hwf Hdes; simpl; [exact Hwf|].
  destruct (engine_ok_handle ev st Hwf Hdes) as [H1 H2]. apply IH; assumption.
Qed.

Lemma engine_ok_performSmtpHandshake (events : list SocketEvent) :
  engine_ok (performSmtpHandshake cfg email events).
Proof.
  unfold performSmtpHandshake. apply engine_ok_fold; [apply engine_ok_initial|reflexivity].
Qed.

End HandshakeProtocol.

Section HandshakeProtocolClaims.
Import Handshake.

(** X7. A handshake resolves in two ways only: with the TLS verdict
    ([unknown], [smtp_tls_required]), or, after EHLO, MAIL FROM and
    RCPT TO were all sent, with [interpretSmtpCode] applied to the last
    line received, a final reply line, and to the whole transcript. So
    every [valid], [invalid], [catch_all] or [temporarily_unavailable]
    verdict of the engine is an answer to RCPT TO for the address
    asked. *)
Theorem handshake_verdict_provenance (cfg : SmtpValidationConfig) (email : string)
    (events : list SocketEvent) (r : SmtpValidationResult) :
  let st := performSmtpHandshake cfg email events in
  settled st = Resolved r ->
  (smtpStatus r = unknown /\ reasonCodes r = [smtp_tls_required]) \/
  (written st = [ehlo_command cfg; mail_command cfg; rcpt_command email; quit] /\
   exists raw line,
     rawResponse st = raw ++ line ++ LF /\
     is_continuation line = false /\
     r = interpretSmtpCode (extractSmtpCode line) line (rawResponse st)).
Proof.
  intros st Hr.
  destruct (engine_ok_performSmtpHandshake cfg email events) as (Hs & Hw & _ & Hv & _).
  fold st in Hs, Hw, Hv.
  destruct (Hv r Hr) as [[raw ->]|[H4 Hline]].
  - left. split; reflexivity.
  - right. split; [|exact Hline].
    rewrite Hw, Hr, H4. reflexivity.
Qed.

Lemma handshake_verdict_provenance_witness :
  let cfg := cfg_example false in
  let events := [banner; ehlo_reply; OnData ("250 2.1.0 OK" ++ CRLF);
                 OnData ("550 5.1.1 No such user" ++ CRLF)] in
  let st := performSmtpHandshake cfg "user@example.com" events in
  exists r,
    settled st = Resolved r /\
    smtpStatus r = invalid /\
    written st = [ehlo_command cfg; mail_command cfg;
                  rcpt_command "user@example.com"; quit].
Proof.
  intros cfg events st.
  assert (Hr : exists r, settled st = Resolved r /\ smtpStatus r = invalid)
    by (vm_compute; eexists; split; reflexivity).
  destruct Hr as (r & Hr & Hi). exists r. split; [exact Hr|]. split; [exact Hi|].
  destruct (handshake_verdict_provenance cfg "user@example.com" events r Hr)
    as [[Hu _]|[Hw _]].
  - rewrite Hi in Hu. discriminate.
  - exact Hw.
Defined.

(** The reason code [mapErrorToResult] attaches to the timeout of the
    phase the engine is in. *)
Definition phase_reason (step : Z) : ValidationReasonCode :=
  if step =? 0 then smtp_banner_timeout
  else if step =? 1 then smtp_ehlo_timeout
  else if step =? 3 then smtp_mail_timeout
  else smtp_rcpt_timeout.

(** X8. When the phase timer fires on a handshake still pending, the
    timer is that of the phase the engine is in (banner, ehlo, mail or
    rcpt, with the configured duration); the engine destroys the socket,
    writes nothing, and rejects with [<phase>_timeout], which
    [mapErrorToResult] turns into [unknown] with the reason of that phase
    followed by [smtp_timeout], and which is not a hard block. *)
Theorem handshake_phase_timeout (cfg : SmtpValidationConfig) (email : string)
    (events : list SocketEvent) (phase : string) (ms : Z) :
  let st := performSmtpHandshake cfg email events in
  settled st = Pending ->
  currentTimeout st = Some (phase, ms) ->
  let st' := handle cfg email OnPhaseTimer st in
  let error := new_Error (phase ++ "_timeout") in
  (phase, ms) = phase_timer cfg (step st) /\
  settled st' = Rejected error /\
  destroyed st' = true /\
  written st' = written st /\
  smtpStatus (mapErrorToResult error) = unknown /\
  reasonCodes (mapErrorToResult error) = [phase_reason (step st); smtp_timeout] /\
  isHardBlockError error = false.
Proof.
  intros st Hp Ht st' error.
  destruct (engine_ok_performSmtpHandshake cfg email events) as (Hs & _ & Htimer & _).
  fold st in Hs, Htimer.
  destruct (Htimer Hp) as [Hnone|Hsome]; [congruence|].
  rewrite Ht in Hsome. injection Hsome as Hph.
  split; [exact Hph|].
  subst st' error. unfold handle. rewrite Hp, Ht.
  unfold reject, settle, destroy; simpl. rewrite Hp. simpl.
  split; [reflexivity|]. split; [reflexivity|]. split; [reflexivity|].
  unfold phase_timer, phase_reason in *.
  destruct Hs as [E | [E | [E | E]]]; rewrite E in Hph |- *; simpl in Hph |- *;
    injection Hph as -> _; vm_compute; repeat split.
Qed.

Lemma handshake_phase_timeout_witness :
  let cfg := cfg_example false in
  let st := performSmtpHandshake cfg "user@example.com" [banner] in
  settled st = Pending /\
  currentTimeout st = Some ("ehlo", 5000) /\
  reasonCodes (mapErrorToResult (new_Error "ehlo_timeout"))
  = [smtp_ehlo_timeout; smtp_timeout].
Proof.
  intros cfg st.
  assert (Hp : settled st = Pending) by reflexivity.
  assert (Ht : currentTimeout st = Some ("ehlo", 5000)) by reflexivity.
  split; [exact Hp|]. split; [exact Ht|].
  destruct (handshake_phase_timeout cfg "user@example.com" [banner] "ehlo" 5000 Hp Ht)
    as (_ & _ & _ & _ & _ & Hr & _).
  exact Hr.
Defined.

End HandshakeProtocolClaims.

(** ** The overall timer *)

Section DecimalText.
Import Js.

Lemma append_cons (c : ascii) (s t : string) : String c s ++ t = String c (s ++ t).
Proof. reflexivity. Qed.

Lemma append_nil_l (t : string) : "" ++ t = t.
Proof. reflexivity. Qed.

Lemma includes_skip (c : ascii) (s sub : string) :
  startsWith (String c s) sub = false -> includes (String c s) sub = includes s sub.
Proof. intros H. change (includes (String c s) sub) with
         (startsWith (String c s) sub || includes s sub). now rewrite H. Qed.

Lemma includes_here (c : ascii) (s sub : string) :
  startsWith (String c s) sub = true -> includes (String c s) sub = true.
Proof. intros H. change (includes (String c s) sub) with
         (startsWith (String c s) sub || includes s sub). now rewrite H. Qed.

(** A character of the decimal notation of an integer. *)
Definition numeric (c : ascii) : bool := is_digit c || Ascii.eqb c "-".

Fixpoint all_numeric (s : string) : bool :=
  match s with
  | EmptyString => true
  | String c s' => numeric c && all_numeric s'
  end.

Lemma all_numeric_string_of_uint (d : Decimal.uint) :
  all_numeric (NilEmpty.string_of_uint d) = true.
Proof. induction d; simpl; auto. Qed.

Lemma all_numeric_decimal (n : Z) : all_numeric (Handshake.decimal n) = true.
Proof.
  unfold Handshake.decimal, NilZero.string_of_int, NilZero.string_of_uint.
  destruct (Z.to_int n) as [d|d]; destruct d; simpl;
    try reflexivity; apply all_numeric_string_of_uint.
Qed.

(** A pattern that starts with a non-numeric character does not begin
    inside a numeric text. *)
Lemma includes_numeric (d t : string) (a : ascii) (p : string) :
  all_numeric d = true -> numeric a = false ->
  includes (d ++ t) (String a p) = includes t (String a p).
Proof.
  intros Hd Ha. induction d as [|c d IH]; [reflexivity|].
  simpl in Hd. apply andb_true_iff in Hd as [Hc Hd].
  rewrite append_cons, includes_skip; [now apply IH|].
  change (startsWith (String c (d ++ t)) (String a p))
    with (Ascii.eqb a c && startsWith (d ++ t) p).
  destruct (Ascii.eqb_spec a c) as [->|_]; [congruence|reflexivity].
Qed.

Lemma map_string_app (f : ascii -> ascii) (a b : string) :
  map_string f (a ++ b) = map_string f a ++ map_string f b.
Proof.
  induction a as [|c a IH]; [reflexivity|].
  rewrite append_cons. simpl map_string. rewrite IH. reflexivity.
Qed.

Lemma lower_ascii_numeric (c : ascii) : numeric c = true -> lower_ascii c = c.
Proof.
  unfold numeric, is_digit, lower_ascii. intros H.
  destruct (Ascii.eqb c "-") eqn:Em;
    [apply Ascii.eqb_eq in Em; subst c; reflexivity|].
  rewrite orb_false_r in H. apply andb_true_iff in H as [H1 H2].
  apply Nat.leb_le in H1, H2.
  destruct ((65 <=? nat_of_ascii c)%nat) eqn:E; [|reflexivity].
  apply Nat.leb_le in E. lia.
Qed.

Lemma toLowerCase_numeric (s : string) : all_numeric s = true -> toLowerCase s = s.
Proof.
  unfold toLowerCase. induction s as [|c s IH]; [reflexivity|].
  simpl. intros H. apply andb_true_iff in H as [Hc Hs].
  now rewrite lower_ascii_numeric, IH.
Qed.

End DecimalText.

Ltac skip_prefix :=
  repeat rewrite append_cons; rewrite ?append_nil_l;
  repeat (rewrite includes_skip by reflexivity).

Ltac absent_after_prefix :=
  skip_prefix;
  rewrite includes_numeric by (try apply all_numeric_decimal; reflexivity);
  reflexivity.

Section OverallTimer.
Import Orchestrator.

(** The error of [timeoutPromise(ms)]. *)
Definition overall_timeout_error (ms : Z) : JsError :=
  new_Error ("SMTP operation timeout after " ++ Handshake.decimal ms ++ "ms").

Lemma mapErrorToResult_overall_timeout (ms : Z) :
  mapErrorToResult (overall_timeout_error ms) =
  mkResult unknown [smtp_timeout] (Some (message (overall_timeout_error ms))).
Proof.
  unfold mapErrorToResult, overall_timeout_error, new_Error, code_is.
  cbn [message code].
  set (d := Handshake.decimal ms).
  assert (Hd : all_numeric d = true) by apply all_numeric_decimal.
  replace (extractSmtpCode ("SMTP operation timeout after " ++ d ++ "ms")) with 0
    by reflexivity.
  cbn [Z.ltb Z.compare].
  replace (Js.includes ("SMTP operation timeout after " ++ d ++ "ms") "banner_timeout")
    with false by (symmetry; subst d; absent_after_prefix).
  replace (Js.includes ("SMTP operation timeout after " ++ d ++ "ms") "ehlo_timeout")
    with false by (symmetry; subst d; absent_after_prefix).
  replace (Js.includes ("SMTP operation timeout after " ++ d ++ "ms") "mail_timeout")
    with false by (symmetry; subst d; absent_after_prefix).
  replace (Js.includes ("SMTP operation timeout after " ++ d ++ "ms") "rcpt_timeout")
    with false by (symmetry; subst d; absent_after_prefix).
  replace (Js.includes ("SMTP operation timeout after " ++ d ++ "ms") "ECONNREFUSED")
    with false by (symmetry; subst d; absent_after_prefix).
  replace (Js.includes ("SMTP operation timeout after " ++ d ++ "ms") "ENETUNREACH")
    with false by (symmetry; subst d; absent_after_prefix).
  replace (Js.includes ("SMTP operation timeout after " ++ d ++ "ms") "EHOSTUNREACH")
    with false by (symmetry; subst d; absent_after_prefix).
  replace (Js.includes ("SMTP operation timeout after " ++ d ++ "ms") "ECONNRESET")
    with false by (symmetry; subst d; absent_after_prefix).
  replace (Js.includes ("SMTP operation timeout after " ++ d ++ "ms") "timeout")
    with true
    by (symmetry; skip_prefix; apply includes_here; reflexivity).
  cbn [orb]. cbv iota. reflexivity.
Qed.

Lemma isHardBlockError_overall_timeout (ms : Z) :
  isHardBlockError (overall_timeout_error ms) = false.
Proof.
  unfold isHardBlockError, overall_timeout_error, new_Error. cbn [message].
  unfold Js.toLowerCase. rewrite !map_string_app.
  fold (Js.toLowerCase (Handshake.decimal ms)).
  rewrite (toLowerCase_numeric _ (all_numeric_decimal ms)).
  change (Js.map_string Js.lower_ascii "SMTP operation timeout after ")
    with "smtp operation timeout after ".
  change (Js.map_string Js.lower_ascii "ms") with "ms".
  unfold blockIndicators. cbn [existsb].
  repeat match goal with
         | |- context [Js.includes ?m ?p] =>
             replace (Js.includes m p) with false by (symmetry; absent_after_prefix)
         end.
  reflexivity.
Qed.

(** X9. A handshake that has not settled when the overall timer fires (a
    server that went silent without any phase timer armed, or that closed
    the connection after RCPT TO was sent) makes [validateSmtpSingle]
    return [unknown] with the single reason [smtp_timeout] and the
    message of the timer as raw response; the attempt is recorded as a
    failure that is not a hard block, and the slot is released. *)
Theorem validateSmtpSingle_overall_timeout (email mxHost : string)
    (cfg : SmtpValidationConfig) (env : Env) (w : World) :
  slot_error (attempt env (calls w)) = None ->
  Handshake.settled
    (Handshake.performSmtpHandshake cfg email (socket_events (attempt env (calls w))))
  = Handshake.Pending ->
  validateSmtpSingle email mxHost cfg env w =
  (inl (mkResult unknown [smtp_timeout]
          (Some ("SMTP operation timeout after "
                 ++ Handshake.decimal (overallTimeoutMs cfg) ++ "ms"))),
   mkWorld (S (calls w))
     (trace w ++ [AcquireSlot mxHost (throttle_config cfg); Connect mxHost email;
                  RecordFailure mxHost false; ReleaseSlot mxHost])).
Proof.
  intros Hslot Hpending. rewrite validateSmtpSingle_run.
  unfold attempt_outcome, attempt_trace, raced, Handshake.race.
  rewrite Hslot, Hpending.
  fold (overall_timeout_error (overallTimeoutMs cfg)).
  rewrite mapErrorToResult_overall_timeout, isHardBlockError_overall_timeout.
  reflexivity.
Qed.

(** The server answers up to MAIL FROM, then closes the connection once
    RCPT TO was sent. *)
Definition env_closing_after_rcpt : Env :=
  mkEnv (inl (mkMxResult true (Some [mkMx "mx1.example.com" 10])))
    (fun _ => mkAttempt None
                [banner; ehlo_reply;
                 Handshake.OnData ("250 2.1.0 OK" ++ Handshake.CRLF);
                 Handshake.OnEnd])
    (fun _ => "test-1700000000000-k3x9q")
    (fun _ => 0%Q).

Lemma validateSmtpSingle_overall_timeout_witness :
  fst (validateSmtpSingle "user@example.com" "mx1.example.com" (cfg_example false)
         env_closing_after_rcpt (mkWorld O []))
  = inl (mkResult unknown [smtp_timeout]
           (Some "SMTP operation timeout after 15000ms")).
Proof.
  rewrite (validateSmtpSingle_overall_timeout "user@example.com" "mx1.example.com"
             (cfg_example false) env_closing_after_rcpt (mkWorld O []));
    reflexivity.
Defined.

End OverallTimer.

(** ** The handshake engine: independence of the segmentation of the
    byte stream *)

Section LineSplitting.
Import Js.

Lemma string_app_assoc (a b c : string) : (a ++ b) ++ c = a ++ (b ++ c).
Proof.
  induction a as [|x a IH]; [reflexivity|].
  change (String x ((a ++ b) ++ c) = String x (a ++ (b ++ c))). now rewrite IH.
Qed.

Lemma string_app_nil_r (a : string) : a ++ "" = a.
Proof.
  induction a as [|x a IH]; [reflexivity|].
  change (String x (a ++ "") = String x a). now rewrite IH.
Qed.

Lemma split_crlf_aux_nonempty (s : string) : forall cur, split_crlf_aux cur s <> [].
Proof.
  induction s as [|c s IH]; intros cur; simpl; [discriminate|].
  destruct s as [|d s']; [discriminate|].
  destruct (Ascii.eqb c "013" && Ascii.eqb d "010"); [discriminate|apply IH].
Qed.

Lemma split_crlf_aux_cons (cur : string) (c d : ascii) (s : string) :
  split_crlf_aux cur (String c (String d s)) =
  if Ascii.eqb c "013" && Ascii.eqb d "010"
  then cur :: split_crlf_aux "" s
  else split_crlf_aux (cur ++ String c "") (String d s).
Proof. reflexivity. Qed.

(** The accumulator [cur] stands for characters already scanned: no
    separator starts inside it. *)
Definition scanned (cur s : string) : Prop :=
  split_crlf_aux "" (cur ++ s) = split_crlf_aux cur s.

Lemma scanned_nil (s : string) : scanned "" s.
Proof. reflexivity. Qed.

Lemma scanned_step (cur : string) (c d : ascii) (s : string) :
  scanned cur (String c (String d s)) ->
  Ascii.eqb c "013" && Ascii.eqb d "010" = false ->
  scanned (cur ++ String c "") (String d s).
Proof.
  unfold scanned. intros H Hsep.
  rewrite string_app_assoc.
  change (String c "" ++ String d s) with (String c (String d s)). rewrite H.
  simpl. rewrite Hsep. reflexivity.
Qed.

(** Splitting a stream received in two parts: the complete lines of the
    first part, then the split of what it left, followed by the second
    part. *)
Lemma split_crlf_aux_app (n : nat) : forall (a cur b : string),
  (String.length a <= n)%nat ->
  scanned cur (a ++ b) ->
  split_crlf_aux cur (a ++ b) =
  (removelast (split_crlf_aux cur a) ++
   split_crlf_aux "" (List.last (split_crlf_aux cur a) "" ++ b))%list.
Proof.
  induction n as [|n IH]; intros a cur b Hlen Hsc.
  - destruct a; [|simpl in Hlen; lia]. simpl. symmetry. exact Hsc.
  - destruct a as [|c a']; [simpl; symmetry; exact Hsc|].
    destruct a' as [|d a''].
    + simpl (split_crlf_aux cur (String c "")).
      simpl (removelast _). simpl (List.last _ _).
      rewrite app_nil_l, string_app_assoc. symmetry. exact Hsc.
    + simpl in Hlen.
      change (String c (String d a'') ++ b) with (String c (String d (a'' ++ b))) in *.
      rewrite !split_crlf_aux_cons.
      destruct (Ascii.eqb c "013" && Ascii.eqb d "010") eqn:Hsep.
      * pose proof (split_crlf_aux_nonempty a'' "") as Hne.
        rewrite (IH a'' "" b) by (try lia; apply scanned_nil).
        destruct (split_crlf_aux "" a'') as [|x l] eqn:El; [contradiction|].
        reflexivity.
      * change (String d (a'' ++ b)) with (String d a'' ++ b).
        apply IH; [simpl; lia|].
        change (String d a'' ++ b) with (String d (a'' ++ b)).
        apply scanned_step; assumption.
Qed.

Lemma split_crlf_app (a b : string) :
  split_crlf (a ++ b) =
  (removelast (split_crlf a) ++ split_crlf (List.last (split_crlf a) "" ++ b))%list.
Proof.
  unfold split_crlf.
  apply (split_crlf_aux_app (String.length a)); [lia|apply scanned_nil].
Qed.

Lemma includes_cons (c : ascii) (s sub : string) :
  includes (String c s) sub = startsWith (String c s) sub || includes s sub.
Proof. reflexivity. Qed.

Lemma startsWith_separator (c d : ascii) (s : string) :
  startsWith (String c (String d s)) (String "013" (String "010" "")) =
  Ascii.eqb "013" c && Ascii.eqb "010" d.
Proof.
  transitivity (Ascii.eqb "013" c && (Ascii.eqb "010" d && startsWith s ""));
    [reflexivity|].
  replace (startsWith s "") with true by (destruct s; reflexivity).
  now rewrite andb_true_r.
Qed.

(** A buffer without separator is a single, incomplete line. *)
Lemma split_crlf_aux_no_separator (n : nat) : forall (s cur : string),
  (String.length s <= n)%nat ->
  includes s (String "013" (String "010" "")) = false ->
  split_crlf_aux cur s = [cur ++ s].
Proof.
  induction n as [|n IH]; intros s cur Hlen Hinc.
  - destruct s; [|simpl in Hlen; lia]. simpl. now rewrite string_app_nil_r.
  - destruct s as [|c s']; [simpl; now rewrite string_app_nil_r|].
    destruct s' as [|d s'']; [reflexivity|].
    simpl in Hlen.
    rewrite includes_cons, startsWith_separator in Hinc.
    apply orb_false_iff in Hinc as [Hhere Hrest].
    rewrite split_crlf_aux_cons, (Ascii.eqb_sym c), (Ascii.eqb_sym d), Hhere.
    rewrite (IH (String d s'') (cur ++ String c "")).
    + now rewrite string_app_assoc.
    + simpl; lia.
    + exact Hrest.
Qed.

Lemma split_crlf_no_separator (s : string) :
  includes s (String "013" (String "010" "")) = false -> split_crlf s = [s].
Proof.
  intros H. unfold split_crlf.
  now rewrite (split_crlf_aux_no_separator (String.length s) s "") by (lia || exact H).
Qed.

Lemma or_else_nil_r (a : string) : or_else a "" = a.
Proof. destruct a; reflexivity. Qed.

End LineSplitting.

Section Segmentation.
Import Handshake.

Variable cfg : SmtpValidationConfig.
Variable email : string.

(** The handler of [data] events, without its shortcut for a buffer that
    holds no complete line. *)
Lemma on_data_lines (data : string) (st : State) :
  let lines := Js.split_crlf (buffer st ++ data) in
  on_data cfg email data st =
  on_lines cfg email (removelast lines) (set_buffer (List.last lines "") st).
Proof.
  intros lines. unfold on_data. simpl (buffer (set_buffer _ _)).
  destruct (Js.includes (buffer st ++ data) CRLF) eqn:Hinc; simpl negb; cbv iota.
  - fold lines. rewrite or_else_nil_r.
    destruct st; reflexivity.
  - subst lines. rewrite (split_crlf_no_separator _ Hinc). reflexivity.
Qed.

(** Nothing in the handling of a line reads or writes the buffer. *)
Lemma settle_set_buffer (s : Settlement) (b : string) (st : State) :
  settle s (set_buffer b st) = set_buffer b (settle s st).
Proof.
  unfold settle. change (settled (set_buffer b st)) with (settled st).
  destruct (settled st); reflexivity.
Qed.

Lemma note_final_capability_set_buffer (code : Z) (b line : string) (st : State) :
  note_final_capability code line (set_buffer b st) =
  set_buffer b (note_final_capability code line st).
Proof.
  unfold note_final_capability. cbv zeta.
  change (step (set_buffer b st)) with (step st).
  change (ehloCapabilities (set_buffer b st)) with (ehloCapabilities st).
  destruct ((step st =? 1) && (code =? 250) && (4 <? Z.of_nat (String.length line)));
    [|reflexivity].
  destruct (negb (capability_of line =? "")%string &&
            negb (string_in (capability_of line) (ehloCapabilities st)));
    reflexivity.
Qed.

Lemma on_reply_set_buffer (code : Z) (b line : string) (st : State) :
  on_reply cfg email code line (set_buffer b st) =
  set_buffer b (on_reply cfg email code line st).
Proof.
  unfold on_reply, resolve, reject. cbv zeta.
  change (step (set_buffer b st)) with (step st).
  change (ehloCapabilities (set_buffer b st)) with (ehloCapabilities st).
  change (rawResponse (set_buffer b st)) with (rawResponse st).
  repeat match goal with
         | |- context [if ?c then _ else _] => destruct c
         end;
    first [reflexivity
          | apply settle_set_buffer
          | exact (settle_set_buffer _ b (write quit st))].
Qed.

Lemma on_line_set_buffer (b line : string) (st : State) :
  on_line cfg email line (set_buffer b st) = set_buffer b (on_line cfg email line st).
Proof.
  unfold on_line. cbv zeta.
  destruct (line =? "")%string; [reflexivity|].
  destruct (is_continuation line).
  - change (step (append_raw line (set_buffer b st))) with (step st).
    change (step (append_raw line st)) with (step st).
    destruct (step st =? 1); [|reflexivity].
    destruct (negb (capability_of line =? "")%string); reflexivity.
  - change (append_raw line (set_buffer b st)) with (set_buffer b (append_raw line st)).
    rewrite note_final_capability_set_buffer.
    change (clearTimeout (set_buffer b ?x)) with (set_buffer b (clearTimeout x)).
    apply on_reply_set_buffer.
Qed.

Lemma on_lines_set_buffer (b : string) (lines : list string) : forall st,
  on_lines cfg email lines (set_buffer b st) = set_buffer b (on_lines cfg email lines st).
Proof.
  induction lines as [|line lines IH]; intros st; simpl; [reflexivity|].
  rewrite on_line_set_buffer. simpl (settled (set_buffer _ _)).
  destruct (settled (on_line cfg email line st)); [apply IH|reflexivity|reflexivity].
Qed.

Lemma on_lines_app (l1 l2 : list string) : forall st,
  settled st = Pending ->
  on_lines cfg email (l1 ++ l2) st =
  match settled (on_lines cfg email l1 st) with
  | Pending => on_lines cfg email l2 (on_lines cfg email l1 st)
  | _ => on_lines cfg email l1 st
  end.
Proof.
  induction l1 as [|line l1 IH]; intros st Hp; simpl.
  - rewrite Hp. reflexivity.
  - destruct (settled (on_line cfg email line st)) eqn:Es;
      [apply IH; exact Es| |]; rewrite Es; reflexivity.
Qed.

(** Two states that differ at most by the unread rest of the buffer. *)
Definition same_but_buffer (st1 st2 : State) : Prop :=
  set_buffer "" st1 = set_buffer "" st2.

Lemma last_app_nonempty (l1 l2 : list string) :
  l2 <> [] -> List.last (l1 ++ l2) "" = List.last l2 "".
Proof.
  intros Hne. rewrite (app_removelast_last "" Hne), app_assoc, !last_last.
  reflexivity.
Qed.

Lemma handle_settled (ev : SocketEvent) (st : State) :
  settled st <> Pending -> handle cfg email ev st = st.
Proof. unfold handle. destruct (settled st); congruence. Qed.

Lemma handle_data_pending (data : string) (st : State) :
  settled st = Pending -> handle cfg email (OnData data) st = on_data cfg email data st.
Proof. intros Hp. unfold handle. rewrite Hp. reflexivity. Qed.

Lemma set_buffer_set_buffer (b1 b2 : string) (st : State) :
  set_buffer b1 (set_buffer b2 st) = set_buffer b1 st.
Proof. reflexivity. Qed.

(** One [data] event carrying [a ++ b] against two carrying [a] and
    [b]. *)
Lemma handle_data_app (a b : string) (st : State) :
  let two := handle cfg email (OnData b) (handle cfg email (OnData a) st) in
  let one := handle cfg email (OnData (a ++ b)) st in
  same_but_buffer two one /\ (settled two = Pending -> two = one).
Proof.
  intros two one. subst two one.
  destruct (settled st) eqn:Hp.
  2,3: rewrite !(handle_settled _ st) by congruence; split; reflexivity.
  rewrite (handle_data_pending a st Hp), (handle_data_pending (a ++ b) st Hp).
  rewrite !on_data_lines. rewrite <- string_app_assoc.
  rewrite (split_crlf_app (buffer st ++ a) b).
  set (la := Js.split_crlf (buffer st ++ a)).
  set (lb := Js.split_crlf (List.last la "" ++ b)).
  assert (Hlb : lb <> []) by apply split_crlf_aux_nonempty.
  rewrite (removelast_app _ Hlb), (last_app_nonempty _ _ Hlb).
  rewrite !on_lines_set_buffer.
  rewrite (on_lines_app _ _ st Hp).
  set (sa := on_lines cfg email (removelast la) st).
  destruct (settled sa) eqn:Ea.
  - rewrite handle_data_pending by exact Ea.
    rewrite on_data_lines.
    change (buffer (set_buffer (List.last la "") sa)) with (List.last la "").
    fold lb.
    rewrite set_buffer_set_buffer, !on_lines_set_buffer. split; reflexivity.
  - rewrite handle_settled
      by (change (settled (set_buffer (List.last la "") sa)) with (settled sa); congruence).
    split; [reflexivity|].
    change (settled (set_buffer (List.last la "") sa)) with (settled sa). congruence.
  - rewrite handle_settled
      by (change (settled (set_buffer (List.last la "") sa)) with (settled sa); congruence).
    split; [reflexivity|].
    change (settled (set_buffer (List.last la "") sa)) with (settled sa). congruence.
Qed.

Lemma handle_same_but_buffer (ev : SocketEvent) (st1 st2 : State) :
  same_but_buffer st1 st2 -> (settled st1 = Pending -> st1 = st2) ->
  same_but_buffer (handle cfg email ev st1) (handle cfg email ev st2) /\
  (settled (handle cfg email ev st1) = Pending ->
   handle cfg email ev st1 = handle cfg email ev st2).
Proof.
  intros Hs He.
  destruct (settled st1) eqn:E1.
  - rewrite <- (He eq_refl). split; reflexivity.
  - assert (E2 : settled st2 = Resolved result).
    { apply (f_equal settled) in Hs. simpl in Hs. congruence. }
    unfold handle. rewrite E1, E2. split; [exact Hs|congruence].
  - assert (E2 : settled st2 = Rejected error).
    { apply (f_equal settled) in Hs. simpl in Hs. congruence. }
    unfold handle. rewrite E1, E2. split; [exact Hs|congruence].
Qed.

Lemma fold_same_but_buffer (events : list SocketEvent) : forall st1 st2,
  same_but_buffer st1 st2 -> (settled st1 = Pending -> st1 = st2) ->
  let run := fold_left (fun st ev => handle cfg email ev st) events in
  same_but_buffer (run st1) (run st2) /\
  (settled (run st1) = Pending -> run st1 = run st2).
Proof.
  induction events as [|ev events IH]; intros st1 st2 Hs He; simpl; [auto|].
  destruct (handle_same_but_buffer ev st1 st2 Hs He) as [Hs' He'].
  apply IH; assumption.
Qed.

End Segmentation.

(** ** The handlers after the promise has settled *)

Section Handlers.
Import Handshake.

Variable cfg : SmtpValidationConfig.
Variable email : string.

(** On a pending promise a turn leaves the handler exactly when it
    settles the promise. *)
Lemma line_returns_settles (line : string) (st : State) :
  settled st = Pending ->
  line_returns cfg line st =
  match settled (on_line cfg email line st) with
  | Pending => false
  | _ => true
  end.
Proof.
  intros Hp. unfold line_returns, on_line. cbv zeta.
  destruct (line =? "")%string; [now rewrite Hp|].
  destruct (is_continuation line).
  - change (step (append_raw line st)) with (step st).
    destruct (step st =? 1); [destruct (negb (capability_of line =? "")%string)|];
      simpl; now rewrite Hp.
  - set (st1 := clearTimeout (note_final_capability (extractSmtpCode line) line
                                (append_raw line st))).
    assert (Hp1 : settled st1 = Pending).
    { subst st1. simpl. rewrite settled_note_final. exact Hp. }
    clearbody st1. unfold reply_returns, on_reply, resolve, reject, settle. cbv zeta.
    repeat match goal with
           | |- context [if ?c then _ else _] => destruct c; simpl
           end;
      rewrite ?Hp1; simpl; try reflexivity.
    all: rewrite Hp1; reflexivity.
Qed.

Lemma deliver_lines_pending (lines : list string) : forall st,
  settled st = Pending ->
  deliver_lines cfg email lines st = on_lines cfg email lines st.
Proof.
  induction lines as [|line lines IH]; intros st Hp; simpl; [reflexivity|].
  rewrite (line_returns_settles line st Hp).
  destruct (settled (on_line cfg email line st)) eqn:E; [|reflexivity|reflexivity].
  apply IH. exact E.
Qed.

(** Until the promise settles the handlers and the engine are one. *)
Lemma deliver_pending (ev : SocketEvent) (st : State) :
  settled st = Pending -> deliver cfg email ev st = handle cfg email ev st.
Proof.
  intros Hp. unfold handle. rewrite Hp.
  destruct ev; try reflexivity.
  unfold deliver, deliver_data, on_data. cbv zeta.
  destruct (negb (Js.includes _ CRLF)); [reflexivity|].
  apply deliver_lines_pending. exact Hp.
Qed.

(** A settled promise stays as it is: [resolve] and [reject] do nothing
    to it. *)
Lemma settled_settle_sticky (s : Settlement) (st : State) :
  settled st <> Pending -> settled (settle s st) = settled st.
Proof.
  intros Hn. unfold settle. destruct (settled st) eqn:E; [congruence|exact E|exact E].
Qed.

Lemma settled_on_line_sticky (line : string) (st : State) :
  settled st <> Pending -> settled (on_line cfg email line st) = settled st.
Proof.
  intros Hn. unfold on_line. cbv zeta.
  destruct (line =? "")%string; [reflexivity|].
  destruct (is_continuation line).
  - change (step (append_raw line st)) with (step st).
    destruct (step st =? 1); [destruct (negb (capability_of line =? "")%string)|];
      reflexivity.
  - set (st1 := clearTimeout (note_final_capability (extractSmtpCode line) line
                                (append_raw line st))).
    assert (H1 : settled st1 = settled st).
    { subst st1. simpl. now rewrite settled_note_final. }
    rewrite <- H1 in Hn. rewrite <- H1. clearbody st1.
    unfold on_reply, resolve, reject. cbv zeta.
    repeat match goal with
           | |- context [if ?c then _ else _] => destruct c
           end;
      first [reflexivity | now rewrite settled_settle_sticky].
Qed.

Lemma settled_deliver_lines_sticky (lines : list string) : forall st,
  settled st <> Pending -> settled (deliver_lines cfg email lines st) = settled st.
Proof.
  induction lines as [|line lines IH]; intros st Hn; simpl; [reflexivity|].
  pose proof (settled_on_line_sticky line st Hn) as H1.
  destruct (line_returns cfg line st); [exact H1|].
  rewrite IH; [exact H1|]. now rewrite H1.
Qed.

Lemma settled_deliver_sticky (ev : SocketEvent) (st : State) :
  settled st <> Pending -> settled (deliver cfg email ev st) = settled st.
Proof.
  intros Hn. destruct ev; simpl.
  - unfold deliver_data. cbv zeta.
    destruct (negb (Js.includes _ CRLF)); [reflexivity|].
    now rewrite settled_deliver_lines_sticky.
  - unfold reject. now rewrite settled_settle_sticky.
  - unfold reject. now rewrite settled_settle_sticky.
  - destruct (step st <? 4); [|reflexivity].
    unfold reject. now rewrite settled_settle_sticky.
  - destruct (currentTimeout st) as [[phase ms]|]; [|reflexivity].
    unfold reject. now rewrite settled_settle_sticky.
Qed.

Definition deliver_from (events : list SocketEvent) (st : State) : State :=
  fold_left (fun st ev => deliver cfg email ev st) events st.

Definition handle_from (events : list SocketEvent) (st : State) : State :=
  fold_left (fun st ev => handle cfg email ev st) events st.

Lemma settled_deliver_from_sticky (events : list SocketEvent) : forall st,
  settled st <> Pending -> settled (deliver_from events st) = settled st.
Proof.
  induction events as [|ev events IH]; intros st Hn; simpl; [reflexivity|].
  pose proof (settled_deliver_sticky ev st Hn) as H1.
  unfold deliver_from in IH. rewrite IH; [exact H1|]. now rewrite H1.
Qed.

Lemma handle_from_settled (events : list SocketEvent) : forall st,
  settled st <> Pending -> handle_from events st = st.
Proof.
  induction events as [|ev events IH]; intros st Hn; simpl; [reflexivity|].
  rewrite (handle_settled cfg email ev st Hn). now apply IH.
Qed.

(** The engine is the handlers stopped at the settlement of the promise:
    its state is theirs after the events up to the one that settled it,
    and the promise settles the same way if the later events are
    delivered too. *)
Lemma handle_from_stops (events : list SocketEvent) : forall st,
  settled st = Pending ->
  exists k : nat,
    handle_from events st = deliver_from (take k events) st /\
    (forall j, (j < k)%nat -> settled (deliver_from (take j events) st) = Pending) /\
    settled (deliver_from events st) = settled (handle_from events st).
Proof.
  induction events as [|ev events IH]; intros st Hp.
  - exists O. split; [reflexivity|]. split; [intros; lia|reflexivity].
  - simpl. rewrite <- (deliver_pending ev st Hp).
    destruct (settled (deliver cfg email ev st)) eqn:E.
    + destruct (IH _ E) as (k & Hk & Hb & Hs).
      exists (S k). split; [exact Hk|]. split; [|exact Hs].
      intros [|j] Hj; [exact Hp|]. simpl. apply Hb. lia.
    + exists 1%nat. simpl.
      rewrite handle_from_settled by congruence.
      split; [reflexivity|]. split.
      * intros j Hj. assert (j = O) by lia. subst j. exact Hp.
      * unfold deliver_from in *. rewrite settled_deliver_from_sticky by congruence.
        reflexivity.
    + exists 1%nat. simpl.
      rewrite handle_from_settled by congruence.
      split; [reflexivity|]. split.
      * intros j Hj. assert (j = O) by lia. subst j. exact Hp.
      * unfold deliver_from in *. rewrite settled_deliver_from_sticky by congruence.
        reflexivity.
Qed.

End Handlers.

Section HandlersCommands.
Import Handshake.

Variable cfg : SmtpValidationConfig.
Variable email : string.

(** The commands written, the QUITs left out. *)
Definition dialogue (st : State) : list string :=
  List.filter (fun c => negb (String.eqb c quit)) (written st).

Lemma ehlo_not_quit : String.eqb (ehlo_command cfg) quit = false.
Proof. reflexivity. Qed.

Lemma mail_not_quit : String.eqb (mail_command cfg) quit = false.
Proof. reflexivity. Qed.

Lemma rcpt_not_quit : String.eqb (rcpt_command email) quit = false.
Proof. reflexivity. Qed.

(** What the handlers keep true in every state, settled or not. *)
Definition handlers_ok (st : State) : Prop :=
  (step st = 0 \/ step st = 1 \/ step st = 3 \/ step st = 4) /\
  dialogue st = commands cfg email (step st) /\
  (settled st = Pending -> ~ In quit (written st)) /\
  (forall r, settled st = Resolved r -> In quit (written st)).

Lemma handlers_ok_initial : handlers_ok (initial cfg).
Proof.
  unfold handlers_ok, dialogue; simpl.
  split; [auto|]. split; [reflexivity|]. split; [auto|discriminate].
Qed.

Lemma handlers_ok_same (st st' : State) :
  step st' = step st -> written st' = written st -> settled st' = settled st ->
  handlers_ok st -> handlers_ok st'.
Proof.
  intros E1 E2 E3. unfold handlers_ok, dialogue. now rewrite E1, E2, E3.
Qed.

(** [reject], and [resolve] after a QUIT was written. *)
Lemma handlers_ok_reject (e : JsError) (st : State) :
  handlers_ok st -> handlers_ok (reject e st).
Proof.
  intros (Hs & Hw & Hp & Hr). unfold reject, settle.
  destruct (settled st) eqn:E.
  - unfold handlers_ok, dialogue; simpl.
    split; [exact Hs|]. split; [exact Hw|]. split; discriminate.
  - unfold handlers_ok. rewrite E. auto.
  - unfold handlers_ok. rewrite E. auto.
Qed.

Lemma dialogue_write_quit (st : State) : dialogue (write quit st) = dialogue st.
Proof.
  unfold dialogue, write; simpl. rewrite List.filter_app; simpl.
  now rewrite app_nil_r.
Qed.

Lemma dialogue_write (c : string) (st : State) :
  String.eqb c quit = false -> dialogue (write c st) = (dialogue st ++ [c])%list.
Proof.
  intros Hc. unfold dialogue, write; simpl. rewrite List.filter_app; simpl.
  now rewrite Hc.
Qed.

Lemma handlers_ok_resolve_quit (r : SmtpValidationResult) (st : State) :
  handlers_ok st -> handlers_ok (resolve r (write quit st)).
Proof.
  intros (Hs & Hw & Hp & Hr).
  assert (Hq : In quit (written (write quit st)))
    by (unfold write; simpl; apply in_or_app; right; now left).
  unfold resolve, settle.
  change (settled (write quit st)) with (settled st).
  destruct (settled st) eqn:E.
  - unfold handlers_ok; simpl. split; [exact Hs|].
    split; [rewrite <- Hw, <- (dialogue_write_quit st); reflexivity|].
    split; [discriminate|]. intros _ _. exact Hq.
  - unfold handlers_ok. change (settled (write quit st)) with (settled st).
    change (step (write quit st)) with (step st).
    rewrite dialogue_write_quit, E. split; [exact Hs|]. split; [exact Hw|].
    split; [discriminate|]. intros _ _. exact Hq.
  - unfold handlers_ok. change (settled (write quit st)) with (settled st).
    change (step (write quit st)) with (step st).
    rewrite dialogue_write_quit, E. split; [exact Hs|]. split; [exact Hw|].
    split; [discriminate|]. intros _ _. exact Hq.
Qed.

(** A command sent with its phase timer, at the step that expects it. *)
Lemma handlers_ok_advance (phase : string) (ms : Z) (c : string) (n : Z) (st : State) :
  String.eqb c quit = false ->
  (n = 0 \/ n = 1 \/ n = 3 \/ n = 4) ->
  commands cfg email n = (commands cfg email (step st) ++ [c])%list ->
  handlers_ok st ->
  handlers_ok (set_step n (write c (setPhaseTimeout phase ms st))).
Proof.
  intros Hc Hn Hcmd (Hs & Hw & Hp & Hr).
  unfold handlers_ok.
  change (step (set_step n (write c (setPhaseTimeout phase ms st)))) with n.
  change (settled (set_step n (write c (setPhaseTimeout phase ms st)))) with (settled st).
  change (dialogue (set_step n (write c (setPhaseTimeout phase ms st))))
    with (dialogue (write c st)).
  change (written (set_step n (write c (setPhaseTimeout phase ms st))))
    with (written st ++ [c])%list.
  rewrite (dialogue_write c st Hc), Hw, Hcmd.
  split; [exact Hn|]. split; [reflexivity|]. split.
  - intros Hpe Hin. apply in_app_or in Hin. destruct Hin as [Hin|[Hin|[]]].
    + now apply Hp.
    + subst c. now rewrite String.eqb_refl in Hc.
  - intros r Hre. apply in_or_app. left. now apply (Hr r).
Qed.

Lemma handlers_ok_on_reply (code : Z) (line : string) (st : State) :
  handlers_ok st -> handlers_ok (on_reply cfg email code line st).
Proof.
  intros Hok. pose proof Hok as (Hs & _). unfold on_reply. cbv zeta.
  destruct Hs as [E | [E | [E | E]]]; rewrite E; simpl.
  - destruct (negb (code =? 220)); [now apply handlers_ok_reject|].
    apply (handlers_ok_advance "ehlo" _ (ehlo_command cfg) 1 st);
      [reflexivity|auto|now rewrite E|exact Hok].
  - destruct (code =? 530); [now apply handlers_ok_resolve_quit|].
    destruct (negb (code =? 250)); [now apply handlers_ok_reject|].
    destruct (requireTls cfg && negb (string_in "STARTTLS" (ehloCapabilities st)));
      [now apply handlers_ok_resolve_quit|].
    destruct (string_in "STARTTLS" (ehloCapabilities st) && requireTls cfg);
      [now apply handlers_ok_resolve_quit|].
    apply (handlers_ok_advance "mail" _ (mail_command cfg) 3 st);
      [reflexivity|auto|now rewrite E|exact Hok].
  - destruct (code =? 530); [now apply handlers_ok_resolve_quit|].
    destruct (negb (code =? 250)); [now apply handlers_ok_reject|].
    apply (handlers_ok_advance "rcpt" _ (rcpt_command email) 4 st);
      [reflexivity|auto|now rewrite E|exact Hok].
  - now apply handlers_ok_resolve_quit.
Qed.

Lemma handlers_ok_on_line (line : string) (st : State) :
  handlers_ok st -> handlers_ok (on_line cfg email line st).
Proof.
  intros Hok. unfold on_line. cbv zeta.
  destruct (line =? "")%string; [exact Hok|].
  destruct (is_continuation line).
  - change (step (append_raw line st)) with (step st).
    destruct (step st =? 1); [destruct (negb (capability_of line =? "")%string)|];
      (eapply handlers_ok_same; [| | |exact Hok]; reflexivity).
  - apply handlers_ok_on_reply.
    eapply handlers_ok_same; [| | |exact Hok]; simpl.
    + now rewrite step_note_final.
    + now rewrite written_note_final.
    + now rewrite settled_note_final.
Qed.

Lemma handlers_ok_deliver_lines (lines : list string) : forall st,
  handlers_ok st -> handlers_ok (deliver_lines cfg email lines st).
Proof.
  induction lines as [|line lines IH]; intros st Hok; simpl; [exact Hok|].
  destruct (line_returns cfg line st); [|apply IH]; now apply handlers_ok_on_line.
Qed.

Lemma handlers_ok_deliver (ev : SocketEvent) (st : State) :
  handlers_ok st -> handlers_ok (deliver cfg email ev st).
Proof.
  intros Hok. destruct ev; simpl.
  - unfold deliver_data. cbv zeta.
    destruct (negb (Js.includes _ CRLF)).
    + eapply handlers_ok_same; [| | |exact Hok]; reflexivity.
    + apply handlers_ok_deliver_lines.
      eapply handlers_ok_same; [| | |exact Hok]; reflexivity.
  - apply handlers_ok_reject. eapply handlers_ok_same; [| | |exact Hok]; reflexivity.
  - apply handlers_ok_reject. eapply handlers_ok_same; [| | |exact Hok]; reflexivity.
  - destruct (step st <? 4); [apply handlers_ok_reject|];
      (eapply handlers_ok_same; [| | |exact Hok]; reflexivity).
  - destruct (currentTimeout st) as [[phase ms]|]; [|exact Hok].
    apply handlers_ok_reject. eapply handlers_ok_same; [| | |exact Hok]; reflexivity.
Qed.

Lemma handlers_ok_deliver_all (events : list SocketEvent) :
  handlers_ok (deliver_all cfg email events).
Proof.
  unfold deliver_all. generalize (initial cfg), handlers_ok_initial.
  induction events as [|ev events IH]; intros st Hok; simpl; [exact Hok|].
  apply IH. now apply handlers_ok_deliver.
Qed.

End HandlersCommands.

Section HandlersClaims.
Import Handshake.

(** X6. The handlers write their commands in order, whatever the events
    and even after the promise has settled: the commands other than QUIT
    are EHLO, MAIL FROM, RCPT TO, a prefix of them, each written once;
    no QUIT is written while the promise is pending, and one has been
    written whenever it is resolved. The engine is the handlers stopped
    at the settlement, and at that moment the commands written are
    exactly that prefix, followed by QUIT if and only if the promise has
    just resolved. The handlers test nowhere whether the promise has
    settled: events delivered after the settlement can make them write
    QUIT again, or write it after a rejection. *)
Theorem handshake_command_sequence (cfg : SmtpValidationConfig) (email : string)
    (events : list SocketEvent) :
  let protocol := [ehlo_command cfg; mail_command cfg; rcpt_command email] in
  let st := deliver_all cfg email events in
  let at_settlement := performSmtpHandshake cfg email events in
  (exists n : nat, (n <= 3)%nat /\ dialogue st = take n protocol) /\
  (settled st = Pending -> ~ In quit (written st)) /\
  (forall r, settled st = Resolved r -> In quit (written st)) /\
  (exists k : nat,
     at_settlement = deliver_all cfg email (take k events) /\
     (forall j, (j < k)%nat -> settled (deliver_all cfg email (take j events)) = Pending) /\
     settled st = settled at_settlement) /\
  (exists n : nat,
     (n <= 3)%nat /\
     written at_settlement =
       (take n protocol ++
        match settled at_settlement with
        | Resolved _ => [quit]
        | _ => []
        end)%list).
Proof.
  intros protocol st at_settlement.
  destruct (handlers_ok_deliver_all cfg email events) as (Hs & Hw & Hp & Hr).
  fold st in Hs, Hw, Hp, Hr.
  split; [|split; [exact Hp|split; [exact Hr|split]]].
  - rewrite Hw. unfold commands.
    destruct Hs as [-> | [-> | [-> | ->]]]; simpl.
    + exists 0%nat. split; [lia|reflexivity].
    + exists 1%nat. split; [lia|reflexivity].
    + exists 2%nat. split; [lia|reflexivity].
    + exists 3%nat. split; [lia|reflexivity].
  - destruct (handle_from_stops cfg email events (initial cfg) eq_refl)
      as (k & Hk & Hb & Hsame).
    exists k. split; [exact Hk|]. split; [exact Hb|exact Hsame].
  - destruct (engine_ok_performSmtpHandshake cfg email events) as (Hs' & Hw' & _).
    fold at_settlement in Hs', Hw'. rewrite Hw'. unfold commands, closing.
    destruct Hs' as [-> | [-> | [-> | ->]]]; simpl.
    + exists 0%nat. split; [lia|reflexivity].
    + exists 1%nat. split; [lia|reflexivity].
    + exists 2%nat. split; [lia|reflexivity].
    + exists 3%nat. split; [lia|reflexivity].
Qed.

(** A server that answers EHLO with 530, twice: the second reply, read
    after the promise has resolved, makes the handlers write QUIT
    again. *)
Example handlers_write_quit_twice :
  let events := [banner; OnData ("530 Must issue a STARTTLS command first" ++ CRLF);
                 OnData ("530 Must issue a STARTTLS command first" ++ CRLF)] in
  written (deliver_all (cfg_example false) "user@example.com" events)
    = [ehlo_command (cfg_example false); quit; quit] /\
  written (performSmtpHandshake (cfg_example false) "user@example.com" events)
    = [ehlo_command (cfg_example false); quit].
Proof. split; reflexivity. Qed.

(** A chunk of bytes of the ASCII range. *)
Definition ascii_text (s : string) : Prop :=
  forallb (fun c => (nat_of_ascii c <? 128)%nat) (list_ascii_of_string s) = true.

(** The [data] handler appends [data.toString()], the chunk decoded on
    its own. What is used of the decoder: it decodes the bytes of the
    ASCII range one by one, each to the character of the same code. *)
Definition decodes_ascii (toString : string -> string) : Prop :=
  forall chunk, ascii_text chunk -> toString chunk = chunk.

Lemma ascii_text_app (a b : string) :
  ascii_text a -> ascii_text b -> ascii_text (a ++ b).
Proof.
  unfold ascii_text. induction a as [|c a IH]; intros Ha Hb; [exact Hb|].
  change (String c a ++ b) with (String c (a ++ b)).
  cbn [list_ascii_of_string forallb] in *.
  apply andb_true_iff in Ha as [Hc Ha]. rewrite Hc. cbn [andb]. now apply IH.
Qed.

(** Two runs of the handlers that settle the promise alike, and are in
    the same state while it is pending. *)
Definition same_outcome (st1 st2 : State) : Prop :=
  settled st1 = settled st2 /\ (settled st1 = Pending -> st1 = st2).

Lemma same_outcome_deliver cfg email (ev : SocketEvent) (st1 st2 : State) :
  same_outcome st1 st2 ->
  same_outcome (deliver cfg email ev st1) (deliver cfg email ev st2).
Proof.
  intros [Hs He]. destruct (settled st1) eqn:E1.
  - rewrite <- (He eq_refl). split; reflexivity.
  - assert (E2 : settled st2 = Resolved result) by congruence.
    split.
    + rewrite !settled_deliver_sticky by congruence. congruence.
    + rewrite settled_deliver_sticky by congruence. congruence.
  - assert (E2 : settled st2 = Rejected error) by congruence.
    split.
    + rewrite !settled_deliver_sticky by congruence. congruence.
    + rewrite settled_deliver_sticky by congruence. congruence.
Qed.

Lemma same_outcome_deliver_from cfg email (events : list SocketEvent) : forall st1 st2,
  same_outcome st1 st2 ->
  same_outcome (deliver_from cfg email events st1) (deliver_from cfg email events st2).
Proof.
  induction events as [|ev events IH]; intros st1 st2 H; simpl; [exact H|].
  apply IH. now apply same_outcome_deliver.
Qed.

(** One [data] event carrying [a ++ b] against two carrying [a] and
    [b], handed to the handlers in any state. *)
Lemma deliver_data_app cfg email (a b : string) (st : State) :
  same_outcome (deliver cfg email (OnData b) (deliver cfg email (OnData a) st))
               (deliver cfg email (OnData (a ++ b)) st).
Proof.
  destruct (settled st) eqn:Hp.
  2,3: split; [|rewrite !settled_deliver_sticky by (rewrite ?settled_deliver_sticky; congruence);
                  congruence];
       rewrite !settled_deliver_sticky by (rewrite ?settled_deliver_sticky; congruence);
       reflexivity.
  destruct (handle_data_app cfg email a b st) as [Hs He].
  assert (Hset : settled (handle cfg email (OnData b) (handle cfg email (OnData a) st))
                 = settled (handle cfg email (OnData (a ++ b)) st))
    by (apply (f_equal settled) in Hs; exact Hs).
  rewrite (deliver_pending cfg email (OnData a) st Hp).
  rewrite (deliver_pending cfg email (OnData (a ++ b)) st Hp).
  destruct (settled (handle cfg email (OnData a) st)) eqn:Ea.
  - rewrite (deliver_pending cfg email (OnData b) _ Ea). split; [exact Hset|exact He].
  - rewrite (handle_settled cfg email (OnData b)) in Hset by congruence.
    split.
    + rewrite settled_deliver_sticky by congruence. exact Hset.
    + rewrite settled_deliver_sticky by congruence. congruence.
  - rewrite (handle_settled cfg email (OnData b)) in Hset by congruence.
    split.
    + rewrite settled_deliver_sticky by congruence. exact Hset.
    + rewrite settled_deliver_sticky by congruence. congruence.
Qed.

(** X10. The outcome of a handshake does not depend on where the network
    cuts an ASCII stretch of the server's byte stream into [data] events:
    the chunk [a] and then the chunk [b], or the chunk [a ++ b] at once,
    each decoded by the handler, at any point of any session, settle the
    promise the same way (the same verdict or error, also against the
    overall timer), and leave the handlers in the very same state as
    long as the promise is pending; a separator cut between its two
    characters is covered. At the moment of the settlement the commands
    written, the transcript and the step are the same too. After it the
    two deliveries can differ: the handlers read on in [b], where a
    single event would have ended at the [return]. A cut inside a
    multi-byte character is not covered: each chunk is decoded on its
    own. *)
Theorem handshake_segmentation_independent (cfg : SmtpValidationConfig)
    (email : string) (toString : string -> string)
    (before after : list SocketEvent) (a b : string) :
  decodes_ascii toString ->
  ascii_text a -> ascii_text b ->
  let cut := (before ++ [OnData (toString a); OnData (toString b)] ++ after)%list in
  let whole := (before ++ [OnData (toString (a ++ b)%string)] ++ after)%list in
  settled (deliver_all cfg email cut) = settled (deliver_all cfg email whole) /\
  race cfg (deliver_all cfg email cut) = race cfg (deliver_all cfg email whole) /\
  (settled (deliver_all cfg email cut) = Pending ->
   deliver_all cfg email cut = deliver_all cfg email whole) /\
  (let two := performSmtpHandshake cfg email cut in
   let one := performSmtpHandshake cfg email whole in
   settled two = settled one /\
   written two = written one /\
   rawResponse two = rawResponse one /\
   step two = step one).
Proof.
  intros Hdec Ha Hb.
  rewrite (Hdec a Ha), (Hdec b Hb), (Hdec (a ++ b) (ascii_text_app a b Ha Hb)).
  intros cut whole.
  assert (Hraw : same_outcome (deliver_all cfg email cut) (deliver_all cfg email whole)).
  { subst cut whole. unfold deliver_all. rewrite !fold_left_app.
    simpl (fold_left _ [_; _] _). simpl (fold_left _ [_] _).
    apply (same_outcome_deliver_from cfg email after). apply deliver_data_app. }
  destruct Hraw as [Hs He].
  split; [exact Hs|]. split; [unfold race; now rewrite Hs|]. split; [exact He|].
  intros two one. subst two one cut whole. unfold performSmtpHandshake.
  rewrite !fold_left_app. simpl (fold_left _ [_; _] _). simpl (fold_left _ [_] _).
  set (st := fold_left _ before _).
  destruct (handle_data_app cfg email a b st) as [Hs0 He0].
  destruct (fold_same_but_buffer cfg email after _ _ Hs0 He0) as [Hs' _].
  cbv zeta in Hs'.
  split; [apply (f_equal settled) in Hs'; exact Hs'|].
  split; [apply (f_equal written) in Hs'; exact Hs'|].
  split; [apply (f_equal rawResponse) in Hs'; exact Hs'|].
  apply (f_equal step) in Hs'; exact Hs'.
Qed.

(** The separator of the banner cut in two, under a decoder of one byte
    per character. *)
Lemma handshake_segmentation_independent_witness :
  let toString := fun chunk : string => chunk in
  let a := "220 mx1.example.com ESMTP" ++ String "013" "" in
  let b := LF ++ "250-mx1.example.com" in
  decodes_ascii toString /\ ascii_text a /\ ascii_text b /\
  written (deliver_all (cfg_example false) "user@example.com"
             ([] ++ [OnData (toString a); OnData (toString b)]
                 ++ [OnData (CRLF ++ "250 OK" ++ CRLF)])%list)
  = [ehlo_command (cfg_example false); mail_command (cfg_example false)].
Proof.
  intros toString a b.
  assert (Hdec : decodes_ascii toString) by (intros chunk _; reflexivity).
  assert (Ha : ascii_text a) by reflexivity.
  assert (Hb : ascii_text b) by reflexivity.
  split; [exact Hdec|]. split; [exact Ha|]. split; [exact Hb|].
  destruct (handshake_segmentation_independent (cfg_example false) "user@example.com"
              toString [] [OnData (CRLF ++ "250 OK" ++ CRLF)] a b Hdec Ha Hb)
    as (_ & _ & He & _).
  rewrite He; reflexivity.
Defined.

End HandlersClaims.

(** ** The process-local throttle: slots, streaks and host names *)

Section ThrottleRoundTrip.
Import Throttle.

(** X11. On the process-local backend a slot taken by a turn of
    [acquireSlot] and given back by [releaseSlot] leaves both counters as
    they were: the global counter and the connection count of the host
    return to their values, the host keeps its ceiling, its failure count
    and its success streak, gains one attempt and the time stamp of the
    acquisition, and no other host is touched. *)
Theorem acquire_then_release_restores (mxHost : string) (config : ThrottleConfig)
    (startTime now : Z) (st : InMemoryThrottleStore) (state : MxState) :
  mxStates st !! Js.toLowerCase mxHost = Some state ->
  0 <= concurrency state ->
  0 <= globalConcurrency st ->
  let st1 := step st (OpTurn mxHost config startTime now) in
  globalConcurrency st1 = globalConcurrency st + 1 ->
  let st2 := releaseSlot mxHost st1 in
  globalConcurrency st2 = globalConcurrency st /\
  mxStates st2 !! Js.toLowerCase mxHost =
    Some {| host := host state;
            concurrency := concurrency state;
            maxConcurrency := maxConcurrency state;
            failures := failures state;
            successCount := successCount state;
            penaltyUntil := penaltyUntil state;
            lastAttemptAt := Some now;
            totalAttempts := totalAttempts state + 1;
            totalSuccesses := totalSuccesses state |} /\
  (forall h, h <> Js.toLowerCase mxHost -> mxStates st2 !! h = mxStates st !! h).
Proof.
  intros Hl Hc Hg st1 Htook st2. subst st2 st1. revert Htook.
  cbn [step]. rewrite Hl.
  destruct (acquireSlot_body mxHost config startTime now state (globalConcurrency st))
    as [s' g'|e|ms] eqn:Eb; [|lia|lia].
  intros _.
  apply acquireSlot_body_acquired in Eb as (-> & -> & _).
  unfold releaseSlot, set_state. cbn [mxStates globalConcurrency].
  rewrite lookup_insert_eq. cbn [mxStates globalConcurrency].
  split; [lia|]. split.
  - rewrite lookup_insert_eq. unfold take_slot; simpl.
    f_equal. f_equal. lia.
  - intros h Hne. rewrite !lookup_insert_ne by congruence. reflexivity.
Qed.

Lemma acquire_then_release_restores_witness :
  let config := mkThrottleConfig 10 2 2000 in
  let st := run [OpEnter "mx1.example.com" config] empty_store in
  let st2 := releaseSlot "mx1.example.com"
               (step st (OpTurn "mx1.example.com" config 1000 1000)) in
  globalConcurrency st2 = 0 /\
  (concurrency <$> mxStates st2 !! "mx1.example.com") = Some 0.
Proof.
  intros config st st2.
  destruct (acquire_then_release_restores "mx1.example.com" config 1000 1000 st
              (initial_state "mx1.example.com" 2))
    as (Hg & Hs & _);
    [reflexivity|vm_compute; discriminate|vm_compute; discriminate|reflexivity|].
  split; [exact Hg|].
  change (Js.toLowerCase "mx1.example.com") with "mx1.example.com" in Hs.
  subst st2. rewrite Hs. reflexivity.
Defined.

End ThrottleRoundTrip.

Section SuccessStreak.
Import Throttle.

(** [k] calls of [recordSuccess] for one host. *)
Fixpoint successes (k : nat) (mxHost : string) (st : InMemoryThrottleStore)
    : InMemoryThrottleStore :=
  match k with
  | O => st
  | S k' => recordSuccess mxHost (successes k' mxHost st)
  end.

Fixpoint success_updates (k : nat) (s : MxState) : MxState :=
  match k with
  | O => s
  | S k' => success_update (success_updates k' s)
  end.

Lemma successes_lookup (k : nat) (mxHost : string) (st : InMemoryThrottleStore)
    (s : MxState) :
  mxStates st !! Js.toLowerCase mxHost = Some s ->
  mxStates (successes k mxHost st) !! Js.toLowerCase mxHost
    = Some (success_updates k s) /\
  globalConcurrency (successes k mxHost st) = globalConcurrency st.
Proof.
  intros Hl. induction k as [|k [IH1 IH2]]; [split; [exact Hl|reflexivity]|].
  cbn [successes success_updates]. unfold recordSuccess at 1 2.
  rewrite IH1. unfold set_state; cbn [mxStates globalConcurrency].
  rewrite lookup_insert_eq. split; [reflexivity|exact IH2].
Qed.

Lemma success_updates_spec (k : nat) (s : MxState) :
  maxConcurrency s <= 5 ->
  0 <= failures s ->
  let s' := success_updates k s in
  successCount s' = successCount s + Z.of_nat k /\
  totalSuccesses s' = totalSuccesses s + Z.of_nat k /\
  failures s' = Z.max 0 (failures s - Z.of_nat k) /\
  maxConcurrency s' =
    Z.min 5 (maxConcurrency s +
             Z.max 0 (successCount s + Z.of_nat k - Z.max (successCount s) 10)) /\
  concurrency s' = concurrency s.
Proof.
  intros Hm Hf. induction k as [|k IH].
  - simpl. repeat split; lia.
  - cbn zeta in IH |- *. cbn [success_updates].
    set (sk := success_updates k s) in *.
    destruct IH as (Hc & Ht & Hfk & Hmax & Hcc).
    unfold success_update;
      cbn [successCount totalSuccesses failures maxConcurrency concurrency].
    rewrite Hc, Ht, Hfk, Hcc.
    split; [lia|]. split; [lia|]. split; [lia|]. split; [|reflexivity].
    destruct ((10 <? successCount s + Z.of_nat k + 1) && (maxConcurrency sk <? 5))
      eqn:E.
    + apply andb_true_iff in E as [E1 E2].
      apply Z.ltb_lt in E1, E2. lia.
    + apply andb_false_iff in E as [E|E];
        [apply Z.ltb_ge in E|apply Z.ltb_ge in E]; lia.
Qed.

(** X12. The ceiling of a host grows only on sustained success. From a
    success streak of zero (a host just created, or just after a failure,
    which resets the streak), the first ten calls of [recordSuccess]
    leave the ceiling as it is, and each later one raises it by one until
    it reaches 5, where it stays; meanwhile every call takes one off the
    failure count down to zero, and the connection counters are not
    touched. *)
Theorem recordSuccess_streak (k : nat) (mxHost : string)
    (st : InMemoryThrottleStore) (s : MxState) :
  mxStates st !! Js.toLowerCase mxHost = Some s ->
  successCount s = 0 ->
  maxConcurrency s <= 5 ->
  0 <= failures s ->
  exists s',
    mxStates (successes k mxHost st) !! Js.toLowerCase mxHost = Some s' /\
    maxConcurrency s' = Z.min 5 (maxConcurrency s + Z.max 0 (Z.of_nat k - 10)) /\
    successCount s' = Z.of_nat k /\
    failures s' = Z.max 0 (failures s - Z.of_nat k) /\
    concurrency s' = concurrency s /\
    globalConcurrency (successes k mxHost st) = globalConcurrency st.
Proof.
  intros Hl Hc Hm Hf.
  destruct (successes_lookup k mxHost st s Hl) as [Hl' Hg].
  destruct (success_updates_spec k s Hm Hf) as (H1 & _ & H3 & H4 & H5).
  eexists. split; [exact Hl'|].
  rewrite H1, H3, H4, H5, Hc.
  split; [f_equal; lia|]. split; [lia|]. split; [reflexivity|].
  split; [reflexivity|exact Hg].
Qed.

Lemma recordSuccess_streak_witness :
  let st := run [OpEnter "mx1.example.com" (mkThrottleConfig 10 2 2000)] empty_store in
  exists s',
    mxStates (successes 12 "mx1.example.com" st) !! "mx1.example.com" = Some s' /\
    maxConcurrency s' = 4.
Proof.
  intros st.
  destruct (recordSuccess_streak 12 "mx1.example.com" st
              (initial_state "mx1.example.com" 2))
    as (s' & Hl & Hm & _); [reflexivity|reflexivity|simpl; lia|simpl; lia|].
  exists s'. split; [exact Hl|]. rewrite Hm. reflexivity.
Defined.

End SuccessStreak.

Section HostNames.
Import Throttle.

Lemma lower_ascii_idempotent (c : ascii) :
  Js.lower_ascii (Js.lower_ascii c) = Js.lower_ascii c.
Proof.
  unfold Js.lower_ascii.
  destruct ((65 <=? nat_of_ascii c)%nat && (nat_of_ascii c <=? 90)%nat) eqn:E.
  - apply andb_true_iff in E as [E1 E2]. apply Nat.leb_le in E1, E2.
    rewrite nat_ascii_embedding by lia.
    replace ((nat_of_ascii c + 32 <=? 90)%nat) with false
      by (symmetry; apply Nat.leb_gt; lia).
    now rewrite andb_false_r.
  - now rewrite E.
Qed.

Lemma toLowerCase_idempotent (s : string) :
  Js.toLowerCase (Js.toLowerCase s) = Js.toLowerCase s.
Proof.
  unfold Js.toLowerCase. induction s as [|c s IH]; [reflexivity|].
  simpl. now rewrite lower_ascii_idempotent, IH.
Qed.

(** An operation with its host name in lower case. *)
Definition normalize_op (op : Op) : Op :=
  match op with
  | OpEnter mxHost config => OpEnter (Js.toLowerCase mxHost) config
  | OpTurn mxHost config startTime now =>
      OpTurn (Js.toLowerCase mxHost) config startTime now
  | OpRelease mxHost => OpRelease (Js.toLowerCase mxHost)
  | OpSuccess mxHost => OpSuccess (Js.toLowerCase mxHost)
  | OpFailure mxHost shouldPenalize now =>
      OpFailure (Js.toLowerCase mxHost) shouldPenalize now
  end.

Lemma step_normalize_op (st : InMemoryThrottleStore) (op : Op) :
  step st (normalize_op op) = step st op.
Proof.
  destruct op as [h c|h c t0 t|h|h|h b t]; cbn [normalize_op step].
  - unfold getOrCreateState. now rewrite toLowerCase_idempotent.
  - rewrite toLowerCase_idempotent.
    destruct (mxStates st !! Js.toLowerCase h) as [s|]; [|reflexivity].
    unfold acquireSlot_body, set_state. rewrite toLowerCase_idempotent.
    repeat match goal with
           | |- context [if ?b then _ else _] => destruct b
           end; reflexivity.
  - unfold releaseSlot, set_state. now rewrite toLowerCase_idempotent.
  - unfold recordSuccess, set_state. now rewrite toLowerCase_idempotent.
  - unfold recordFailure, set_state. now rewrite toLowerCase_idempotent.
Qed.

Lemma run_normalize_op (ops : list Op) : forall st,
  run (map normalize_op ops) st = run ops st.
Proof.
  unfold run. induction ops as [|op ops IH]; intros st; simpl; [reflexivity|].
  now rewrite step_normalize_op, IH.
Qed.

(** X13. The process-local throttle does not tell apart host names that
    differ by letter case only: two sequences of operations that are the
    same once every host name is put in lower case leave the store in
    the same state. Slots, streaks and penalties of [MX1.Example.COM] and
    [mx1.example.com] are one record. *)
Theorem throttle_host_names_case_insensitive (ops1 ops2 : list Op)
    (st : InMemoryThrottleStore) :
  map normalize_op ops1 = map normalize_op ops2 ->
  run ops1 st = run ops2 st.
Proof.
  intros H. rewrite <- (run_normalize_op ops1), <- (run_normalize_op ops2).
  now rewrite H.
Qed.

Lemma throttle_host_names_case_insensitive_witness :
  let config := mkThrottleConfig 10 2 2000 in
  run [OpEnter "MX1.Example.COM" config; OpTurn "mx1.example.com" config 1000 1000;
       OpFailure "Mx1.Example.Com" true 2000] empty_store
  = run [OpEnter "mx1.example.com" config; OpTurn "MX1.EXAMPLE.COM" config 1000 1000;
         OpFailure "mx1.example.com" true 2000] empty_store.
Proof.
  intros config.
  apply (throttle_host_names_case_insensitive
           [OpEnter "MX1.Example.COM" config; OpTurn "mx1.example.com" config 1000 1000;
            OpFailure "Mx1.Example.Com" true 2000]
           [OpEnter "mx1.example.com" config; OpTurn "MX1.EXAMPLE.COM" config 1000 1000;
            OpFailure "mx1.example.com" true 2000]).
  reflexivity.
Defined.

(** X14. The record of a host is created once: the first
    [getOrCreateState] (from [acquireSlot] or [getState]) for a host name
    creates it with a ceiling of [min(maxMxConcurrency, 2)], never above
    2, and every later call for that name, in any letter case and with any
    other ceiling argument, returns the record as it stands and leaves the
    store unchanged. A configured per-host ceiling thus applies to hosts
    not seen before only. *)
Theorem getOrCreateState_creates_once (mxHost mxHost' : string) (m1 m2 : Z)
    (st : InMemoryThrottleStore) :
  Js.toLowerCase mxHost' = Js.toLowerCase mxHost ->
  let first := getOrCreateState mxHost m1 st in
  getOrCreateState mxHost' m2 (snd first) = first /\
  InMemoryThrottle.getState mxHost' (snd first) = first /\
  (mxStates st !! Js.toLowerCase mxHost = None ->
   fst first = initial_state (Js.toLowerCase mxHost) m1 /\
   maxConcurrency (fst first) <= 2 /\
   concurrency (fst first) = 0).
Proof.
  intros Hh first. subst first.
  unfold InMemoryThrottle.getState, getOrCreateState. rewrite Hh.
  destruct (mxStates st !! Js.toLowerCase mxHost) as [s|] eqn:Hl;
    cbn [fst snd mxStates].
  - rewrite Hl. split; [reflexivity|]. split; [reflexivity|]. discriminate.
  - rewrite lookup_insert_eq. split; [reflexivity|]. split; [reflexivity|].
    intros _. split; [reflexivity|]. simpl. split; lia.
Qed.

Lemma getOrCreateState_creates_once_witness :
  let first := getOrCreateState "mx1.example.com" 1 empty_store in
  getOrCreateState "MX1.example.com" 5 (snd first) = first /\
  maxConcurrency (fst first) = 1.
Proof.
  intros first.
  destruct (getOrCreateState_creates_once "mx1.example.com" "MX1.example.com" 1 5
              empty_store) as (H1 & _ & _); [reflexivity|].
  split; [exact H1|reflexivity].
Defined.

End HostNames.

(** ** Upper bounds of the process-local counters *)

Section ThrottleCeilings.
Import Throttle.

(** The turns of [acquireSlot] are made with a global ceiling of at most
    [G]. *)
Definition turn_within (G : Z) (op : Op) : Prop :=
  match op with
  | OpTurn _ config _ _ => maxGlobalConcurrency config <= G
  | _ => True
  end.

Definition counters_within (G : Z) (st : InMemoryThrottleStore) : Prop :=
  globalConcurrency st <= G /\
  forall h s, mxStates st !! h = Some s -> concurrency s <= hardCeiling.

Lemma counters_within_set (G : Z) mxHost state g st :
  counters_within G st -> concurrency state <= hardCeiling -> g <= G ->
  counters_within G (set_state mxHost state g st).
Proof.
  intros [_ Hst] Hs Hg. split; [exact Hg|].
  intros h s. unfold set_state; simpl.
  rewrite lookup_insert. case_decide; intros Hl.
  - injection Hl as <-. exact Hs.
  - eapply Hst; eauto.
Qed.

Lemma step_counters_within (G : Z) (st : InMemoryThrottleStore) (op : Op) :
  0 <= G -> store_ok st -> counters_within G st -> turn_within G op ->
  counters_within G (step st op).
Proof.
  intros HG [Hg0 Hok] [Hg Hc] Hop.
  destruct op as [h c|h c t0 t|h|h|h b t]; cbn [step].
  - unfold getOrCreateState.
    destruct (mxStates st !! Js.toLowerCase h) as [s|] eqn:El; cbn [snd];
      [split; assumption|].
    split; [exact Hg|]. cbn [mxStates]. intros k s Hk.
    apply lookup_insert_Some in Hk as [[_ <-]|[_ Hk]]; [|eauto].
    unfold hardCeiling; simpl; lia.
  - destruct (mxStates st !! Js.toLowerCase h) as [s|] eqn:El; [|split; assumption].
    destruct (acquireSlot_body h c t0 t s (globalConcurrency st)) as [s' g'|e|ms] eqn:Eb;
      [|split; assumption..].
    apply acquireSlot_body_acquired in Eb as (-> & -> & _ & _ & _ & Hglob & Hmx).
    simpl in Hop.
    destruct (Hok _ _ El) as (_ & [_ Hmax] & _).
    apply counters_within_set; [split; assumption| |lia].
    unfold take_slot; simpl. lia.
  - unfold releaseSlot.
    destruct (mxStates st !! Js.toLowerCase h) as [s|] eqn:El; [|split; assumption].
    apply counters_within_set; [split; assumption| |lia].
    simpl. specialize (Hc _ _ El). unfold hardCeiling in *. lia.
  - unfold recordSuccess.
    destruct (mxStates st !! Js.toLowerCase h) as [s|] eqn:El; [|split; assumption].
    apply counters_within_set; [split; assumption| |exact Hg].
    simpl. eauto.
  - unfold recordFailure.
    destruct (mxStates st !! Js.toLowerCase h) as [s|] eqn:El; [|split; assumption].
    apply counters_within_set; [split; assumption| |exact Hg].
    simpl. eauto.
Qed.

Lemma run_counters_within (G : Z) (ops : list Op) : forall st,
  0 <= G -> store_ok st -> counters_within G st ->
  Forall op_config_ok ops -> Forall (turn_within G) ops ->
  counters_within G (run ops st).
Proof.
  unfold run. induction ops as [|op ops IH]; intros st HG Hok Hw Hcfg Hturn; simpl;
    [exact Hw|].
  apply Forall_cons in Hcfg as [Hc1 Hcfg]. apply Forall_cons in Hturn as [Ht1 Hturn].
  apply IH; auto.
  - now apply step_ok.
  - now apply step_counters_within.
Qed.

(** X15. The counters of the process-local throttle are bounded.
    Whatever the tasks do (requests, turns of the waiting loop, releases,
    recorded successes and failures, in any order and for any hosts),
    starting from an empty store the in-flight counter of a host never
    exceeds 5, the hard ceiling of the adaptation, and the global counter
    never exceeds the largest global ceiling the callers pass. The bound
    of a host is that constant, not the per-host ceiling configured,
    which the adaptation passes; and the counters count acquisitions less
    releases, not connections: [releaseSlot] asks nobody whether a slot
    is held, and a release that matches no acquisition frees a slot that
    a connection still uses. *)
Theorem throttle_counters_bounded (G : Z) (ops : list Op) :
  0 <= G ->
  Forall op_config_ok ops ->
  Forall (turn_within G) ops ->
  let st := run ops empty_store in
  globalConcurrency st <= G /\
  forall h s, mxStates st !! h = Some s -> concurrency s <= 5.
Proof.
  intros HG Hcfg Hturn st.
  apply (run_counters_within G ops empty_store HG store_ok_empty); auto.
  split; [simpl; lia|]. intros h s Hl. simpl in Hl. rewrite lookup_empty in Hl.
  discriminate.
Qed.

Definition ops_burst : list Op :=
  let config := mkThrottleConfig 1 10 0 in
  [OpEnter "mx1.example.com" config;
   OpTurn "mx1.example.com" config 0 1;
   OpTurn "mx1.example.com" config 0 2;
   OpTurn "mx1.example.com" config 0 3].

Lemma throttle_counters_bounded_witness :
  globalConcurrency (run ops_burst empty_store) <= 1.
Proof.
  apply (throttle_counters_bounded 1 ops_burst); [lia| |].
  - repeat constructor; simpl; lia.
  - repeat constructor; simpl; lia.
Defined.

(** A host configured for one connection at a time: after eleven
    successes its ceiling is 2, and two slots are granted. *)
Example configured_ceiling_passed :
  let config := mkThrottleConfig 10 1 0 in
  let ops := (OpEnter "mx1.example.com" config
              :: repeat (OpSuccess "mx1.example.com") 11
              ++ [OpTurn "mx1.example.com" config 0 1;
                  OpTurn "mx1.example.com" config 0 2])%list in
  (concurrency <$> mxStates (run ops empty_store) !! "mx1.example.com") = Some 2.
Proof. vm_compute. reflexivity. Qed.

(** A release that matches no acquisition: with a global ceiling of 1, a
    second slot is granted while the first is still in use. *)
Example unmatched_release_frees_slot :
  let config := mkThrottleConfig 1 2 0 in
  let taken := run [OpEnter "mx1.example.com" config;
                    OpTurn "mx1.example.com" config 0 1] empty_store in
  let again := run [OpRelease "mx1.example.com";
                    OpTurn "mx1.example.com" config 0 2] taken in
  globalConcurrency taken = 1 /\
  globalConcurrency again = 1 /\
  (totalAttempts <$> mxStates again !! "mx1.example.com") = Some 2.
Proof. vm_compute. repeat split; reflexivity. Qed.

End ThrottleCeilings.

(** ** The distributed throttle: bookkeeping *)

Section DistributedBookkeeping.
Import Redis.

(** X16. The two backends adapt alike. For a host that has a state
    document, [RedisThrottleStore.recordSuccess] and [recordFailure]
    store, under the configured time to live, exactly the record the
    process-local [recordSuccess] and [recordFailure] compute from it
    (streak, failure count, ceiling, penalty), and [recordSuccess] touches
    no counter. For a host without document they differ: the distributed
    backend starts from a default record with ceiling 2 and stores the
    update, where the process-local one ignores the call. *)
Theorem redis_bookkeeping_matches_local (mxHost : string) (shouldPenalize : bool)
    (now ttl : Z) (srv : Server) :
  ttl <> 0 ->
  let key := stateKey (Js.toLowerCase mxHost) in
  let before :=
    default (RedisThrottleStore.defaultState (Js.toLowerCase mxHost))
      (fst <$> documents srv !! key) in
  documents (RedisThrottleStore.recordSuccess mxHost ttl srv) !! key
    = Some (Throttle.success_update before, Some ttl) /\
  numbers (RedisThrottleStore.recordSuccess mxHost ttl srv) = numbers srv /\
  documents (RedisThrottleStore.recordFailure mxHost shouldPenalize now ttl srv) !! key
    = Some (Throttle.failure_update shouldPenalize now before, Some ttl) /\
  (forall st : Throttle.InMemoryThrottleStore,
     Throttle.mxStates st !! Js.toLowerCase mxHost = None ->
     Throttle.recordSuccess mxHost st = st /\
     Throttle.recordFailure mxHost shouldPenalize now st = st).
Proof.
  intros Httl key before.
  assert (E : (ttl =? 0) = false) by now apply Z.eqb_neq.
  unfold RedisThrottleStore.recordSuccess, RedisThrottleStore.recordFailure,
    RedisThrottleStore.setInRedis_state, RedisThrottleStore.getFromRedis_state.
  cbn [documents numbers]. rewrite E.
  fold (stateKey (Js.toLowerCase mxHost)). fold key. fold before.
  rewrite !lookup_insert_eq.
  split; [reflexivity|]. split; [reflexivity|]. split; [reflexivity|].
  intros st Hl. unfold Throttle.recordSuccess, Throttle.recordFailure.
  rewrite Hl. split; reflexivity.
Qed.

Lemma redis_bookkeeping_matches_local_witness :
  let srv := mkServer ∅ ∅ in
  (fst <$> documents (RedisThrottleStore.recordFailure "MX1.example.com" true 1000 300 srv)
           !! stateKey "mx1.example.com")
  = Some (Throttle.failure_update true 1000
            (RedisThrottleStore.defaultState "mx1.example.com")).
Proof.
  intros srv.
  destruct (redis_bookkeeping_matches_local "MX1.example.com" true 1000 300 srv)
    as (_ & _ & H & _); [discriminate|].
  change (Js.toLowerCase "MX1.example.com") with "mx1.example.com" in H.
  rewrite H. reflexivity.
Defined.

Lemma ceil_seconds_covers (ms : Z) :
  ms <= 1000 * RedisThrottleStore.ceil_seconds ms < ms + 1000.
Proof.
  unfold RedisThrottleStore.ceil_seconds.
  pose proof (Z.div_mod (- ms) 1000 ltac:(lia)) as Hd.
  pose proof (Z.mod_pos_bound (- ms) 1000 ltac:(lia)) as Hm.
  lia.
Qed.

(** X17. A penalty recorded on the distributed backend is honoured by the
    acquisition script. After [recordFailure(mxHost, true)] at time [now]
    for a host whose failure count is not negative, the penalty lasts
    [min(300000, 5000 * 2^failures)] ms with the incremented count, at
    least ten seconds; every acquisition for that host at a time before
    its end is refused with [penalty_active] and the time left as wait,
    without touching any counter; and the penalty key is set to expire no
    sooner than the penalty ends (less than a second later). *)
Theorem redis_penalty_blocks_acquisition (mxHost : string) (now ttl : Z) (srv : Server)
    (maxGlobal maxMx ttlSeconds t minInterval : Z) :
  let h := Js.toLowerCase mxHost in
  let before :=
    default (RedisThrottleStore.defaultState h) (fst <$> documents srv !! stateKey h) in
  let penaltyMs := Z.min 300000 (5000 * 2 ^ (Throttle.failures before + 1)) in
  let srv' := RedisThrottleStore.recordFailure mxHost true now ttl srv in
  0 <= Throttle.failures before ->
  t < now + penaltyMs ->
  10000 <= penaltyMs /\
  fst (fst (run_alone (acquireThrottleSlot true h maxGlobal maxMx ttlSeconds t minInterval)
              srv'))
    = mkSlotResult false "penalty_active" 0 0 (Some (now + penaltyMs - t)) /\
  numbers (snd (fst (run_alone
                       (acquireThrottleSlot true h maxGlobal maxMx ttlSeconds t minInterval)
                       srv')))
    = numbers srv' /\
  exists seconds,
    (Redis.ttl <$> numbers srv' !! penaltyKey h) = Some (Some seconds) /\
    penaltyMs <= 1000 * seconds < penaltyMs + 1000.
Proof.
  intros h before penaltyMs srv' Hf Ht.
  assert (Hp : 10000 <= penaltyMs).
  { subst penaltyMs.
    assert (2 ^ 1 <= 2 ^ (Throttle.failures before + 1))
      by (apply Z.pow_le_mono_r; lia).
    change (2 ^ 1) with 2 in *. lia. }
  split; [exact Hp|].
  assert (Hnum : numbers srv' =
                 RedisThrottleStore.setInRedis_number (penaltyKey h) (now + penaltyMs)
                   (RedisThrottleStore.ceil_seconds penaltyMs) (numbers srv))
    by reflexivity.
  pose proof (ceil_seconds_covers penaltyMs) as Hceil.
  assert (Hz : (RedisThrottleStore.ceil_seconds penaltyMs =? 0) = false)
    by (apply Z.eqb_neq; lia).
  assert (Hget : get_number (numbers srv') (penaltyKey h) = now + penaltyMs).
  { rewrite Hnum. unfold RedisThrottleStore.setInRedis_number, get_number.
    now rewrite lookup_insert_eq. }
  rewrite acquireThrottleSlot_run. cbn [fst snd numbers].
  unfold acquire_script. rewrite Hget.
  replace (t <? now + penaltyMs) with true by (symmetry; apply Z.ltb_lt; lia).
  cbn [fst snd]. split.
  - unfold decode; cbn [acquired reason_code global_count mx_count wait_ms].
    replace (0 <? now + penaltyMs - t) with true by (symmetry; apply Z.ltb_lt; lia).
    reflexivity.
  - split; [reflexivity|].
    exists (RedisThrottleStore.ceil_seconds penaltyMs). split; [|exact Hceil].
    rewrite Hnum. unfold RedisThrottleStore.setInRedis_number.
    rewrite lookup_insert_eq, Hz. reflexivity.
Qed.

Lemma redis_penalty_blocks_acquisition_witness :
  let srv' := RedisThrottleStore.recordFailure "mx1.example.com" true 1000 300
                (mkServer ∅ ∅) in
  fst (fst (run_alone (acquireThrottleSlot true "mx1.example.com" 10 2 300 5000 2000)
              srv'))
  = mkSlotResult false "penalty_active" 0 0 (Some 6000).
Proof.
  intros srv'.
  destruct (redis_penalty_blocks_acquisition "mx1.example.com" 1000 300 (mkServer ∅ ∅)
              10 2 300 5000 2000) as (_ & H & _);
    [vm_compute; discriminate|vm_compute; reflexivity|].
  exact H.
Defined.

(** X19. A turn of the distributed [acquireSlot] that is refused sleeps
    for a positive time of at most one second before it tries again, and
    has changed nothing on the server: neither a counter nor a stamp nor a
    state document. It made two round trips, the read of the state
    document and the script. *)
Theorem redis_refused_turn_backs_off (mxHost : string)
    (config : Throttle.ThrottleConfig) (ttlSeconds now : Z) (srv : Server) (ms : Z) :
  let turn := run_alone (acquireSlot_turn mxHost config ttlSeconds now) srv in
  fst (fst turn) = Backoff ms ->
  0 < ms <= 1000 /\
  snd (fst turn) = srv /\
  length (snd turn) = 2%nat.
Proof.
  intros turn. subst turn.
  unfold acquireSlot_turn. cbn [run_alone serve].
  unfold acquireThrottleSlot. cbn [negb and_then run_alone serve numbers documents].
  set (r := acquire_script _ _ _ _ _ _ _ _ _ _).
  assert (Hr : acquired (fst r) = 1 \/
               (acquired (fst r) = 0 /\ 0 < wait_ms (fst r) /\ snd r = numbers srv)).
  { subst r. unfold acquire_script. cbv zeta.
    set (pen := get_number (numbers srv) (penaltyKey _)).
    set (lst := get_number (numbers srv) (lastAttemptKey _)).
    set (glo := get_number (numbers srv) globalKey).
    set (mxc := get_number (numbers srv) (mxKey _)).
    destruct (now <? pen) eqn:E1.
    { right. cbn [fst snd acquired wait_ms]. apply Z.ltb_lt in E1.
      repeat split; lia. }
    destruct ((0 <? lst) && (now - lst <? Throttle.perDomainMinIntervalMs config))
      eqn:E2.
    { right. cbn [fst snd acquired wait_ms].
      apply andb_true_iff in E2 as [_ E2]. apply Z.ltb_lt in E2.
      repeat split; lia. }
    destruct (Throttle.maxGlobalConcurrency config <=? glo) eqn:E3.
    { right. cbn [fst snd acquired wait_ms]. repeat split; lia. }
    match goal with
    | |- context [if ?b then _ else _] => destruct b eqn:E4
    end.
    { right. cbn [fst snd acquired wait_ms]. repeat split; lia. }
    left.
    repeat match goal with
           | |- context [let '(_, _) := ?x in _] => destruct x
           end.
    reflexivity. }
  destruct r as [reply db]. cbn [fst snd] in Hr.
  cbn [and_then decode slot_acquired waitMs fst snd].
  destruct Hr as [Ha|(Ha & Hw & Hdb)].
  - rewrite Ha. cbn [Z.eqb Pos.eqb negb run_alone serve fst snd]. discriminate.
  - rewrite Ha. cbn [Z.eqb negb run_alone fst snd].
    replace (0 <? wait_ms reply) with true by (symmetry; apply Z.ltb_lt; lia).
    unfold num_or.
    replace (wait_ms reply =? 0) with false by (symmetry; apply Z.eqb_neq; lia).
    intros [= <-]. subst db. split; [lia|]. split; [|reflexivity].
    destruct srv; reflexivity.
Qed.

Lemma redis_refused_turn_backs_off_witness :
  let srv := RedisThrottleStore.recordFailure "mx1.example.com" true 1000 300
               (mkServer ∅ ∅) in
  let turn := run_alone (acquireSlot_turn "mx1.example.com"
                           (Throttle.mkThrottleConfig 10 2 2000) 300 5000) srv in
  fst (fst turn) = Backoff 1000 /\ snd (fst turn) = srv.
Proof.
  intros srv turn.
  assert (H : fst (fst turn) = Backoff 1000) by reflexivity.
  split; [exact H|].
  exact (proj1 (proj2 (redis_refused_turn_backs_off "mx1.example.com"
                         (Throttle.mkThrottleConfig 10 2 2000) 300 5000 srv 1000 H))).
Defined.

End DistributedBookkeeping.

Section ClockedRelease.
Import Redis Expiry.

(** The number keys after [releaseSlot], its two decrements served at
    [t]. *)
Definition released_at (t : Z) (mxHost : string) (ttl : Z) (srv : Server) : Db :=
  numbers (RedisThrottleStore.releaseSlot mxHost ttl
             (mkServer (live_at t (numbers srv)) (documents srv))).

Lemma released_at_decr (t : Z) (mxHost : string) (ttl : Z) (srv : Server) :
  released_at t mxHost ttl srv
  = snd (decr globalKey (snd (decr (mxKey (Js.toLowerCase mxHost))
                                (live_at t (numbers srv))))).
Proof.
  unfold released_at, RedisThrottleStore.releaseSlot. cbn [numbers documents].
  destruct (RedisThrottleStore.getFromRedis_state _ _); reflexivity.
Qed.

Lemma not_kept_gone (t : Z) (db : Db) (k : string) :
  ~ kept t db k -> live_at t db !! k = None.
Proof.
  unfold kept. rewrite live_at_lookup. intros Hn.
  destruct (db !! k) as [e|]; [|reflexivity].
  destruct (decide (lapsed t e)); [reflexivity|now exfalso].
Qed.

(** X18. On the distributed backend a slot taken by the script at [t1]
    and given back by [releaseSlot] at [t2] leaves the global counter
    and the counter of the host as they were, for a host whose
    lower-cased name is not [global], as long as the counter keys have
    not lapsed in between. Their time to live is set when a counter
    leaves zero and is not renewed by later acquisitions: a counter whose
    key has lapsed by [t2], the slot still held, is created anew by the
    decrement, at -1 and without time to live. [releaseSlot] always
    takes exactly one off each of the two counters as they read at the
    time, whatever their value: it has no floor at zero, unlike the
    process-local backend; it leaves the stamp and the penalty alone. *)
Theorem redis_acquire_then_release_restores (mxHost : string)
    (maxGlobal maxMx ttlSeconds now minInterval t1 t2 ttl : Z)
    (db : Db) (docs : gmap string (Throttle.MxState * option Z)) :
  let h := Js.toLowerCase mxHost in
  let g := globalKey in
  let m := mxKey h in
  let l := lastAttemptKey h in
  let p := penaltyKey h in
  let out := apply_op_at g m p l t1 (Acquire maxGlobal maxMx ttlSeconds now minInterval) db in
  let released := released_at t2 mxHost ttl (mkServer (snd out) docs) in
  h <> "global" ->
  granted (fst out) ->
  (kept t2 (snd out) g -> get_number released g = get_number (live_at t1 db) g) /\
  (kept t2 (snd out) m -> get_number released m = get_number (live_at t1 db) m) /\
  (~ kept t2 (snd out) g -> released !! g = Some (mkEntry (-1) None)) /\
  (~ kept t2 (snd out) m -> released !! m = Some (mkEntry (-1) None)) /\
  (forall t srv0,
     let live := live_at t (numbers srv0) in
     get_number (released_at t mxHost ttl srv0) g = get_number live g - 1 /\
     get_number (released_at t mxHost ttl srv0) m = get_number live m - 1 /\
     released_at t mxHost ttl srv0 !! l = live !! l /\
     released_at t mxHost ttl srv0 !! p = live !! p).
Proof.
  intros h g m l p out released Hne Hgr.
  pose proof (throttle_keys_distinct h Hne) as Hkeys.
  destruct Hkeys as (K1 & K2 & K3 & K4 & K5 & K6).
  assert (Hrel : forall t srv0,
             let live := live_at t (numbers srv0) in
             get_number (released_at t mxHost ttl srv0) g = get_number live g - 1 /\
             get_number (released_at t mxHost ttl srv0) m = get_number live m - 1 /\
             released_at t mxHost ttl srv0 !! l = live !! l /\
             released_at t mxHost ttl srv0 !! p = live !! p).
  { intros t srv0 live. rewrite released_at_decr. fold h m live.
    rewrite !get_number_decr. unfold decr; cbn [snd].
    rewrite !lookup_insert_ne by (subst g m l p; congruence).
    repeat case_decide; try (subst g m l p; congruence); repeat split; lia. }
  assert (Hout : get_number (snd out) g = get_number (live_at t1 db) g + 1 /\
                 get_number (snd out) m = get_number (live_at t1 db) m + 1).
  { subst out. rewrite apply_op_at_acquire in *. cbn [fst snd] in *.
    pose proof (acquire_script_spec g m p l
                  (conj K1 (conj K2 (conj K3 (conj K4 (conj K5 K6)))))
                  maxGlobal maxMx (deadline t1 ttlSeconds) now minInterval (live_at t1 db))
      as [Hyes Hno].
    destruct (gates_dec g m p l maxGlobal maxMx now minInterval (live_at t1 db)) as [Hg|Hg].
    - destruct (Hyes Hg) as (_ & Hg' & Hm' & _). split; assumption.
    - destruct (Hno Hg) as (_ & Ha & _). unfold granted in Hgr. lia. }
  destruct Hout as [Hg' Hm'].
  destruct (Hrel t2 (mkServer (snd out) docs)) as (R1 & R2 & _).
  cbn [numbers] in R1, R2. fold released in R1, R2.
  split; [|split; [|split; [|split; [|exact Hrel]]]].
  - intros Hk. rewrite R1. unfold get_number at 1. rewrite Hk.
    fold (get_number (snd out) g). lia.
  - intros Hk. rewrite R2. unfold get_number at 1. rewrite Hk.
    fold (get_number (snd out) m). lia.
  - intros Hk. apply not_kept_gone in Hk.
    subst released. rewrite released_at_decr. cbn [numbers]. fold h m.
    unfold decr at 1; cbn [snd]. rewrite lookup_insert_eq.
    unfold get_number. unfold decr; cbn [snd].
    rewrite !lookup_insert_ne by (subst g m; congruence). fold g.
    now rewrite Hk.
  - intros Hk. apply not_kept_gone in Hk.
    subst released. rewrite released_at_decr. cbn [numbers]. fold h m.
    unfold decr at 1; cbn [snd]. rewrite lookup_insert_ne by (subst g m; congruence).
    unfold decr; cbn [snd]. rewrite lookup_insert_eq.
    unfold get_number. now rewrite Hk.
Qed.

(** A connection held for 15 seconds, with keys that live 10: the
    release finds both counters gone. *)
Lemma redis_acquire_then_release_restores_witness :
  let g := globalKey in
  let m := mxKey "mx1.example.com" in
  let out := apply_op_at g m (penaltyKey "mx1.example.com")
               (lastAttemptKey "mx1.example.com") 1000 (Acquire 10 2 10 1000 2000) ∅ in
  let released := released_at 16000 "mx1.example.com" 10 (mkServer (snd out) ∅) in
  granted (fst out) /\
  released !! g = Some (mkEntry (-1) None) /\
  released !! m = Some (mkEntry (-1) None).
Proof.
  intros g m out released.
  assert (Hgr : granted (fst out)) by reflexivity.
  split; [exact Hgr|].
  destruct (redis_acquire_then_release_restores "mx1.example.com" 10 2 10 1000 2000
              1000 16000 10 ∅ ∅) as (_ & _ & H3 & H4 & _); [discriminate|exact Hgr|].
  split; [apply H3|apply H4]; vm_compute; discriminate.
Defined.

End ClockedRelease.

(** ** The in-memory cache and the MX lookup *)

Section CacheFacts.
Import Cache.

Context {T : Type}.

Lemma get_fresh (key : string) (now : Z) (cache : InMemoryCache T) (e : CacheEntry T) :
  cache !! key = Some e -> now <= expiresAt e ->
  get key now cache = (Some (data e), cache).
Proof.
  intros Hl Hle. unfold get. rewrite Hl.
  replace (expiresAt e <? now) with false by (symmetry; apply Z.ltb_ge; lia).
  reflexivity.
Qed.

Lemma get_expired (key : string) (now : Z) (cache : InMemoryCache T) (e : CacheEntry T) :
  cache !! key = Some e -> expiresAt e < now ->
  get key now cache = (None, delete key cache).
Proof.
  intros Hl Hlt. unfold get. rewrite Hl.
  replace (expiresAt e <? now) with true by (symmetry; apply Z.ltb_lt; lia).
  reflexivity.
Qed.

Lemma get_missing (key : string) (now : Z) (cache : InMemoryCache T) :
  cache !! key = None -> get key now cache = (None, cache).
Proof. intros Hl. unfold get. now rewrite Hl. Qed.

Lemma get_set_fresh (key : string) (value : T) (ttlMs t0 t : Z)
    (cache : InMemoryCache T) :
  t <= t0 + ttlMs ->
  get key t (set key value ttlMs t0 cache) = (Some value, set key value ttlMs t0 cache).
Proof.
  intros Hle. unfold get, set. rewrite lookup_insert_eq. cbn [expiresAt data].
  replace (t0 + ttlMs <? t) with false by (symmetry; apply Z.ltb_ge; lia).
  reflexivity.
Qed.

Lemma get_set_other (k key : string) (value : T) (ttlMs t0 t : Z)
    (cache : InMemoryCache T) :
  k <> key ->
  fst (get k t (set key value ttlMs t0 cache)) = fst (get k t cache).
Proof.
  intros Hne. unfold get, set. rewrite lookup_insert_ne by congruence.
  destruct (cache !! k) as [e|]; [|reflexivity].
  destruct (expiresAt e <? t); reflexivity.
Qed.

End CacheFacts.

Section CacheClaims.
Import Cache.

(** X20. What [set] stores, [get] returns until the entry expires: a
    value stored at time [t0] with time to live [ttlMs] is returned by
    every [get] for its key made no later than [t0 + ttlMs] (that instant
    included), whatever the key held before, and a [get] made later
    returns [null] and removes the entry, so that no later [get] returns
    it either. Entries under other keys are not affected by the [set]. *)
Theorem cache_set_then_get {T : Type} (key : string) (value : T) (ttlMs t0 t : Z)
    (cache : InMemoryCache T) :
  let stored := set key value ttlMs t0 cache in
  (t <= t0 + ttlMs -> get key t stored = (Some value, stored)) /\
  (t0 + ttlMs < t ->
     get key t stored = (None, delete key cache) /\
     forall t', fst (get key t' (snd (get key t stored))) = None) /\
  (forall k, k <> key -> fst (get k t stored) = fst (get k t cache)).
Proof.
  intros stored. subst stored. unfold set.
  split; [|split].
  - intros Hle. now apply get_set_fresh.
  - intros Hlt.
    assert (Hgone : get key t (<[key := mkCacheEntry value (t0 + ttlMs)]> cache)
                    = (None, delete key cache)).
    { unfold get. rewrite lookup_insert_eq. cbn [expiresAt].
      replace (t0 + ttlMs <? t) with true by (symmetry; apply Z.ltb_lt; lia).
      now rewrite delete_insert_eq. }
    rewrite Hgone. split; [reflexivity|].
    intros t'. cbn [snd]. now rewrite get_missing by apply lookup_delete_eq.
  - intros k Hne. now apply get_set_other.
Qed.

(** X21. [cleanupExpired] cannot be observed through [get]: it removes
    exactly the entries that have expired at the time it runs, it never
    grows the cache, and every [get] made at that time or later returns
    what it would have returned without the clean-up. *)
Theorem cleanupExpired_unobservable {T : Type} (now t : Z) (key : string)
    (cache : InMemoryCache T) :
  now <= t ->
  fst (get key t (cleanupExpired now cache)) = fst (get key t cache) /\
  (forall k e, cleanupExpired now cache !! k = Some e <->
               cache !! k = Some e /\ now <= expiresAt e) /\
  (size (cleanupExpired now cache) <= size cache)%nat.
Proof.
  intros Hle.
  assert (Hl : forall k e, cleanupExpired now cache !! k = Some e <->
                           cache !! k = Some e /\ now <= expiresAt e).
  { intros k e. unfold cleanupExpired. rewrite map_lookup_filter_Some.
    cbn [snd]. split; intros [H1 H2]; (split; [exact H1|lia]). }
  split; [|split; [exact Hl|apply map_size_filter]].
  unfold get at 2.
  destruct (cache !! key) as [e|] eqn:Hc.
  - destruct (Z_lt_le_dec (expiresAt e) now) as [Hexp|Hfresh].
    + replace (expiresAt e <? t) with true by (symmetry; apply Z.ltb_lt; lia).
      rewrite get_missing; [reflexivity|].
      destruct (cleanupExpired now cache !! key) as [e'|] eqn:Hk; [|reflexivity].
      apply Hl in Hk as [Hk1 Hk2]. rewrite Hc in Hk1. injection Hk1 as <-. lia.
    + assert (Hk : cleanupExpired now cache !! key = Some e) by (apply Hl; auto).
      unfold get. rewrite Hk.
      destruct (expiresAt e <? t); reflexivity.
  - rewrite get_missing; [reflexivity|].
    destruct (cleanupExpired now cache !! key) as [e'|] eqn:Hk; [|reflexivity].
    apply Hl in Hk as [Hk1 _]. congruence.
Qed.

Lemma cleanupExpired_unobservable_witness :
  let cache := set "mx:example.com" [mkMx "mx1.example.com" 10] 600000 0
                 (set "mx:old.example" [] 1000 0 ∅) in
  fst (get "mx:example.com" 5000 (cleanupExpired 2000 cache))
    = Some [mkMx "mx1.example.com" 10] /\
  cleanupExpired 2000 cache !! "mx:old.example" = None.
Proof.
  intros cache.
  destruct (cleanupExpired_unobservable 2000 5000 "mx:example.com" cache)
    as (H & _ & _); [lia|].
  split; [rewrite H; reflexivity|reflexivity].
Defined.

Lemma mx_key_not_validation_key (a b : string) : "mx:" ++ a <> "validation:" ++ b.
Proof. discriminate. Qed.

(** X22. The domain cache keys its entries by lower-cased name and keeps
    MX records and validation results apart. Records stored for a domain
    are returned, until they expire, for every spelling of the domain
    that differs by letter case only; a missing or zero [ttlMs] means ten
    minutes; and storing MX records never changes what a validation
    look-up returns, nor the reverse, whatever the names. *)
Theorem domain_cache_keys {T : Type} (domain domain' : string) (records : T)
    (ttlMs : option Z) (t0 t : Z) (cache : InMemoryCache T) :
  Js.toLowerCase domain' = Js.toLowerCase domain ->
  t <= t0 + ttl_or ttlMs DEFAULT_MX_TTL_MS ->
  fst (getMxFromCache domain' t (setMxInCache domain records ttlMs t0 cache))
    = Some records /\
  ttl_or None DEFAULT_MX_TTL_MS = 600000 /\
  ttl_or (Some 0) DEFAULT_MX_TTL_MS = 600000 /\
  (forall email,
     fst (getValidationFromCache email t (setMxInCache domain records ttlMs t0 cache))
     = fst (getValidationFromCache email t cache)) /\
  (forall email result ttl',
     fst (getMxFromCache domain' t
            (setValidationInCache email result ttl' t0
               (setMxInCache domain records ttlMs t0 cache)))
     = Some records).
Proof.
  intros Hcase Hle.
  unfold getMxFromCache, setMxInCache, getValidationFromCache, setValidationInCache.
  rewrite Hcase.
  set (key := "mx:" ++ Js.toLowerCase domain).
  set (ttl := ttl_or ttlMs DEFAULT_MX_TTL_MS) in *.
  split; [now rewrite get_set_fresh|].
  split; [reflexivity|]. split; [reflexivity|]. split.
  - intros email. apply get_set_other. subst key. intros H. symmetry in H.
    exact (mx_key_not_validation_key _ _ H).
  - intros email result ttl'.
    rewrite get_set_other by (subst key; apply mx_key_not_validation_key).
    now rewrite get_set_fresh.
Qed.

Lemma domain_cache_keys_witness :
  fst (getMxFromCache "EXAMPLE.com" 600000
         (setMxInCache "Example.COM" [mkMx "mx1.example.com" 10] None 0 ∅))
  = Some [mkMx "mx1.example.com" 10].
Proof.
  destruct (domain_cache_keys "Example.COM" "EXAMPLE.com" [mkMx "mx1.example.com" 10]
              None 0 600000 ∅) as (H & _); [reflexivity|vm_compute; discriminate|].
  exact H.
Defined.

End CacheClaims.

Section MxLookup.

(** X23. The result of [Dns.validateMx] is consistent, and [validateSmtp]
    relies on it: [domainHasMx] is set exactly when the result carries a
    non-empty list of records. A lookup that finds no record, but also
    one that times out or fails, reports [domainHasMx = false], on which
    [validateSmtp] answers [invalid] with [no_mx_records] and
    [smtp_invalid] without opening any connection. *)
Theorem validateMx_flag_matches_records (domain : string) (ttlMs : option Z)
    (now later : Z) (resolveMx : list MxRecord + JsError)
    (cache : Cache.InMemoryCache (list MxRecord)) :
  let r := fst (Dns.validateMx domain ttlMs now later resolveMx cache) in
  (Dns.domainHasMx r = true <-> exists mx rest, Dns.mxRecords r = Some (mx :: rest)) /\
  (Dns.domainHasMx r = false -> Dns.mxRecords r = Some [] \/ Dns.mxRecords r = None) /\
  (forall email cfg env,
     Orchestrator.mx_lookup env = inl (Dns.to_lookup r) ->
     Dns.domainHasMx r = false ->
     Orchestrator.run (Orchestrator.validateSmtp email domain cfg) env =
     (inl (mkResult invalid [no_mx_records; smtp_invalid] None),
      Orchestrator.mkWorld O [])).
Proof.
  intros r.
  assert (H : (Dns.domainHasMx r = true /\ exists mx rest, Dns.mxRecords r = Some (mx :: rest)) \/
              (Dns.domainHasMx r = false /\ (Dns.mxRecords r = Some [] \/ Dns.mxRecords r = None))).
  { subst r. unfold Dns.validateMx.
    destruct (Cache.getMxFromCache _ now cache) as [[cachedMx|] cache1].
    - destruct cachedMx as [|mx rest]; cbn [length Nat.ltb Nat.leb fst Dns.domainHasMx Dns.mxRecords];
        [right; auto|left; eauto].
    - destruct resolveMx as [records|error].
      + destruct (Dns.normalize records) as [|mx rest] eqn:En;
          cbn [length Nat.eqb fst Dns.domainHasMx Dns.mxRecords]; [right; auto|left; eauto].
      + destruct (Dns.error_code_is error "ENOTFOUND" || Dns.error_code_is error "ENODATA");
          [right; cbn; auto|].
        destruct (Dns.error_code_is error "ETIMEOUT" || Dns.error_code_is error "ETIMEDOUT");
          right; cbn; auto. }
  split; [|split].
  - destruct H as [[H1 H2]|[H1 [H2|H2]]]; split; intros H'; auto;
      try congruence; destruct H' as (mx & rest & H'); congruence.
  - destruct H as [[H1 _]|[_ H2]]; [congruence|auto].
  - intros email cfg env Hmx Hno.
    unfold Orchestrator.run, Orchestrator.validateSmtp, Orchestrator.try_catch,
      Orchestrator.bind at 1, Orchestrator.validateMx.
    rewrite Hmx. unfold Dns.to_lookup; cbn [Orchestrator.mxRecords Orchestrator.domainHasMx].
    rewrite Hno. destruct (Dns.mxRecords r); reflexivity.
Qed.

Lemma getMxFromCache_normalized (d : string) (now : Z)
    (c : Cache.InMemoryCache (list MxRecord)) :
  Cache.getMxFromCache (Js.toLowerCase d) now c = Cache.getMxFromCache d now c.
Proof. unfold Cache.getMxFromCache. now rewrite toLowerCase_idempotent. Qed.

Lemma setMxInCache_normalized (d : string) (records : list MxRecord)
    (ttlMs : option Z) (later : Z) (c : Cache.InMemoryCache (list MxRecord)) :
  Cache.setMxInCache (Js.toLowerCase d) records ttlMs later c
  = Cache.setMxInCache d records ttlMs later c.
Proof. unfold Cache.setMxInCache. now rewrite toLowerCase_idempotent. Qed.

(** The lookup on a cache hit, and on a miss. *)
Lemma validateMx_hit (domain : string) (ttlMs : option Z) (now later : Z)
    (resolveMx : list MxRecord + JsError)
    (cache cache1 : Cache.InMemoryCache (list MxRecord)) (cachedMx : list MxRecord) :
  Cache.getMxFromCache domain now cache = (Some cachedMx, cache1) ->
  Dns.validateMx domain ttlMs now later resolveMx cache =
  if (0 <? length cachedMx)%nat
  then (Dns.mkMxValidationResult true (Some cachedMx)
          [Dns.cache_hit; Dns.mx_records_found; Dns.domain_valid], cache1)
  else (Dns.mkMxValidationResult false (Some [])
          [Dns.cache_hit; Dns.no_mx_records; Dns.domain_invalid], cache1).
Proof. intros H. unfold Dns.validateMx. now rewrite getMxFromCache_normalized, H. Qed.

Lemma validateMx_miss (domain : string) (ttlMs : option Z) (now later : Z)
    (resolveMx : list MxRecord + JsError)
    (cache cache1 : Cache.InMemoryCache (list MxRecord)) :
  Cache.getMxFromCache domain now cache = (None, cache1) ->
  Dns.validateMx domain ttlMs now later resolveMx cache =
  match resolveMx with
  | inl records =>
      let stored := Cache.setMxInCache domain (Dns.normalize records) ttlMs later cache1 in
      if (length (Dns.normalize records) =? 0)%nat
      then (Dns.mkMxValidationResult false (Some [])
              [Dns.cache_miss; Dns.no_mx_records; Dns.domain_invalid], stored)
      else (Dns.mkMxValidationResult true (Some (Dns.normalize records))
              [Dns.cache_miss; Dns.mx_records_found; Dns.domain_valid], stored)
  | inr error =>
      if Dns.error_code_is error "ENOTFOUND" || Dns.error_code_is error "ENODATA" then
        (Dns.mkMxValidationResult false (Some [])
           [Dns.cache_miss; Dns.no_mx_records; Dns.domain_invalid],
         Cache.setMxInCache domain [] ttlMs later cache1)
      else if Dns.error_code_is error "ETIMEOUT" || Dns.error_code_is error "ETIMEDOUT" then
        (Dns.mkMxValidationResult false None [Dns.cache_miss; Dns.dns_timeout; Dns.domain_invalid], cache1)
      else
        (Dns.mkMxValidationResult false None
           [Dns.cache_miss; Dns.dns_lookup_failed; Dns.domain_invalid], cache1)
  end.
Proof.
  intros H. unfold Dns.validateMx. rewrite getMxFromCache_normalized, H.
  destruct resolveMx as [records|error]; [|now rewrite setMxInCache_normalized].
  cbv zeta. now rewrite setMxInCache_normalized.
Qed.

Lemma validateMx_flag_matches_records_witness :
  let r := fst (Dns.validateMx "example.com" None 0 50
                  (inr (mkError "queryMx ETIMEOUT example.com" (Some "ETIMEOUT"))) ∅) in
  Dns.domainHasMx r = false /\
  Orchestrator.run
    (Orchestrator.validateSmtp "user@example.com" "example.com" (cfg_example false))
    (Orchestrator.mkEnv (inl (Dns.to_lookup r)) (fun _ => Orchestrator.mkAttempt None [])
       (fun _ => "probe") (fun _ => 0%Q))
  = (inl (mkResult invalid [no_mx_records; smtp_invalid] None),
     Orchestrator.mkWorld O []).
Proof.
  intros r.
  assert (Hno : Dns.domainHasMx r = false) by reflexivity.
  split; [exact Hno|].
  destruct (validateMx_flag_matches_records "example.com" None 0 50
              (inr (mkError "queryMx ETIMEOUT example.com" (Some "ETIMEOUT"))) ∅)
    as (_ & _ & H).
  apply H; [reflexivity|exact Hno].
Defined.

End MxLookup.

(** ** The MX lookup: the array shared with the cache *)

Section SharedArrays.
Import SharedMx.

Lemma mx_to_try_mx_order (cfg : SmtpValidationConfig) (rnd : nat -> Q)
    (records : list MxRecord) :
  Orchestrator.mx_to_try cfg rnd records
  = Orchestrator.slice0 (maxMxAttempts cfg) (mx_order cfg rnd records).
Proof. reflexivity. Qed.

Lemma contents_alloc (a : list MxRecord) (h : Heap) :
  contents (snd (alloc a h)) (fst (alloc a h)) = a.
Proof.
  unfold contents, alloc; simpl.
  now rewrite (list_lookup_middle h [] a (length h) eq_refl).
Qed.

Lemma contents_alloc_old (a : list MxRecord) (h : Heap) (ref : nat) :
  (ref < length h)%nat -> contents (snd (alloc a h)) ref = contents h ref.
Proof.
  intros Hlt. unfold contents, alloc; simpl. now rewrite lookup_app_l by lia.
Qed.


Lemma mx_order_perm cfg rnd (records : list MxRecord) :
  (forall d, (0 <= rnd d < 1)%Q) ->
  Permutation records (mx_order cfg rnd records).
Proof.
  intros Hrnd. unfold mx_order.
  pose proof (sort_by_priority_perm records) as Hsort. symmetry in Hsort.
  destruct (randomizeSamePriority cfg); [|exact Hsort].
  etransitivity; [exact Hsort|].
  unfold Orchestrator.randomize_same_priority.
  destruct (shuffle_groups_spec rnd Hrnd (length (Orchestrator.sort_by_priority records))
              (Orchestrator.sort_by_priority records) O O) as [Hp _].
  symmetry. exact Hp.
Qed.

End SharedArrays.

Section SharedLookup.
Import SharedMx.






End SharedLookup.

Section SharedLookupClaim.
Import SharedMx.




End SharedLookupClaim.

Section SharedAndValues.
Import SharedMx.

(** The cache as a caller reads it: each reference replaced by the
    contents of its array. *)
Definition read_cache (h : Heap) (cache : Cache.InMemoryCache nat)
    : Cache.InMemoryCache (list MxRecord) :=
  (fun e => Cache.mkCacheEntry (contents h (Cache.data e)) (Cache.expiresAt e)) <$> cache.

Definition read_result (h : Heap) (r : MxValidationResult) : Dns.MxValidationResult :=
  Dns.mkMxValidationResult (domainHasMx r) (contents h <$> mxRecords r) (reasonCodes r).

(** The cache refers to allocated arrays only. *)
Definition refs_allocated (h : Heap) (cache : Cache.InMemoryCache nat) : Prop :=
  forall k e, cache !! k = Some e -> (Cache.data e < length h)%nat.

Lemma read_cache_alloc (a : list MxRecord) (h : Heap) (cache : Cache.InMemoryCache nat) :
  refs_allocated h cache -> read_cache (h ++ [a]) cache = read_cache h cache.
Proof.
  intros Hok. unfold read_cache. apply map_eq. intros k. rewrite !lookup_fmap.
  destruct (cache !! k) as [e|] eqn:E; [|reflexivity]. simpl.
  f_equal. f_equal. apply (contents_alloc_old a h). now apply (Hok k).
Qed.

Lemma refs_allocated_alloc (a : list MxRecord) (h : Heap) (cache : Cache.InMemoryCache nat) :
  refs_allocated h cache -> refs_allocated (h ++ [a]) cache.
Proof. intros Hok k e He. rewrite length_app. specialize (Hok k e He). simpl. lia. Qed.

Lemma refs_allocated_delete (key : string) (h : Heap) (cache : Cache.InMemoryCache nat) :
  refs_allocated h cache -> refs_allocated h (delete key cache).
Proof.
  intros Hok k e He. apply lookup_delete_Some in He as [_ He]. now apply (Hok k).
Qed.

Lemma refs_allocated_set (key : string) (ref : nat) (ttlMs now : Z) (h : Heap)
    (cache : Cache.InMemoryCache nat) :
  (ref < length h)%nat -> refs_allocated h cache ->
  refs_allocated h (Cache.set key ref ttlMs now cache).
Proof.
  intros Hlt Hok k e He. unfold Cache.set in He.
  apply lookup_insert_Some in He as [[_ <-]|[_ He]]; [exact Hlt|now apply (Hok k)].
Qed.

Lemma read_cache_get (key : string) (now : Z) (h : Heap) (cache : Cache.InMemoryCache nat) :
  Cache.get key now (read_cache h cache) =
  (contents h <$> fst (Cache.get key now cache), read_cache h (snd (Cache.get key now cache))).
Proof.
  unfold Cache.get, read_cache. rewrite lookup_fmap.
  destruct (cache !! key) as [e|]; [|reflexivity]. simpl.
  destruct (Cache.expiresAt e <? now); [|reflexivity]. simpl.
  now rewrite fmap_delete.
Qed.

Lemma read_cache_set (key : string) (ref : nat) (ttlMs now : Z) (h : Heap)
    (cache : Cache.InMemoryCache nat) :
  read_cache h (Cache.set key ref ttlMs now cache)
  = Cache.set key (contents h ref) ttlMs now (read_cache h cache).
Proof. unfold Cache.set, read_cache. now rewrite fmap_insert. Qed.

Lemma refs_allocated_get (key : string) (now : Z) (h : Heap)
    (cache : Cache.InMemoryCache nat) :
  refs_allocated h cache ->
  refs_allocated h (snd (Cache.get key now cache)) /\
  forall ref, fst (Cache.get key now cache) = Some ref -> (ref < length h)%nat.
Proof.
  intros Hok. unfold Cache.get. destruct (cache !! key) as [e|] eqn:E; simpl.
  - destruct (Cache.expiresAt e <? now); simpl.
    + split; [now apply refs_allocated_delete|discriminate].
    + split; [exact Hok|]. intros ref [= <-]. now apply (Hok key).
  - split; [exact Hok|discriminate].
Qed.

(** [Dns.validateMx] is the lookup with its result and the cache read at
    once, before any caller has changed an array. *)
Lemma validateMx_read_at_once (domain : string) (ttlMs : option Z) (now later : Z)
    (resolveMx : list MxRecord + JsError) (h : Heap) (cache : Cache.InMemoryCache nat) :
  refs_allocated h cache ->
  let out := validateMx domain ttlMs now later resolveMx h cache in
  let h1 := snd (fst out) in
  Dns.validateMx domain ttlMs now later resolveMx (read_cache h cache)
  = (read_result h1 (fst (fst out)), read_cache h1 (snd out)) /\
  refs_allocated h1 (snd out).
Proof.
  intros Hok out h1. subst h1 out.
  unfold Dns.validateMx, validateMx, Cache.getMxFromCache.
  rewrite read_cache_get.
  destruct (refs_allocated_get ("mx:" ++ Js.toLowerCase (Js.toLowerCase domain)) now h cache Hok)
    as [Hok1 Href].
  destruct (Cache.get ("mx:" ++ Js.toLowerCase (Js.toLowerCase domain)) now cache)
    as [[cachedMx|] cache1]; cbn [fst snd fmap option_fmap option_map] in *.
  - destruct (0 <? length (contents h cachedMx))%nat eqn:El.
    + split; [|exact Hok1]. unfold read_result; cbn.
      reflexivity.
    + unfold alloc. cbn [fst snd]. split.
      * unfold read_result; cbn [domainHasMx mxRecords reasonCodes fmap option_fmap option_map].
        rewrite (read_cache_alloc [] h cache1 Hok1).
        pose proof (contents_alloc [] h) as Hc. unfold alloc in Hc; cbn [fst snd] in Hc.
        rewrite Hc. reflexivity.
      * now apply refs_allocated_alloc.
  - destruct resolveMx as [records|error].
    + unfold alloc. cbv zeta. cbn [fst snd].
      pose proof (contents_alloc (Dns.normalize records) h) as Hc.
      unfold alloc in Hc; cbn [fst snd] in Hc. rewrite Hc.
      assert (Hok2 : refs_allocated (h ++ [Dns.normalize records])
                       (Cache.setMxInCache (Js.toLowerCase domain) (length h) ttlMs later cache1)).
      { apply refs_allocated_set; [rewrite length_app; simpl; lia|].
        now apply refs_allocated_alloc. }
      assert (Hset : read_cache (h ++ [Dns.normalize records])
                       (Cache.setMxInCache (Js.toLowerCase domain) (length h) ttlMs later cache1)
                     = Cache.setMxInCache (Js.toLowerCase domain) (Dns.normalize records)
                         ttlMs later (read_cache h cache1)).
      { unfold Cache.setMxInCache. rewrite read_cache_set, Hc.
        now rewrite (read_cache_alloc _ h cache1 Hok1). }
      destruct (length (Dns.normalize records) =? 0)%nat eqn:El; cbn [fst snd].
      * split; [|now apply refs_allocated_alloc].
        rewrite (read_cache_alloc [] _ _ Hok2), Hset.
        unfold read_result; cbn [domainHasMx mxRecords reasonCodes fmap option_fmap option_map].
        pose proof (contents_alloc [] (h ++ [Dns.normalize records])) as Hc'.
        unfold alloc in Hc'; cbn [fst snd] in Hc'. rewrite Hc'. reflexivity.
      * split; [|exact Hok2]. rewrite Hset.
        unfold read_result; cbn [domainHasMx mxRecords reasonCodes fmap option_fmap option_map].
        rewrite Hc. reflexivity.
    + destruct (Dns.error_code_is error "ENOTFOUND" || Dns.error_code_is error "ENODATA").
      * unfold alloc. cbv zeta. cbn [fst snd].
        pose proof (contents_alloc [] h) as Hc.
        unfold alloc in Hc; cbn [fst snd] in Hc.
        assert (Hok2 : refs_allocated (h ++ [[]])
                         (Cache.setMxInCache (Js.toLowerCase domain) (length h) ttlMs later cache1)).
        { apply refs_allocated_set; [rewrite length_app; simpl; lia|].
          now apply refs_allocated_alloc. }
        split; [|now apply refs_allocated_alloc].
        rewrite (read_cache_alloc [] _ _ Hok2).
        unfold Cache.setMxInCache. rewrite read_cache_set, Hc.
        rewrite (read_cache_alloc _ h cache1 Hok1).
        unfold read_result; cbn [domainHasMx mxRecords reasonCodes fmap option_fmap option_map].
        pose proof (contents_alloc [] (h ++ [[]])) as Hc'.
        unfold alloc in Hc'; cbn [fst snd] in Hc'. rewrite Hc'. reflexivity.
      * destruct (Dns.error_code_is error "ETIMEOUT" || Dns.error_code_is error "ETIMEDOUT");
          cbn [fst snd]; (split; [reflexivity|exact Hok1]).
Qed.

End SharedAndValues.
